(** * The bounded concurrent URL-discovery crawler of [scraper.py]

    A shallow embedding of [VapeScraper.find_product_urls] and the methods it
    calls ([is_valid_url], [is_product_url], [get_page], [process_page]),
    together with the site registry of [config.py].

    - URLs, hrefs and page markup are [string]s; Python sets of URLs are
      [gset string]; [list(s)] of a set is [elements s] (some fixed
      enumeration without repetition, as in Python the order is not
      specified).
    - The library calls the crawler makes ([urlparse], [urljoin],
      [BeautifulSoup(..).find_all], [requests.get]) are collaborators: they
      are the fields of the class [Collaborators] and every statement is
      proved for all of them.
    - The thread pool is a transition system: a state holds the scraper
      object, the local variables of [find_product_urls], one task per URL
      of the batch in flight and the program point of the main thread; an
      [action] names the thread that takes the next step. A schedule is a
      list of actions, [run] executes it.
    - A step of a pool thread reads or writes [self.visited_urls] at most
      once. [get_page] touches no shared variable and is one step; the body
      of [with self.found_urls_lock] is one step. A queued task may start
      whenever fewer than [max_workers] tasks are running; the order in
      which the executor starts them is one of the orders allowed here.
    - [requests_get] answers by URL and attempt number; [str.lower] acts on
      the ASCII letters, which is all the four listing terms need. *)

From stdpp Require Import gmap strings list fin_maps fin_sets.
From Stdlib Require Import ZArith Ascii Lia.

Set Warnings "-clear-no-such-hyp".

Open Scope string_scope.
Open Scope Z_scope.
Open Scope list_scope.

(** ** Strings as Python handles them *)

(** [needle in hay] on Python strings. *)
Fixpoint str_in (needle hay : string) : bool :=
  String.prefix needle hay ||
  match hay with
  | EmptyString => false
  | String _ rest => str_in needle rest
  end.

Definition lower_ascii (c : ascii) : ascii :=
  let n := nat_of_ascii c in
  if ((65 <=? n) && (n <=? 90))%nat then ascii_of_nat (n + 32) else c.

(** [s.lower()], on the ASCII letters. *)
Fixpoint str_lower (s : string) : string :=
  match s with
  | EmptyString => EmptyString
  | String c rest => String (lower_ascii c) (str_lower rest)
  end.

(** Truthiness of a string: [if s] holds for every string but the empty one. *)
Definition truthy (s : string) : bool :=
  match s with
  | EmptyString => false
  | String _ _ => true
  end.

(** [l[:n]] for a Python list; a negative [n] counts from the end. *)
Definition slice_to {A} (l : list A) (n : Z) : list A :=
  if 0 <=? n then take (Z.to_nat n) l
  else take (Z.to_nat (Z.of_nat (List.length l) + n)) l.

(** [len(s)] of a set, as a Python integer. *)
Definition len (s : gset string) : Z := Z.of_nat (size s).

(** ** config.py *)

Record site_info := {
  site_base_url : string;
  site_product_pattern : string
}.

Definition TARGET_SITES : gmap string site_info :=
  <["vaperanger" := {| site_base_url := "https://vaperanger.com";
                       site_product_pattern := "/products/" |}]>
  (<["vapewholesale" := {| site_base_url := "https://vapewholesaleusa.com";
                           site_product_pattern := "/" |}]> ∅).

(** ** The scraper object *)

(** The attributes of a [VapeScraper] that hold data. [base_url] does not
    exist before the first crawl ([None]); [base_domain] is Python's [None]
    after [__init__]. *)
Record VapeScraper := {
  products : list string;
  visited_urls : gset string;
  base_domain : option string;
  base_url : option string;
  obj_product_urls : gset string;
  target_sites : gmap string site_info
}.

(** [VapeScraper.__init__] *)
Definition VapeScraper_init : VapeScraper :=
  {| products := [];
     visited_urls := ∅;
     base_domain := None;
     base_url := None;
     obj_product_urls := ∅;
     target_sites := TARGET_SITES |}.

Definition set_visited_urls (v : gset string) (self : VapeScraper) : VapeScraper :=
  {| products := products self;
     visited_urls := v;
     base_domain := base_domain self;
     base_url := base_url self;
     obj_product_urls := obj_product_urls self;
     target_sites := target_sites self |}.

(** Exceptions that the modelled code can raise. *)
Inductive exn :=
  | KeyError        (* [self.target_sites[site_name]] on an unknown name *)
  | ValueError      (* [urlparse] / [urljoin] on a malformed URL *)
  | AttributeError  (* [self.base_url] before any crawl has set it *)
  | ParserError.    (* the markup parser gave up *)

(** What one console or network effect of the crawl is. [ESleep] is in
    milliseconds. *)
Inductive effect :=
  | EGet (url : string) (attempt : nat)
  | ESleep (ms : nat)
  | EPrintFetchError (url : string)
  | EPrintProcessError (url : string).

(** ** The state of one crawl *)

(** What a future resolves to: the pair that [process_page] returns, or the
    exception it raised. *)
Inductive outcome :=
  | Returned (product_links category_links : gset string)
  | Raised (e : exn).

(** Where the task [process_page(url, site_name)] of the pool stands. *)
Inductive task :=
  | Queued      (* submitted, [process_page] not yet entered *)
  | Tested      (* [url in self.visited_urls] was false; the lock is next *)
  | Fetching    (* [url] has been added; [get_page] is next *)
  | Linking (hrefs : list string) (product_links category_links : gset string)
                (* in the loop over the anchors, [hrefs] still to do *)
  | Done (r : outcome).

Definition is_done (t : task) : bool :=
  match t with Done _ => true | _ => false end.

(** A task that occupies one of the pool's threads. *)
Definition is_running (t : task) : bool :=
  match t with Queued | Done _ => false | _ => true end.

(** Program points of the main thread inside [find_product_urls]. *)
Inductive main_pc :=
  | AtWhile     (* at the test of the [while] loop *)
  | InFor       (* in [for future in as_completed(future_to_url)] *)
  | AtExit      (* both loops left; the [with] block waits for the pool *)
  | Finished (result : list string).   (* [return list(product_urls)] *)

(** The scraper object, the locals of [find_product_urls], the pool and the
    effects performed so far. [future_to_url] has one task per URL of the
    current batch; [yielded] are the futures [as_completed] has handed out. *)
Record crawl := {
  self : VapeScraper;
  product_urls : gset string;
  urls_to_visit : gset string;
  future_to_url : gmap string task;
  yielded : gset string;
  pc : main_pc;
  trace : list effect
}.

(** The thread that takes the next step: the pool thread working on [url],
    the main thread receiving the future of [url] from [as_completed], or the
    main thread elsewhere. *)
Inductive action :=
  | Work (url : string)
  | Yield (url : string)
  | Main.

Definition max_workers : nat := 20.
Definition batch : Z := 50.
Definition listing_terms : list string :=
  ["product"; "collection"; "category"; "shop"].

(** ** The library calls the crawler relies on *)

Class Collaborators := {
  (** [urlparse(url).netloc]; [None] when [urlparse] raises [ValueError]. *)
  urlparse_netloc : string → option string;
  (** [urljoin(base, href)]; [None] when it raises [ValueError]. *)
  urljoin : string → string → option string;
  (** The [href] of every [a] tag that has one, in document order:
      [[a['href'] for a in BeautifulSoup(html, 'html.parser').find_all('a', href=True)]];
      [None] when the parser raises. *)
  soup_hrefs : string → option (list string);
  (** [requests.get(url, headers, timeout=5)] followed by
      [raise_for_status()], at the given attempt: the body on success,
      [None] when either raises. *)
  requests_get : string → nat → option string
}.

Section Scraper.
Context {world : Collaborators}.

(** [VapeScraper.is_valid_url] *)
Definition is_valid_url (self : VapeScraper) (url : string) : bool :=
  match urlparse_netloc url with
  | Some netloc =>
      if truthy netloc then bool_decide (Some netloc = base_domain self)
      else false
  | None => false
  end.

(** [VapeScraper.is_product_url] *)
Definition is_product_url (self : VapeScraper) (url site_name : string)
  : exn + bool :=
  match target_sites self !! site_name with
  | Some info => inr (str_in (site_product_pattern info) url)
  | None => inl KeyError
  end.

(** The [for attempt in range(max_retries)] loop of [get_page], entered at
    [attempt] with [todo] iterations left. *)
Fixpoint get_page_from (max_retries : nat) (url : string) (attempt todo : nat)
  : option string * list effect :=
  match todo with
  | O => (None, [])
  | S todo' =>
      match requests_get url attempt with
      | Some text => (Some text, [EGet url attempt])
      | None =>
          if (attempt =? max_retries - 1)%nat
          then (None, [EGet url attempt; EPrintFetchError url])
          else
            let '(r, tr) := get_page_from max_retries url (S attempt) todo' in
            (r, EGet url attempt :: ESleep 500 :: tr)
      end
  end.

(** [VapeScraper.get_page] *)
Definition get_page (url : string) : option string * list effect :=
  let max_retries := 3%nat in
  get_page_from max_retries url 0 max_retries.

(** One iteration of [for a in soup.find_all('a', href=True)] in
    [process_page], for the anchor target [href]. *)
Definition link_step (self : VapeScraper) (site_name href : string)
    (product_links category_links : gset string)
  : exn + (gset string * gset string) :=
  match base_url self with
  | None => inl AttributeError
  | Some base =>
      match urljoin base href with
      | None => inl ValueError
      | Some full_url =>
          if negb (is_valid_url self full_url)
          then inr (product_links, category_links)
          else
            match is_product_url self full_url site_name with
            | inl e => inl e
            | inr true => inr ({[full_url]} ∪ product_links, category_links)
            | inr false =>
                if bool_decide (full_url ∉ visited_urls self) then
                  if existsb (λ term, str_in term (str_lower full_url))
                       listing_terms
                  then inr (product_links, {[full_url]} ∪ category_links)
                  else inr (product_links, category_links)
                else inr (product_links, category_links)
            end
      end
  end.

(** [VapeScraper.process_page], one step at a time. Every step reads or
    writes [self.visited_urls] at most once; the insertion is the body of
    [with self.found_urls_lock]. *)
Definition process_page_step (self : VapeScraper) (url site_name : string)
    (t : task) : option (VapeScraper * task * list effect) :=
  match t with
  | Queued =>
      if bool_decide (url ∈ visited_urls self)
      then Some (self, Done (Returned ∅ ∅), [])
      else Some (self, Tested, [])
  | Tested =>
      Some (set_visited_urls ({[url]} ∪ visited_urls self) self, Fetching, [])
  | Fetching =>
      let '(html, tr) := get_page url in
      match html with
      | None => Some (self, Done (Returned ∅ ∅), tr)
      | Some text =>
          if truthy text then
            match soup_hrefs text with
            | Some hrefs => Some (self, Linking hrefs ∅ ∅, tr)
            | None => Some (self, Done (Raised ParserError), tr)
            end
          else Some (self, Done (Returned ∅ ∅), tr)
      end
  | Linking [] product_links category_links =>
      Some (self, Done (Returned product_links category_links), [])
  | Linking (href :: hrefs) product_links category_links =>
      match link_step self site_name href product_links category_links with
      | inl e => Some (self, Done (Raised e), [])
      | inr (product_links', category_links') =>
          Some (self, Linking hrefs product_links' category_links', [])
      end
  | Done _ => None
  end.

(** Number of pool threads in use. *)
Definition busy (pool : gmap string task) : nat :=
  size (filter (λ kv, is_running kv.2 = true) pool).

(** Where the main thread goes when the [for] loop is over:
    [if len(product_urls) >= max_urls: break], else back to the [while]. *)
Definition after_for (max_urls : Z) (product_urls : gset string) : main_pc :=
  if max_urls <=? len product_urls then AtExit else AtWhile.

(** The body of the [for] loop for the future of [url], resolved to [r]. *)
Definition merge (max_urls : Z) (url : string) (r : outcome) (s : crawl)
  : crawl :=
  match r with
  | Raised e =>
      {| self := self s;
         product_urls := product_urls s;
         urls_to_visit := urls_to_visit s;
         future_to_url := future_to_url s;
         yielded := {[url]} ∪ yielded s;
         pc := InFor;
         trace := trace s ++ [EPrintProcessError url] |}
  | Returned page_products page_categories =>
      let new_products := page_products ∖ product_urls s in
      let overflow := max_urls <? len (product_urls s) + len new_products in
      let product_urls' :=
        if overflow then
          let remaining := max_urls - len (product_urls s) in
          product_urls s ∪ list_to_set (slice_to (elements new_products) remaining)
        else product_urls s ∪ new_products in
      if overflow && (max_urls <=? len product_urls') then
        (* [break] *)
        {| self := self s;
           product_urls := product_urls';
           urls_to_visit := urls_to_visit s;
           future_to_url := future_to_url s;
           yielded := {[url]} ∪ yielded s;
           pc := after_for max_urls product_urls';
           trace := trace s |}
      else
        {| self := self s;
           product_urls := product_urls';
           urls_to_visit :=
             if len product_urls' <? max_urls
             then urls_to_visit s ∪
                  (page_categories ∖ visited_urls (self s) ∖ urls_to_visit s)
             else urls_to_visit s;
           future_to_url := future_to_url s;
           yielded := {[url]} ∪ yielded s;
           pc := InFor;
           trace := trace s |}
  end.

(** The main thread at the [while] test: draw a batch and submit it, or
    leave the loop. *)
Definition while_step (max_urls : Z) (s : crawl) : crawl :=
  if negb (bool_decide (urls_to_visit s = ∅)) &&
     (len (product_urls s) <? max_urls)
  then
    let batch_size := Z.min batch (len (urls_to_visit s)) in
    let current_batch : gset string :=
      list_to_set (slice_to (elements (urls_to_visit s)) batch_size) in
    {| self := self s;
       product_urls := product_urls s;
       urls_to_visit := urls_to_visit s ∖ current_batch;
       future_to_url := gset_to_gmap Queued current_batch;
       yielded := ∅;
       pc := InFor;
       trace := trace s |}
  else
    {| self := self s;
       product_urls := product_urls s;
       urls_to_visit := urls_to_visit s;
       future_to_url := future_to_url s;
       yielded := yielded s;
       pc := AtExit;
       trace := trace s |}.

Definition set_pc (p : main_pc) (s : crawl) : crawl :=
  {| self := self s;
     product_urls := product_urls s;
     urls_to_visit := urls_to_visit s;
     future_to_url := future_to_url s;
     yielded := yielded s;
     pc := p;
     trace := trace s |}.

(** One step of the thread named by the action; [None] when that thread
    cannot move (it waits, or has finished). A queued task starts only
    while fewer than [max_workers] threads are in use. *)
Definition step (site_name : string) (max_urls : Z) (a : action) (s : crawl)
  : option crawl :=
  match a with
  | Work url =>
      match future_to_url s !! url with
      | None => None
      | Some t =>
          if negb (is_running t) && negb (busy (future_to_url s) <? max_workers)%nat
          then None
          else
            match process_page_step (self s) url site_name t with
            | None => None
            | Some (self', t', tr) =>
                Some {| self := self';
                        product_urls := product_urls s;
                        urls_to_visit := urls_to_visit s;
                        future_to_url := <[url := t']> (future_to_url s);
                        yielded := yielded s;
                        pc := pc s;
                        trace := trace s ++ tr |}
            end
      end
  | Yield url =>
      match pc s, future_to_url s !! url with
      | InFor, Some (Done r) =>
          if bool_decide (url ∈ yielded s) then None
          else Some (merge max_urls url r s)
      | _, _ => None
      end
  | Main =>
      match pc s with
      | AtWhile => Some (while_step max_urls s)
      | InFor =>
          if bool_decide (dom (future_to_url s) ⊆ yielded s)
          then Some (set_pc (after_for max_urls (product_urls s)) s)
          else None
      | AtExit =>
          if bool_decide (map_Forall (λ _ t, is_done t = true) (future_to_url s))
          then Some (set_pc (Finished (elements (product_urls s))) s)
          else None
      | Finished _ => None
      end
  end.

(** Run a schedule; [None] when it names a thread that cannot move. *)
Fixpoint run (site_name : string) (max_urls : Z) (schedule : list action)
    (s : crawl) : option crawl :=
  match schedule with
  | [] => Some s
  | a :: rest =>
      match step site_name max_urls a s with
      | Some s' => run site_name max_urls rest s'
      | None => None
      end
  end.

(** [find_product_urls] up to the [with ThreadPoolExecutor] block. *)
Definition find_product_urls_start (obj : VapeScraper) (site_name : string)
  : exn + crawl :=
  match target_sites obj !! site_name with
  | None => inl KeyError
  | Some site_info =>
      match urlparse_netloc (site_base_url site_info) with
      | None => inl ValueError
      | Some netloc =>
          inr {| self := {| products := products obj;
                            visited_urls := ∅;
                            base_domain := Some netloc;
                            base_url := Some (site_base_url site_info);
                            obj_product_urls := obj_product_urls obj;
                            target_sites := target_sites obj |};
                 product_urls := ∅;
                 urls_to_visit := {[site_base_url site_info]};
                 future_to_url := ∅;
                 yielded := ∅;
                 pc := AtWhile;
                 trace := [] |}
      end
  end.

(** [VapeScraper.find_product_urls] under a schedule: the exception it
    raises or the list it returns; [None] when the schedule is not a
    complete execution. *)
Definition find_product_urls (obj : VapeScraper) (site_name : string)
    (max_urls : Z) (schedule : list action) : option (exn + list string) :=
  match find_product_urls_start obj site_name with
  | inl e => Some (inl e)
  | inr s0 =>
      match run site_name max_urls schedule s0 with
      | Some s =>
          match pc s with
          | Finished result => Some (inr result)
          | _ => None
          end
      | None => None
      end
  end.

(** The same steps as a relation, one rule per program point. *)
Inductive steps_to (site_name : string) (max_urls : Z) (s : crawl)
  : action → crawl → Prop :=
  | work_step url t self' t' tr :
      future_to_url s !! url = Some t →
      (is_running t = true ∨ (busy (future_to_url s) < max_workers)%nat) →
      process_page_step (self s) url site_name t = Some (self', t', tr) →
      steps_to site_name max_urls s (Work url)
        {| self := self';
           product_urls := product_urls s;
           urls_to_visit := urls_to_visit s;
           future_to_url := <[url := t']> (future_to_url s);
           yielded := yielded s;
           pc := pc s;
           trace := trace s ++ tr |}
  | yield_step url r :
      pc s = InFor →
      future_to_url s !! url = Some (Done r) →
      url ∉ yielded s →
      steps_to site_name max_urls s (Yield url) (merge max_urls url r s)
  | while_test :
      pc s = AtWhile →
      steps_to site_name max_urls s Main (while_step max_urls s)
  | for_exhausted :
      pc s = InFor →
      dom (future_to_url s) ⊆ yielded s →
      steps_to site_name max_urls s Main
        (set_pc (after_for max_urls (product_urls s)) s)
  | pool_shutdown :
      pc s = AtExit →
      map_Forall (λ _ t, is_done t = true) (future_to_url s) →
      steps_to site_name max_urls s Main
        (set_pc (Finished (elements (product_urls s))) s).

(** The steps of [process_page] as a relation, one rule per outcome. *)
Inductive page_steps_to (obj : VapeScraper) (url site_name : string)
  : task → VapeScraper → task → list effect → Prop :=
  | skip_visited :
      url ∈ visited_urls obj →
      page_steps_to obj url site_name Queued obj (Done (Returned ∅ ∅)) []
  | pass_test :
      url ∉ visited_urls obj →
      page_steps_to obj url site_name Queued obj Tested []
  | mark_visited :
      page_steps_to obj url site_name Tested
        (set_visited_urls ({[url]} ∪ visited_urls obj) obj) Fetching []
  | fetch_failed tr :
      get_page url = (None, tr) →
      page_steps_to obj url site_name Fetching obj (Done (Returned ∅ ∅)) tr
  | fetch_empty text tr :
      get_page url = (Some text, tr) →
      truthy text = false →
      page_steps_to obj url site_name Fetching obj (Done (Returned ∅ ∅)) tr
  | parse_failed text tr :
      get_page url = (Some text, tr) →
      truthy text = true →
      soup_hrefs text = None →
      page_steps_to obj url site_name Fetching obj (Done (Raised ParserError)) tr
  | parsed text tr hrefs :
      get_page url = (Some text, tr) →
      truthy text = true →
      soup_hrefs text = Some hrefs →
      page_steps_to obj url site_name Fetching obj (Linking hrefs ∅ ∅) tr
  | links_done p c :
      page_steps_to obj url site_name (Linking [] p c) obj
        (Done (Returned p c)) []
  | link_raised href hrefs p c e :
      link_step obj site_name href p c = inl e →
      page_steps_to obj url site_name (Linking (href :: hrefs) p c) obj
        (Done (Raised e)) []
  | link_done href hrefs p c p' c' :
      link_step obj site_name href p c = inr (p', c') →
      page_steps_to obj url site_name (Linking (href :: hrefs) p c) obj
        (Linking hrefs p' c') [].



(** The product links a task has collected so far. *)
Definition task_products (t : task) : gset string :=
  match t with
  | Linking _ product_links _ => product_links
  | Done (Returned product_links _) => product_links
  | _ => ∅
  end.





End Scraper.

(** ** A small web for examples

    Stand-ins for the collaborators, used where a statement is shown on
    concrete input; no general statement depends on them. One host, [vaperanger.com]. The seed page links to two products, to the
    listings [/collections/a] and [/collections/b] and to a foreign product;
    listing [a] links to listing [b] and to three more products. The first
    request of the seed times out. *)
Module Web.

Fixpoint upto_slash (s : string) : string :=
  match s with
  | EmptyString => EmptyString
  | String c rest =>
      if Ascii.eqb c "/"%char then EmptyString
      else String c (upto_slash rest)
  end.

Definition netloc (url : string) : option string :=
  if String.prefix "https://" url
  then Some (upto_slash (String.substring 8 (String.length url - 8) url))
  else Some "".

Definition join (base href : string) : option string :=
  if String.prefix "/" href then Some (base +:+ href)
  else if String.prefix "https://" href then Some href
  else None.

Definition seed : string := "https://vaperanger.com".
Definition listing_a : string := "https://vaperanger.com/collections/a".
Definition listing_b : string := "https://vaperanger.com/collections/b".

Definition hrefs (html : string) : option (list string) :=
  if String.eqb html "seed" then
    Some ["/products/p1"; "/collections/a"; "/collections/b";
          "https://other.test/products/z"; "/products/p2"; "/about"]
  else if String.eqb html "a" then
    Some ["/collections/b"; "/products/p3"; "/products/p4"; "/products/p5"]
  else if String.eqb html "broken" then None
  else Some [].

Definition get (url : string) (attempt : nat) : option string :=
  if String.eqb url seed then
    match attempt with O => None | _ => Some "seed" end
  else if String.eqb url listing_a then Some "a"
  else if String.eqb url listing_b then Some "broken"
  else None.

Definition world : Collaborators :=
  {| urlparse_netloc := netloc;
     urljoin := join;
     soup_hrefs := hrefs;
     requests_get := get |}.

(** A host whose seed page only links elsewhere. *)
Definition lonely_hrefs (html : string) : option (list string) :=
  Some ["https://other.test/products/z"; "https://other.test/shop"].

Definition lonely : Collaborators :=
  {| urlparse_netloc := netloc;
     urljoin := join;
     soup_hrefs := lonely_hrefs;
     requests_get := λ _ _, Some "page" |}.

(** [n] steps of the pool thread working on [url]. *)
Definition work (n : nat) (url : string) : list action :=
  replicate n (Work url).

(** The seed is fetched and merged, then the crawl returns. *)
Definition seed_only : list action :=
  Main :: work 10 seed ++ [Yield seed; Main; Main].

(** The second batch is [{a, b}]: [a] is fetched and merged before the
    thread of [b] has marked [b] as visited. *)
Definition a_before_b : list action :=
  Main :: work 10 seed ++ [Yield seed; Main; Main] ++
  work 8 listing_a ++ [Yield listing_a] ++ work 2 listing_b.

(** The same crawl to its end: [b] is drawn a second time and skipped. *)
Definition a_before_b_to_end : list action :=
  a_before_b ++ work 1 listing_b ++ [Yield listing_b; Main; Main] ++
  work 1 listing_b ++ [Yield listing_b; Main; Main; Main].

Definition product (name : string) : string :=
  "https://vaperanger.com/products/" +:+ name.

(** A crawl with two products found, about to merge a page that has two
    more. *)
Definition two_found : crawl :=
  {| self := set_visited_urls {[seed; listing_a]} VapeScraper_init;
     product_urls := {[product "p1"; product "p2"]};
     urls_to_visit := ∅;
     future_to_url :=
       {[listing_a := Done (Returned {[product "p2"; product "p3"; product "p4"]}
                                    {[listing_b]})]};
     yielded := ∅;
     pc := InFor;
     trace := [] |}.

(** The object after a crawl of the other site. *)
Definition used : VapeScraper :=
  {| products := [];
     visited_urls := {[seed; listing_a; "https://vapewholesaleusa.com"]};
     base_domain := Some "vapewholesaleusa.com";
     base_url := Some "https://vapewholesaleusa.com";
     obj_product_urls := ∅;
     target_sites := TARGET_SITES |}.

(** The object in the middle of a crawl of [vaperanger]. *)
Definition crawling : VapeScraper :=
  {| products := [];
     visited_urls := {[seed]};
     base_domain := Some "vaperanger.com";
     base_url := Some seed;
     obj_product_urls := ∅;
     target_sites := TARGET_SITES |}.

End Web.

(** ** Facts about the string operations *)

Section StringFacts.

Lemma append_cons (c : ascii) (a b : string) :
  String c a +:+ b = String c (a +:+ b).
Proof. reflexivity. Qed.

Lemma append_nil (b : string) : "" +:+ b = b.
Proof. reflexivity. Qed.

Lemma prefix_append (p s : string) :
  String.prefix p s = true ↔ ∃ b, s = p +:+ b.
Proof.
  revert s. induction p as [|c p IH]; intros [|d s]; simpl.
  - split; [intros _; by exists "" | done].
  - split; [intros _; by exists (String d s) | done].
  - split; [done | intros [b Hb]; discriminate].
  - setoid_rewrite append_cons.
    destruct (Ascii.ascii_dec c d) as [->|Hne].
    + rewrite IH. split; intros [b Hb]; exists b; congruence.
    + split; [done | intros [b Hb]; congruence].
Qed.

Lemma str_in_cons (p : string) (c : ascii) (s : string) :
  str_in p (String c s) = String.prefix p (String c s) || str_in p s.
Proof. reflexivity. Qed.

Lemma str_in_nil (p : string) : str_in p "" = String.prefix p "" || false.
Proof. reflexivity. Qed.

(** [str_in] decides the occurrence of a substring. *)
Lemma str_in_spec (p s : string) :
  str_in p s = true ↔ ∃ a b, s = a +:+ p +:+ b.
Proof.
  split.
  - induction s as [|c s IH].
    + rewrite str_in_nil, orb_true_iff.
      intros [H|H]; [|done]. apply prefix_append in H as [b Hb].
      by exists "", b.
    + rewrite str_in_cons, orb_true_iff. intros [H|H].
      * apply prefix_append in H as [b Hb]. by exists "", b.
      * destruct (IH H) as (a & b & ->). by exists (String c a), b.
  - intros (a & b & ->). induction a as [|c a IH].
    + rewrite append_nil.
      assert (String.prefix p (p +:+ b) = true) as Hp
        by (apply prefix_append; by exists b).
      destruct (p +:+ b).
      * by rewrite str_in_nil, Hp.
      * by rewrite str_in_cons, Hp.
    + rewrite append_cons, str_in_cons, orb_true_iff. right. exact IH.
Qed.

Lemma str_lower_append (a b : string) :
  str_lower (a +:+ b) = str_lower a +:+ str_lower b.
Proof.
  induction a as [|c a IH]; [done|].
  rewrite append_cons. simpl. by rewrite IH.
Qed.

Lemma str_lower_split (u x y : string) :
  str_lower u = x +:+ y →
  ∃ u1 u2, u = u1 +:+ u2 ∧ str_lower u1 = x ∧ str_lower u2 = y.
Proof.
  revert u. induction x as [|c x IH]; intros u.
  - intros H. by exists "", u.
  - rewrite append_cons. destruct u as [|d u]; simpl; [done|].
    intros [= Hc Hu].
    destruct (IH _ Hu) as (u1 & u2 & -> & H1 & H2).
    exists (String d u1), u2. simpl. by rewrite Hc, H1.
Qed.

(** [term in url.lower()] finds the occurrences of [term] up to the case
    of the letters of [url]. *)
Lemma str_in_lower_spec (term url : string) :
  str_in term (str_lower url) = true ↔
  ∃ a m b, url = a +:+ m +:+ b ∧ str_lower m = term.
Proof.
  rewrite str_in_spec. split.
  - intros (a' & b' & H).
    apply str_lower_split in H as (a & r & -> & Ha & Hr).
    apply str_lower_split in Hr as (m & b & -> & Hm & Hb).
    by exists a, m, b.
  - intros (a & m & b & -> & <-).
    exists (str_lower a), (str_lower b). by rewrite !str_lower_append.
Qed.

Lemma truthy_nonempty (s : string) : truthy s = true ↔ s ≠ "".
Proof. by destruct s. Qed.

End StringFacts.

(** ** Facts about slices and sizes *)

Section SliceFacts.
Context {A : Type}.
Implicit Types (l : list A) (n : Z).

Lemma slice_to_sublist l n : sublist (slice_to l n) l.
Proof. unfold slice_to. case_match; apply sublist_take. Qed.

Lemma slice_to_elem l n x : x ∈ slice_to l n → x ∈ l.
Proof. intros H. eapply elem_of_sublist; [done | apply slice_to_sublist]. Qed.

Lemma slice_to_NoDup l n : NoDup l → NoDup (slice_to l n).
Proof. intros H. eapply sublist_NoDup; [done | apply slice_to_sublist]. Qed.

Lemma slice_to_length l n :
  0 ≤ n → n ≤ Z.of_nat (length l) → Z.of_nat (length (slice_to l n)) = n.
Proof.
  intros H0 Hn. unfold slice_to.
  destruct (0 <=? n) eqn:E; [|lia]. rewrite length_take. lia.
Qed.

End SliceFacts.

Lemma len_empty : len ∅ = 0.
Proof. unfold len. by rewrite size_empty. Qed.

Lemma len_mono (X Y : gset string) : X ⊆ Y → len X ≤ len Y.
Proof. intros H. unfold len. apply subseteq_size in H. lia. Qed.

Lemma len_union_disjoint (X Y : gset string) :
  X ## Y → len (X ∪ Y) = len X + len Y.
Proof. intros H. unfold len. rewrite size_union by done. lia. Qed.

Lemma len_list_to_set (l : list string) :
  NoDup l → len (list_to_set l) = Z.of_nat (length l).
Proof. intros H. unfold len. by rewrite size_list_to_set. Qed.

Lemma len_elements (X : gset string) : Z.of_nat (length (elements X)) = len X.
Proof. reflexivity. Qed.

(** ** Facts about the methods *)

Section MethodFacts.
Context {world : Collaborators}.
Implicit Types (obj : VapeScraper) (url site_name : string) (s : crawl).

Lemma is_valid_url_spec obj url :
  is_valid_url obj url = true ↔
  ∃ d, urlparse_netloc url = Some d ∧ d ≠ "" ∧ base_domain obj = Some d.
Proof.
  unfold is_valid_url. destruct (urlparse_netloc url) as [d|].
  - destruct (truthy d) eqn:Ht.
    + rewrite bool_decide_eq_true. apply truthy_nonempty in Ht.
      split; [intros H; by exists d | intros (d' & [= <-] & _ & ->); done].
    + split; [done | intros (d' & [= <-] & Hd & _)].
      apply truthy_nonempty in Hd. congruence.
  - split; [done | intros (d' & ? & _); done].
Qed.

(** The four ways [get_page] can go. *)
Lemma get_page_cases url :
  (∃ text, requests_get url 0%nat = Some text ∧
     get_page url = (Some text, [EGet url 0])) ∨
  (∃ text, requests_get url 0%nat = None ∧ requests_get url 1%nat = Some text ∧
     get_page url = (Some text, [EGet url 0; ESleep 500; EGet url 1])) ∨
  (∃ text, requests_get url 0%nat = None ∧ requests_get url 1%nat = None ∧
     requests_get url 2%nat = Some text ∧
     get_page url =
       (Some text, [EGet url 0; ESleep 500; EGet url 1; ESleep 500; EGet url 2])) ∨
  (requests_get url 0%nat = None ∧ requests_get url 1%nat = None ∧
     requests_get url 2%nat = None ∧
     get_page url =
       (None, [EGet url 0; ESleep 500; EGet url 1; ESleep 500; EGet url 2;
               EPrintFetchError url])).
Proof.
  unfold get_page. simpl.
  destruct (requests_get url 0%nat) as [t0|] eqn:E0; [left; eauto|].
  destruct (requests_get url 1%nat) as [t1|] eqn:E1; [right; left; eauto|].
  destruct (requests_get url 2%nat) as [t2|] eqn:E2;
    [right; right; left; eauto | right; right; right; eauto].
Qed.

End MethodFacts.

(** ** Facts about single steps *)

Section StepFacts.
Context {world : Collaborators}.
Variables (site_name : string) (max_urls : Z).
Implicit Types (s : crawl) (a : action) (url : string).

Lemma step_steps_to a s s' :
  step site_name max_urls a s = Some s' ↔ steps_to site_name max_urls s a s'.
Proof.
  split.
  - destruct a as [url|url|]; simpl.
    + destruct (future_to_url s !! url) as [t|] eqn:Ht; [|done].
      destruct (negb (is_running t) && negb (busy (future_to_url s) <? max_workers)%nat)
        eqn:Hb; [done|].
      destruct (process_page_step (self s) url site_name t)
        as [[[self' t'] tr]|] eqn:Hp; [|done].
      intros [= <-]. eapply work_step; [done| |done].
      apply andb_false_iff in Hb as [Hb|Hb].
      * left. by destruct (is_running t).
      * right. apply negb_false_iff, Nat.ltb_lt in Hb. done.
    + destruct (pc s) eqn:Hpc; try done.
      destruct (future_to_url s !! url) as [[| | | |r]|] eqn:Ht; try done.
      case_bool_decide; [done|]. intros [= <-]. by apply yield_step.
    + destruct (pc s) eqn:Hpc.
      * intros [= <-]. by apply while_test.
      * case_bool_decide; [|done]. intros [= <-]. by apply for_exhausted.
      * case_bool_decide; [|done]. intros [= <-]. by apply pool_shutdown.
      * done.
  - intros [url t self' t' tr Ht Hb Hp|url r Hpc Ht Hy|Hpc|Hpc Hy|Hpc Hd]; simpl.
    + rewrite Ht, Hp.
      destruct (negb (is_running t) && negb (busy (future_to_url s) <? max_workers)%nat)
        eqn:E; [|done].
      apply andb_true_iff in E as [E1 E2].
      apply negb_true_iff in E1. apply negb_true_iff, Nat.ltb_ge in E2.
      destruct Hb; [congruence | lia].
    + rewrite Hpc, Ht. by rewrite bool_decide_eq_false_2.
    + by rewrite Hpc.
    + rewrite Hpc. by rewrite bool_decide_eq_true_2.
    + rewrite Hpc. by rewrite bool_decide_eq_true_2.
Qed.

Lemma run_app sch1 sch2 s :
  run site_name max_urls (sch1 ++ sch2) s =
  run site_name max_urls sch1 s ≫= run site_name max_urls sch2.
Proof.
  revert s. induction sch1 as [|a sch1 IH]; intros s; simpl; [done|].
  destruct (step site_name max_urls a s); simpl; [apply IH | done].
Qed.

(** A property kept by every step holds along every schedule. *)
Lemma run_invariant (P : crawl → Prop) :
  (∀ a s s', P s → steps_to site_name max_urls s a s' → P s') →
  ∀ schedule s s', P s → run site_name max_urls schedule s = Some s' → P s'.
Proof.
  intros Hstep schedule. induction schedule as [|a rest IH]; intros s s' HP; simpl.
  - by intros [= <-].
  - destruct (step site_name max_urls a s) as [s1|] eqn:Hs; [|done].
    apply IH. eapply Hstep; [done|]. by apply step_steps_to.
Qed.

(** *** What [merge] does to each variable *)

Lemma merge_self url r s : self (merge max_urls url r s) = self s.
Proof. unfold merge. destruct r; [|done]. by case_match. Qed.

Lemma merge_future_to_url url r s :
  future_to_url (merge max_urls url r s) = future_to_url s.
Proof. unfold merge. destruct r; [|done]. by case_match. Qed.

Lemma merge_yielded url r s :
  yielded (merge max_urls url r s) = {[url]} ∪ yielded s.
Proof. unfold merge. destruct r; [|done]. by case_match. Qed.


Lemma merge_trace_returned url p c s :
  trace (merge max_urls url (Returned p c) s) = trace s.
Proof. unfold merge. by case_match. Qed.

Lemma merge_product_urls_lower url r s :
  product_urls s ⊆ product_urls (merge max_urls url r s).
Proof.
  unfold merge. destruct r; [|done].
  repeat case_match; simpl; set_solver.
Qed.

Lemma slice_elements_subseteq (X : gset string) n :
  list_to_set (C:=gset string) (slice_to (elements X) n) ⊆ X.
Proof.
  intros x. rewrite elem_of_list_to_set. intros Hx.
  apply elem_of_elements. by eapply slice_to_elem.
Qed.

Lemma merge_product_urls_upper url p c s :
  product_urls (merge max_urls url (Returned p c) s) ⊆ product_urls s ∪ p.
Proof.
  unfold merge.
  pose proof (slice_elements_subseteq (p ∖ product_urls s)
                (max_urls - len (product_urls s))) as Hsl.
  repeat case_match; simpl; set_solver.
Qed.

(** The only links [merge] enqueues are listings of the page that are
    neither visited nor pending at that moment. *)
Lemma merge_urls_to_visit_new url p c s x :
  x ∈ urls_to_visit (merge max_urls url (Returned p c) s) →
  x ∉ urls_to_visit s →
  x ∈ c ∧ (x ∉ visited_urls (self s)) ∧
  (len (product_urls (merge max_urls url (Returned p c) s)) < max_urls).
Proof.
  unfold merge. cbv zeta.
  destruct (_ && _); simpl; [done|].
  destruct (_ <? max_urls) eqn:E; [|done].
  apply Z.ltb_lt in E. intros Hx Hn. set_solver.
Qed.

Lemma merge_pc url r s :
  pc (merge max_urls url r s) = InFor ∨
  (pc (merge max_urls url r s) = AtExit ∧
   max_urls ≤ len (product_urls (merge max_urls url r s))).
Proof.
  unfold merge. destruct r; [|by left].
  case_match eqn:E; [|by left]. right. simpl.
  apply andb_true_iff in E as [_ E]. apply Z.leb_le in E.
  unfold after_for. rewrite (proj2 (Z.leb_le _ _) E). done.
Qed.

End StepFacts.

(** ** The budget *)

Section Budget.
Context {world : Collaborators}.
Variables (site_name : string) (max_urls : Z).
Implicit Types (s : crawl) (a : action) (url : string).

Lemma merge_product_urls url p c s :
  product_urls (merge max_urls url (Returned p c) s) =
  if max_urls <? len (product_urls s) + len (p ∖ product_urls s)
  then product_urls s ∪
       list_to_set (slice_to (elements (p ∖ product_urls s))
                      (max_urls - len (product_urls s)))
  else product_urls s ∪ p ∖ product_urls s.
Proof. unfold merge. cbv zeta. by destruct (_ && _). Qed.

(** Taking [m] of more than [m] new links adds exactly [m] URLs. *)
Lemma len_union_slice (X new : gset string) (m : Z) :
  X ## new → 0 ≤ m → m ≤ len new →
  len (X ∪ list_to_set (slice_to (elements new) m)) = len X + m.
Proof.
  intros Hdisj H0 Hm.
  rewrite len_union_disjoint.
  - rewrite len_list_to_set by apply slice_to_NoDup, NoDup_elements.
    rewrite slice_to_length; [done | done | by rewrite len_elements].
  - pose proof (slice_elements_subseteq new m). set_solver.
Qed.

Lemma merge_within_budget url r s :
  len (product_urls s) ≤ max_urls →
  len (product_urls (merge max_urls url r s)) ≤ max_urls.
Proof.
  intros Hle. destruct r as [p c|e]; [|done].
  rewrite merge_product_urls.
  destruct (_ <? _) eqn:E.
  - apply Z.ltb_lt in E. rewrite len_union_slice; [lia | set_solver | lia | lia].
  - apply Z.ltb_ge in E. rewrite len_union_disjoint by set_solver. lia.
Qed.

(** The list that is returned is the accumulated set. *)
Definition finished_result (s : crawl) : Prop :=
  ∀ result, pc s = Finished result → result = elements (product_urls s).

Lemma step_within_budget a s s' :
  len (product_urls s) ≤ max_urls ∧ finished_result s →
  steps_to site_name max_urls s a s' →
  len (product_urls s') ≤ max_urls ∧ finished_result s'.
Proof.
  intros [Hle Hfin] Hstep. destruct Hstep; simpl.
  - done.
  - split; [by apply merge_within_budget|].
    intros l Hl. destruct (merge_pc max_urls url r s) as [Hpc|[Hpc _]]; congruence.
  - split; [unfold while_step; by case_match|].
    intros l. unfold while_step. by case_match.
  - split; [done|]. intros l. simpl. unfold after_for. by case_match.
  - split; [done|]. intros l. simpl. congruence.
Qed.

Lemma start_within_budget obj s0 :
  0 ≤ max_urls →
  find_product_urls_start obj site_name = inr s0 →
  len (product_urls s0) ≤ max_urls ∧ finished_result s0.
Proof.
  intros H0. unfold find_product_urls_start.
  repeat case_match; try done. intros [= <-]. simpl.
  split; [by rewrite len_empty | done].
Qed.

(** When the page brings more new product links than the budget has room
    for, [merge] fills the budget exactly and sends the main thread to the
    exit. *)
Lemma merge_overflow url p c s (m k : nat) :
  len (product_urls s) = max_urls - Z.of_nat m →
  len (p ∖ product_urls s) = Z.of_nat k →
  (m < k)%nat →
  let s' := merge max_urls url (Returned p c) s in
  len (product_urls s') = max_urls ∧
  product_urls s ⊆ product_urls s' ∧
  product_urls s' ∖ product_urls s ⊆ p ∖ product_urls s ∧
  len (product_urls s' ∖ product_urls s) = Z.of_nat m ∧
  urls_to_visit s' = urls_to_visit s ∧
  pc s' = AtExit.
Proof.
  intros Hfound Hk Hmk s'.
  assert ((max_urls <? len (product_urls s) + len (p ∖ product_urls s)) = true) as Hov
    by (apply Z.ltb_lt; lia).
  assert (product_urls s' =
          product_urls s ∪ list_to_set (slice_to (elements (p ∖ product_urls s))
                                          (Z.of_nat m))) as Hs'.
  { unfold s'. rewrite merge_product_urls, Hov. do 3 f_equal. lia. }
  pose proof (slice_elements_subseteq (p ∖ product_urls s) (Z.of_nat m)) as Hsub.
  assert (len (product_urls s') = max_urls) as Hlen.
  { rewrite Hs', len_union_slice; [lia | set_solver | lia | lia]. }
  split; [done|]. split; [set_solver|]. split; [set_solver|].
  split.
  - assert (product_urls s' = product_urls s ∪ product_urls s' ∖ product_urls s) as Hsplit.
    { apply set_eq. intros x. rewrite elem_of_union, elem_of_difference.
      destruct (decide (x ∈ product_urls s)); set_solver. }
    pose proof (len_union_disjoint (product_urls s) (product_urls s' ∖ product_urls s)) as Hd.
    rewrite <- Hsplit in Hd. specialize (Hd ltac:(set_solver)). lia.
  - subst s'. rewrite merge_product_urls, Hov in Hlen.
    unfold merge. cbv zeta. rewrite Hov. simpl.
    assert ((max_urls <=? len (product_urls s ∪ list_to_set
               (slice_to (elements (p ∖ product_urls s))
                  (max_urls - len (product_urls s))))) = true) as E
      by (apply Z.leb_le; lia).
    rewrite E. simpl. split; [done|]. unfold after_for. by rewrite E.
Qed.

End Budget.

(** ** The classifier *)

Section Classifier.
Context {world : Collaborators}.
Implicit Types (obj : VapeScraper) (url href site_name : string).

(** [link_step] adds the resolved link to one accumulator at most; the
    sets it adds to are those of [link_step] on empty accumulators. *)
Lemma link_step_accumulates obj site_name href p c :
  link_step obj site_name href p c =
  match link_step obj site_name href ∅ ∅ with
  | inl e => inl e
  | inr (p0, c0) => inr (p0 ∪ p, c0 ∪ c)
  end.
Proof.
  unfold link_step.
  repeat case_match; try done; f_equal; f_equal; set_solver.
Qed.

(** The outcome of one iteration, by cases on the resolved link. *)
Lemma link_step_resolved obj site_name href base full info :
  base_url obj = Some base →
  urljoin base href = Some full →
  target_sites obj !! site_name = Some info →
  link_step obj site_name href ∅ ∅ =
  inr (if is_valid_url obj full && str_in (site_product_pattern info) full
       then {[full]} else ∅,
       if is_valid_url obj full && negb (str_in (site_product_pattern info) full) &&
          bool_decide (full ∉ visited_urls obj) &&
          existsb (λ term, str_in term (str_lower full)) listing_terms
       then {[full]} else ∅).
Proof.
  intros Hb Hj Hs. unfold link_step, is_product_url. rewrite Hb, Hj, Hs.
  destruct (is_valid_url obj full); cbn [andb negb]; [|done].
  destruct (str_in _ full); cbn [andb negb]; [f_equal; f_equal; set_solver|].
  destruct (bool_decide _); cbn [andb negb]; [|done].
  destruct (existsb _ listing_terms); [|done].
  f_equal; f_equal; set_solver.
Qed.

(** Whatever [link_step] adds to the product links is a valid URL that
    matches the pattern. *)
Lemma link_step_products obj site_name href p c p' c' x :
  link_step obj site_name href p c = inr (p', c') →
  x ∈ p' →
  x ∈ p ∨ (is_valid_url obj x = true ∧ is_product_url obj x site_name = inr true).
Proof.
  unfold link_step. repeat case_match; try done; intros [= <- <-] Hx;
    try (by left).
  apply elem_of_union in Hx as [Hx|Hx]; [|by left].
  apply elem_of_singleton in Hx as ->. right.
  split; [by destruct (is_valid_url obj _) | done].
Qed.

Lemma existsb_listing_terms (f : string → bool) :
  existsb f listing_terms = true ↔ ∃ term, term ∈ listing_terms ∧ f term = true.
Proof.
  rewrite existsb_exists. split; intros (t & Ht & Hf); exists t; split;
    try done; by apply list_elem_of_In.
Qed.

End Classifier.

(** ** Facts about [process_page] *)

Section PageFacts.
Context {world : Collaborators}.
Implicit Types (obj : VapeScraper) (url site_name : string) (t : task).

Lemma process_page_step_steps obj url site_name t obj' t' tr :
  process_page_step obj url site_name t = Some (obj', t', tr) ↔
  page_steps_to obj url site_name t obj' t' tr.
Proof.
  split.
  - destruct t as [| | |hrefs p c|r]; simpl.
    + case_bool_decide; intros [= <- <- <-]; by constructor.
    + intros [= <- <- <-]. constructor.
    + destruct (get_page url) as [[text|] tr0] eqn:Hg.
      * destruct (truthy text) eqn:Ht.
        -- destruct (soup_hrefs text) as [hrefs|] eqn:Hh;
             intros [= <- <- <-]; econstructor; eauto.
        -- intros [= <- <- <-]. by eapply fetch_empty.
      * intros [= <- <- <-]. by constructor.
    + destruct hrefs as [|href hrefs].
      * intros [= <- <- <-]. constructor.
      * destruct (link_step obj site_name href p c) as [e|[p' c']] eqn:Hl;
          intros [= <- <- <-]; by constructor.
    + done.
  - intros H. destruct H; simpl; repeat (rewrite ?bool_decide_eq_true_2,
      ?bool_decide_eq_false_2 by done); try done.
    + by rewrite H.
    + by rewrite H, H0.
    + by rewrite H, H0, H1.
    + by rewrite H, H0, H1.
    + by rewrite H.
    + by rewrite H.
Qed.

(** A task that is not done can always take a step. *)
Lemma process_page_step_total obj url site_name t :
  is_done t = false → is_Some (process_page_step obj url site_name t).
Proof.
  destruct t as [| | |hrefs p c|r]; simpl; try done; intros _.
  - by case_bool_decide.
  - destruct (get_page url) as [[text|] tr0]; [|done].
    destruct (truthy text); [|done]. by destruct (soup_hrefs text).
  - destruct hrefs; [done|].
    by destruct (link_step obj site_name _ p c) as [e|[p' c']].
Qed.

(** [process_page] touches the object in one place only: it adds its own
    URL to [visited_urls]. *)
Lemma page_steps_to_self obj url site_name t obj' t' tr :
  page_steps_to obj url site_name t obj' t' tr →
  products obj' = products obj ∧
  base_domain obj' = base_domain obj ∧
  base_url obj' = base_url obj ∧
  obj_product_urls obj' = obj_product_urls obj ∧
  target_sites obj' = target_sites obj ∧
  visited_urls obj ⊆ visited_urls obj' ∧
  visited_urls obj' ⊆ {[url]} ∪ visited_urls obj.
Proof. intros H. destruct H; simpl; set_solver. Qed.




(** Only a fetch leaves requests in the trace. *)
Lemma page_steps_to_trace obj url site_name t obj' t' tr :
  page_steps_to obj url site_name t obj' t' tr →
  tr = [] ∨ (t = Fetching ∧ tr = (get_page url).2).
Proof.
  intros H. destruct H; try (by left); right; by rewrite H.
Qed.

End PageFacts.

(** ** Invariants of a crawl *)

Section CrawlInvariants.
Context {world : Collaborators}.
Variables (site_name : string) (max_urls : Z).
Implicit Types (s : crawl) (a : action) (url : string) (obj : VapeScraper).

(** *** The object during a crawl *)

(** No step changes the site the object is set to; [visited_urls] grows. *)
Lemma step_self a s s' :
  steps_to site_name max_urls s a s' →
  base_domain (self s') = base_domain (self s) ∧
  base_url (self s') = base_url (self s) ∧
  target_sites (self s') = target_sites (self s) ∧
  visited_urls (self s) ⊆ visited_urls (self s').
Proof.
  intros H. destruct H as [url t self' t' tr Ht Hb Hp|url r| | |]; simpl.
  - apply process_page_step_steps, page_steps_to_self in Hp. naive_solver.
  - by rewrite merge_self.
  - unfold while_step. by case_match.
  - done.
  - done.
Qed.

(** *** Product links *)

(** What it takes to enter a set of product links. *)
Definition product_link (obj : VapeScraper) (url : string) : Prop :=
  is_valid_url obj url = true ∧ is_product_url obj url site_name = inr true.

Definition products_checked (s : crawl) : Prop :=
  (∀ x, x ∈ product_urls s → product_link (self s) x) ∧
  (∀ url t x, future_to_url s !! url = Some t →
              x ∈ task_products t → product_link (self s) x).

Lemma product_link_stable obj obj' x :
  base_domain obj' = base_domain obj →
  target_sites obj' = target_sites obj →
  product_link obj x → product_link obj' x.
Proof.
  unfold product_link, is_valid_url, is_product_url.
  by intros -> ->.
Qed.

Lemma step_products_checked a s s' :
  products_checked s → steps_to site_name max_urls s a s' →
  products_checked s'.
Proof.
  intros [Hacc Hpool] Hstep.
  pose proof (step_self _ _ _ Hstep) as (Hd & _ & Hts & _).
  assert (∀ x, product_link (self s) x → product_link (self s') x) as Hst
    by (intros x; by apply product_link_stable).
  unfold products_checked.
  destruct Hstep as [url t self' t' tr Ht Hb Hp|url r Hpc Ht Hy| | |]; simpl in *.
  - split; [naive_solver|]. intros u tu x Hu Hx.
    destruct (decide (url = u)) as [->|Hne].
    + rewrite lookup_insert_eq in Hu. injection Hu as <-.
      apply process_page_step_steps in Hp.
      destruct Hp; simpl in Hx; try set_solver.
      destruct (link_step_products _ _ _ _ _ _ _ _ H Hx) as [Hin|Hnew].
      * apply Hst. by eapply Hpool.
      * by apply Hst.
    + rewrite lookup_insert_ne in Hu by done. apply Hst. by eapply Hpool.
  - rewrite merge_future_to_url, merge_self. split; [|exact Hpool].
    intros x Hx. destruct r as [p c|e]; [|by apply Hacc].
    apply merge_product_urls_upper, elem_of_union in Hx as [Hx|Hx].
    + by apply Hacc.
    + by eapply Hpool.
  - unfold while_step in *. case_match; simpl in *; [|done].
    split; [done|]. intros u tu x Hu Hx.
    apply lookup_gset_to_gmap_Some in Hu as [_ <-]. set_solver.
  - done.
  - done.
Qed.

(** *** Fetches *)



End CrawlInvariants.

(** ** The pool and the main thread *)

Section PoolFacts.
Context {world : Collaborators}.
Variables (site_name : string) (max_urls : Z).
Implicit Types (s : crawl) (a : action) (url : string).

Definition all_done (pool : gmap string task) : Prop :=
  map_Forall (λ _ t, is_done t = true) pool.

(** While the main thread is at the [while] test or has returned, no task
    is pending; a future that was handed out is resolved. *)
Definition pool_settled (s : crawl) : Prop :=
  (pc s = AtWhile ∨ (∃ result, pc s = Finished result) →
     all_done (future_to_url s)) ∧
  (∀ url, url ∈ yielded s → ∃ r, future_to_url s !! url = Some (Done r)).

Lemma step_pool_settled a s s' :
  pool_settled s → steps_to site_name max_urls s a s' → pool_settled s'.
Proof.
  intros [Hrest Hy] Hstep. unfold pool_settled.
  destruct Hstep as [url t self' t' tr Ht Hb Hp|url r Hpc Ht Hny|Hpc|Hpc Hall|Hpc Hall];
    simpl.
  - assert (is_done t = false) as Hnd.
    { by destruct t. }
    split.
    + intros Hpc. specialize (Hrest Hpc _ _ Ht). simpl in Hrest. congruence.
    + intros u Hu. destruct (Hy u Hu) as [r Hr].
      destruct (decide (url = u)) as [->|Hne]; [|by rewrite lookup_insert_ne; eauto].
      rewrite Hr in Ht. injection Ht as <-. done.
  - rewrite merge_future_to_url, merge_yielded. split.
    + intros Hrest'. destruct (merge_pc max_urls url r s) as [E|[E _]];
        rewrite E in Hrest'; naive_solver.
    + intros u [->%elem_of_singleton|Hu]%elem_of_union; eauto.
  - unfold while_step. case_match; simpl.
    + split; [naive_solver | set_solver].
    + split; [naive_solver | done].
  - split; [|done]. intros _ u t Hu.
    assert (u ∈ yielded s) as Hin.
    { apply Hall, elem_of_dom. eauto. }
    destruct (Hy u Hin) as [r Hr]. rewrite Hr in Hu. by injection Hu as <-.
  - split; [|done]. by intros _.
Qed.

Lemma start_pool_settled obj s0 :
  find_product_urls_start obj site_name = inr s0 → pool_settled s0.
Proof.
  unfold find_product_urls_start. repeat case_match; try done.
  intros [= <-]. split; simpl; [|set_solver].
  intros _ u t Hu. by rewrite lookup_empty in Hu.
Qed.

(** With no task running, no thread is in use. *)
Lemma busy_none (pool : gmap string task) :
  map_Forall (λ _ t, is_running t = false) pool → busy pool = 0%nat.
Proof.
  intros H. unfold busy. apply map_size_empty_iff, map_empty_filter.
  intros u t Hu. simpl. specialize (H u t Hu). simpl in H. congruence.
Qed.

(** As long as a task is pending, some pool thread can move. *)
Lemma pending_task_moves s :
  ¬ all_done (future_to_url s) →
  ∃ url s', step site_name max_urls (Work url) s = Some s'.
Proof.
  intros Hnd. apply map_not_Forall in Hnd as (u & t & Hu & Ht); [|apply _].
  apply not_true_is_false in Ht.
  destruct (decide (map_Forall (λ _ t, is_running t = false) (future_to_url s)))
    as [Hidle|Hrun].
  - destruct (process_page_step_total (self s) u site_name t Ht)
      as [[[obj' t'] tr] Hp].
    exists u. eexists. apply step_steps_to. eapply work_step; [done| |done].
    right. rewrite busy_none by done. unfold max_workers. lia.
  - apply map_not_Forall in Hrun as (v & tv & Hv & Htv); [|apply _].
    apply not_false_is_true in Htv.
    assert (is_done tv = false) as Hndv by (by destruct tv).
    destruct (process_page_step_total (self s) v site_name tv Hndv)
      as [[[obj' t'] tr] Hp].
    exists v. eexists. apply step_steps_to. eapply work_step; [done| |done].
    by left.
Qed.

(** The crawl never blocks: before [return], some thread can move. *)
Lemma progress s :
  (∀ result, pc s ≠ Finished result) →
  ∃ a s', step site_name max_urls a s = Some s'.
Proof.
  intros Hrun.
  destruct (decide (all_done (future_to_url s))) as [Hd|Hnd].
  - destruct (pc s) eqn:Hpc.
    + exists Main. eexists. apply step_steps_to. by apply while_test.
    + destruct (decide (dom (future_to_url s) ⊆ yielded s)) as [Hy|Hny].
      * exists Main. eexists. apply step_steps_to. by apply for_exhausted.
      * assert (∃ u, u ∈ dom (future_to_url s) ∧ u ∉ yielded s) as (u & Hu & Hn).
        { destruct (set_choose_or_empty (dom (future_to_url s) ∖ yielded s))
            as [[u Hu]|Hno]; [exists u; set_solver|].
          exfalso. apply Hny. intros u Hu.
          destruct (decide (u ∈ yielded s)); [done|]. set_solver. }
        apply elem_of_dom in Hu as [t Ht].
        pose proof (Hd u t Ht) as Hdone. simpl in Hdone.
        destruct t as [| | | |r]; try done.
        exists (Yield u). eexists. apply step_steps_to. by apply yield_step.
    + exists Main. eexists. apply step_steps_to. by apply pool_shutdown.
    + by destruct (Hrun result).
  - destruct (pending_task_moves s Hnd) as (u & s' & Hs). by exists (Work u), s'.
Qed.

End PoolFacts.

(** ** From the start of a crawl to its result *)

Section Results.
Context {world : Collaborators}.
Variables (site_name : string) (max_urls : Z).
Implicit Types (s : crawl) (obj : VapeScraper).

Lemma start_inv obj s0 :
  find_product_urls_start obj site_name = inr s0 →
  ∃ info d,
    target_sites obj !! site_name = Some info ∧
    urlparse_netloc (site_base_url info) = Some d ∧
    s0 = {| self := {| products := products obj;
                       visited_urls := ∅;
                       base_domain := Some d;
                       base_url := Some (site_base_url info);
                       obj_product_urls := obj_product_urls obj;
                       target_sites := target_sites obj |};
            product_urls := ∅;
            urls_to_visit := {[site_base_url info]};
            future_to_url := ∅;
            yielded := ∅;
            pc := AtWhile;
            trace := [] |}.
Proof.
  unfold find_product_urls_start.
  destruct (target_sites obj !! site_name) as [info|] eqn:Hs; [|done].
  destruct (urlparse_netloc (site_base_url info)) as [d|] eqn:Hd; [|done].
  intros [= <-]. by exists info, d.
Qed.

Lemma find_product_urls_returns obj schedule result :
  find_product_urls obj site_name max_urls schedule = Some (inr result) →
  ∃ s0 s,
    find_product_urls_start obj site_name = inr s0 ∧
    run site_name max_urls schedule s0 = Some s ∧
    pc s = Finished result.
Proof.
  unfold find_product_urls.
  destruct (find_product_urls_start obj site_name) as [e|s0];
    [intros ?; simplify_eq|].
  destruct (run site_name max_urls schedule s0) as [s|] eqn:Hrun; [|done].
  destruct (pc s) eqn:Hpc; try done. intros [= <-]. by exists s0, s.
Qed.

Lemma run_self s0 schedule s :
  run site_name max_urls schedule s0 = Some s →
  base_domain (self s) = base_domain (self s0) ∧
  base_url (self s) = base_url (self s0) ∧
  target_sites (self s) = target_sites (self s0).
Proof.
  apply (run_invariant site_name max_urls (λ s,
    base_domain (self s) = base_domain (self s0) ∧
    base_url (self s) = base_url (self s0) ∧
    target_sites (self s) = target_sites (self s0))); [|done].
  intros a s1 s2 (H1 & H2 & H3) Hstep.
  apply step_self in Hstep as (-> & -> & -> & _). done.
Qed.

Lemma run_within_budget obj s0 schedule s :
  0 ≤ max_urls →
  find_product_urls_start obj site_name = inr s0 →
  run site_name max_urls schedule s0 = Some s →
  len (product_urls s) ≤ max_urls ∧ finished_result s.
Proof.
  intros H0 Hstart.
  apply (run_invariant site_name max_urls
           (λ s, len (product_urls s) ≤ max_urls ∧ finished_result s)).
  - apply step_within_budget.
  - by eapply start_within_budget.
Qed.

Lemma run_finished_result obj s0 schedule s :
  find_product_urls_start obj site_name = inr s0 →
  run site_name max_urls schedule s0 = Some s →
  finished_result s.
Proof.
  intros Hstart.
  apply (run_invariant site_name max_urls finished_result).
  - intros a s1 s2 Hf Hstep l. unfold finished_result in Hf.
    destruct Hstep as [| u r ? ? ? | | |]; simpl.
    + apply Hf.
    + destruct (merge_pc max_urls u r s1) as [E|[E _]]; congruence.
    + unfold while_step. by case_match.
    + unfold after_for. by case_match.
    + congruence.
  - apply start_inv in Hstart as (info & d & _ & _ & ->). by intros l.
Qed.

Lemma run_products_checked obj s0 schedule s :
  find_product_urls_start obj site_name = inr s0 →
  run site_name max_urls schedule s0 = Some s →
  products_checked site_name s.
Proof.
  intros Hstart.
  apply (run_invariant site_name max_urls (products_checked site_name)).
  - apply step_products_checked.
  - apply start_inv in Hstart as (info & d & _ & _ & ->).
    split; simpl; [set_solver|]. intros u t x Hu. by rewrite lookup_empty in Hu.
Qed.


Lemma run_pool_settled obj s0 schedule s :
  find_product_urls_start obj site_name = inr s0 →
  run site_name max_urls schedule s0 = Some s →
  pool_settled s.
Proof.
  intros Hstart. apply (run_invariant site_name max_urls pool_settled).
  - apply step_pool_settled.
  - by eapply start_pool_settled.
Qed.

End Results.

(** * The claims *)

(** C1. For every site name and every [max_urls >= 0], the list that
    [find_product_urls] returns has at most [max_urls] elements, and the
    accumulated set never holds more than that at any point of any
    execution. When the set holds [max_urls - m] URLs and a page brings
    [k > m] new product links, the merge admits exactly [m] of them, all from
    the page, the set then holds exactly [max_urls] URLs, nothing is
    enqueued and the main thread leaves both loops. *)
Theorem result_within_budget {world : Collaborators} (obj : VapeScraper)
    (site_name : string) (max_urls : Z) :
  0 ≤ max_urls →
  (∀ schedule result,
     find_product_urls obj site_name max_urls schedule = Some (inr result) →
     Z.of_nat (length result) ≤ max_urls) ∧
  (∀ s0 schedule s,
     find_product_urls_start obj site_name = inr s0 →
     run site_name max_urls schedule s0 = Some s →
     len (product_urls s) ≤ max_urls) ∧
  (∀ s url p c (m k : nat),
     len (product_urls s) = max_urls - Z.of_nat m →
     len (p ∖ product_urls s) = Z.of_nat k →
     (m < k)%nat →
     let s' := merge max_urls url (Returned p c) s in
     len (product_urls s') = max_urls ∧
     product_urls s ⊆ product_urls s' ∧
     product_urls s' ∖ product_urls s ⊆ p ∖ product_urls s ∧
     len (product_urls s' ∖ product_urls s) = Z.of_nat m ∧
     urls_to_visit s' = urls_to_visit s ∧
     pc s' = AtExit).
Proof.
  intros H0. split_and!.
  - intros schedule result Hr.
    apply find_product_urls_returns in Hr as (s0 & s & Hstart & Hrun & Hpc).
    destruct (run_within_budget _ _ _ _ _ _ H0 Hstart Hrun) as [Hle Hfin].
    rewrite (Hfin _ Hpc), len_elements. exact Hle.
  - intros s0 schedule s Hstart Hrun.
    by destruct (run_within_budget _ _ _ _ _ _ H0 Hstart Hrun).
  - intros s url p c m k. apply merge_overflow.
Qed.

Lemma result_within_budget_witness :
  find_product_urls (world:=Web.world) VapeScraper_init "vaperanger" 2 Web.seed_only =
    Some (inr [Web.product "p1"; Web.product "p2"]) ∧
  Z.of_nat (length [Web.product "p1"; Web.product "p2"]) ≤ 2 ∧
  len (product_urls
         (merge 3 Web.listing_a
            (Returned {[Web.product "p2"; Web.product "p3"; Web.product "p4"]}
                      {[Web.listing_b]}) Web.two_found)) = 3.
Proof.
  destruct (result_within_budget (world:=Web.world) VapeScraper_init
              "vaperanger" 2 ltac:(lia)) as (Hlist & _ & _).
  destruct (result_within_budget (world:=Web.world) VapeScraper_init
              "vaperanger" 3 ltac:(lia)) as (_ & _ & Hmerge).
  assert (find_product_urls (world:=Web.world) VapeScraper_init "vaperanger" 2
            Web.seed_only = Some (inr [Web.product "p1"; Web.product "p2"])) as Hrun
    by (vm_compute; reflexivity).
  split; [exact Hrun|]. split; [exact (Hlist _ _ Hrun)|].
  assert (len (product_urls Web.two_found) = 3 - Z.of_nat 1) as Hfound
    by (vm_compute; reflexivity).
  assert (len ({[Web.product "p2"; Web.product "p3"; Web.product "p4"]}
                 ∖ product_urls Web.two_found) = Z.of_nat 2) as Hnew
    by (vm_compute; reflexivity).
  exact (proj1 (Hmerge Web.two_found Web.listing_a _ {[Web.listing_b]}
                  1%nat 2%nat Hfound Hnew ltac:(lia))).
Defined.

(** C2. Every URL of the list that [find_product_urls] returns contains the
    site's product pattern as a substring, has the network location of the
    site's base URL, and occurs in the list once. *)
Theorem returned_urls_are_products {world : Collaborators} (obj : VapeScraper)
    (site_name : string) (max_urls : Z) (info : site_info)
    (schedule : list action) (result : list string) :
  target_sites obj !! site_name = Some info →
  find_product_urls obj site_name max_urls schedule = Some (inr result) →
  NoDup result ∧
  ∀ x, x ∈ result →
    (∃ before after, x = before +:+ site_product_pattern info +:+ after) ∧
    (∃ domain, urlparse_netloc (site_base_url info) = Some domain ∧
               urlparse_netloc x = Some domain).
Proof.
  intros Hsite Hr.
  apply find_product_urls_returns in Hr as (s0 & s & Hstart & Hrun & Hpc).
  pose proof (run_finished_result _ _ _ _ _ _ Hstart Hrun _ Hpc) as ->.
  split; [apply NoDup_elements|].
  intros x Hx. apply elem_of_elements in Hx.
  destruct (run_products_checked _ _ _ _ _ _ Hstart Hrun) as [Hacc _].
  destruct (Hacc x Hx) as [Hvalid Hprod].
  destruct (run_self _ _ _ _ _ Hrun) as (Hd & _ & Hts).
  apply start_inv in Hstart as (info' & d & Hsite' & Hbase & ->).
  simpl in Hd, Hts. rewrite Hsite in Hsite'. injection Hsite' as <-.
  split.
  - apply str_in_spec. unfold is_product_url in Hprod.
    rewrite Hts, Hsite in Hprod. by injection Hprod.
  - exists d. split; [done|].
    apply is_valid_url_spec in Hvalid as (d' & Hn & _ & Hbd). congruence.
Qed.

Lemma returned_urls_are_products_witness :
  NoDup [Web.product "p1"; Web.product "p2"] ∧
  ∀ x, x ∈ [Web.product "p1"; Web.product "p2"] →
    (∃ before after, x = before +:+ "/products/" +:+ after) ∧
    (∃ domain, Web.netloc "https://vaperanger.com" = Some domain ∧
               Web.netloc x = Some domain).
Proof.
  apply (returned_urls_are_products (world:=Web.world) VapeScraper_init
           "vaperanger" 2
           {| site_base_url := "https://vaperanger.com";
              site_product_pattern := "/products/" |}
           Web.seed_only).
  - vm_compute. reflexivity.
  - vm_compute. reflexivity.
Defined.

(** C10. For a site name that is not a key of the registry,
    [find_product_urls] raises [KeyError]: it does so under every schedule,
    before the crawl has a state in which anything could be fetched. For a
    name that is a key, [KeyError] is never its outcome. *)
Theorem unknown_site_raises {world : Collaborators} (obj : VapeScraper)
    (site_name : string) (max_urls : Z) :
  (target_sites obj !! site_name = None →
     find_product_urls_start obj site_name = inl KeyError ∧
     ∀ schedule,
       find_product_urls obj site_name max_urls schedule = Some (inl KeyError)) ∧
  (is_Some (target_sites obj !! site_name) →
     ∀ schedule,
       find_product_urls obj site_name max_urls schedule ≠ Some (inl KeyError)).
Proof.
  split.
  - intros Hnone.
    assert (find_product_urls_start obj site_name = inl KeyError) as Hstart
      by (unfold find_product_urls_start; by rewrite Hnone).
    split; [done|]. intros schedule. unfold find_product_urls. by rewrite Hstart.
  - intros [info Hsite] schedule. unfold find_product_urls, find_product_urls_start.
    rewrite Hsite.
    destruct (urlparse_netloc (site_base_url info)) as [d|]; [|by intros [=]].
    destruct (run _ _ _ _) as [s1|]; [|done]. by destruct (pc s1).
Qed.

Lemma unknown_site_raises_witness :
  (find_product_urls_start (world:=Web.world) VapeScraper_init "vapeworld" =
     inl KeyError ∧
   ∀ schedule,
     find_product_urls (world:=Web.world) VapeScraper_init "vapeworld" 10 schedule =
     Some (inl KeyError)) ∧
  (∀ schedule,
     find_product_urls (world:=Web.world) VapeScraper_init "vaperanger" 10 schedule ≠
     Some (inl KeyError)).
Proof.
  split.
  - apply (unknown_site_raises (world:=Web.world) VapeScraper_init "vapeworld" 10).
    vm_compute. reflexivity.
  - apply (unknown_site_raises (world:=Web.world) VapeScraper_init "vaperanger" 10).
    vm_compute. eexists. reflexivity.
Defined.

(** ** Once the budget is reached *)

Section BudgetReached.
Context {world : Collaborators}.
Variables (site_name : string) (max_urls : Z).
Implicit Types (s : crawl) (a : action).

(** With the budget reached, a step neither touches the frontier nor
    replaces the batch, and the main thread does not enter the [for] loop. *)
Lemma step_budget_reached a s s' :
  max_urls ≤ len (product_urls s) →
  steps_to site_name max_urls s a s' →
  urls_to_visit s' = urls_to_visit s ∧
  dom (future_to_url s') = dom (future_to_url s) ∧
  max_urls ≤ len (product_urls s') ∧
  (pc s' = InFor → pc s = InFor) ∧
  (pc s = AtWhile → a = Main → pc s' = AtExit).
Proof.
  intros Hfull Hstep.
  destruct Hstep as [url t self' t' tr Ht Hb Hp|url r Hpc Ht Hny|Hpc|Hpc Hall|Hpc Hall];
    simpl.
  - split_and!; try done.
    rewrite dom_insert_L. apply elem_of_dom_2 in Ht. set_solver.
  - pose proof (merge_product_urls_lower max_urls url r s) as Hlow.
    apply len_mono in Hlow.
    rewrite merge_future_to_url. split_and!; try done; [|lia].
    destruct r as [p c|e]; [|done]. unfold merge in *. cbv zeta in *.
    destruct (_ && _); [done|]. simpl in *.
    destruct (_ <? max_urls) eqn:E; [|done]. apply Z.ltb_lt in E. lia.
  - unfold while_step.
    assert ((len (product_urls s) <? max_urls) = false) as -> by (apply Z.ltb_ge; lia).
    rewrite andb_false_r. simpl. split_and!; done.
  - unfold after_for.
    assert ((max_urls <=? len (product_urls s)) = true) as -> by (apply Z.leb_le; lia).
    split_and!; first [done | congruence].
  - split_and!; first [done | congruence].
Qed.

Lemma run_budget_reached schedule s s' :
  max_urls ≤ len (product_urls s) →
  run site_name max_urls schedule s = Some s' →
  urls_to_visit s' = urls_to_visit s ∧
  dom (future_to_url s') = dom (future_to_url s) ∧
  max_urls ≤ len (product_urls s') ∧
  (pc s' = InFor → pc s = InFor).
Proof.
  intros Hfull.
  apply (run_invariant site_name max_urls (λ s',
    urls_to_visit s' = urls_to_visit s ∧
    dom (future_to_url s') = dom (future_to_url s) ∧
    max_urls ≤ len (product_urls s') ∧
    (pc s' = InFor → pc s = InFor))); [|done].
  intros a s1 s2 (Hf & Hd & Hb & Hpc) Hstep.
  destruct (step_budget_reached _ _ _ Hb Hstep) as (Hf' & Hd' & Hb' & Hpc' & _).
  split_and!; [congruence | congruence | done | auto].
Qed.

End BudgetReached.

(** C8. Once the accumulated set holds [max_urls] URLs or more, no step of
    any thread changes the frontier or replaces the batch in flight: a merge
    of a page that completes afterwards enqueues none of its listing links,
    the main thread at the [while] test leaves the loop, and the [for] loop
    is never entered again. This holds step by step and along every
    schedule. *)
Theorem no_enqueue_after_budget {world : Collaborators} (site_name : string)
    (max_urls : Z) (s : crawl) :
  max_urls ≤ len (product_urls s) →
  (∀ a s',
     step site_name max_urls a s = Some s' →
     urls_to_visit s' = urls_to_visit s ∧
     dom (future_to_url s') = dom (future_to_url s) ∧
     max_urls ≤ len (product_urls s') ∧
     (pc s' = InFor → pc s = InFor) ∧
     (pc s = AtWhile → a = Main → pc s' = AtExit)) ∧
  (∀ schedule s',
     run site_name max_urls schedule s = Some s' →
     urls_to_visit s' = urls_to_visit s ∧
     dom (future_to_url s') = dom (future_to_url s) ∧
     max_urls ≤ len (product_urls s') ∧
     (pc s' = InFor → pc s = InFor)).
Proof.
  intros Hfull. split.
  - intros a s' Hstep. apply step_steps_to in Hstep.
    by eapply step_budget_reached.
  - intros schedule s'. by apply run_budget_reached.
Qed.

Lemma no_enqueue_after_budget_witness :
  2 ≤ len (product_urls Web.two_found) ∧
  ∃ s',
    step (world:=Web.world) "vaperanger" 2 (Yield Web.listing_a) Web.two_found = Some s' ∧
    urls_to_visit s' = urls_to_visit Web.two_found.
Proof.
  assert (2 ≤ len (product_urls Web.two_found)) as Hfull
    by (vm_compute; discriminate).
  split; [exact Hfull|].
  destruct (step (world:=Web.world) "vaperanger" 2 (Yield Web.listing_a) Web.two_found)
    as [s'|] eqn:Hstep; [|vm_compute in Hstep; discriminate Hstep].
  exists s'. split; [reflexivity|].
  exact (proj1 (proj1 (no_enqueue_after_budget (world:=Web.world) "vaperanger" 2
                         Web.two_found Hfull) (Yield Web.listing_a) s' Hstep)).
Defined.

(** ** What an earlier crawl leaves behind *)

Section Leftovers.
Context {world : Collaborators}.
Variables (site_name : string) (max_urls : Z).
Implicit Types (s : crawl) (a : action) (obj : VapeScraper).

(** The object without the attributes that a crawl never reads. *)
Definition clear_unused (obj : VapeScraper) : VapeScraper :=
  {| products := [];
     visited_urls := visited_urls obj;
     base_domain := base_domain obj;
     base_url := base_url obj;
     obj_product_urls := ∅;
     target_sites := target_sites obj |}.

Definition clear_unused_in (s : crawl) : crawl :=
  {| self := clear_unused (self s);
     product_urls := product_urls s;
     urls_to_visit := urls_to_visit s;
     future_to_url := future_to_url s;
     yielded := yielded s;
     pc := pc s;
     trace := trace s |}.

Lemma process_page_step_clear_unused obj url t :
  process_page_step (clear_unused obj) url site_name t =
  match process_page_step obj url site_name t with
  | Some (obj', t', tr) => Some (clear_unused obj', t', tr)
  | None => None
  end.
Proof.
  destruct t as [| | |hrefs p c|r]; simpl; try done.
  - by case_bool_decide.
  - destruct (get_page url) as [[text|] tr]; [|done].
    destruct (truthy text); [|done]. by destruct (soup_hrefs text).
  - destruct hrefs as [|href hrefs]; [done|].
    change (link_step (clear_unused obj) site_name href p c)
      with (link_step obj site_name href p c).
    by destruct (link_step obj site_name href p c) as [e|[p' c']].
Qed.

Lemma merge_clear_unused url r s :
  merge max_urls url r (clear_unused_in s) =
  clear_unused_in (merge max_urls url r s).
Proof.
  unfold merge. destruct r as [p c|e]; [|done].
  cbv zeta. simpl. by destruct (_ && _).
Qed.

Lemma step_clear_unused a s :
  step site_name max_urls a (clear_unused_in s) =
  clear_unused_in <$> step site_name max_urls a s.
Proof.
  destruct a as [url|url|]; simpl.
  - destruct (future_to_url s !! url) as [t|]; [|done]. simpl.
    destruct (_ && _); [done|].
    rewrite process_page_step_clear_unused.
    by destruct (process_page_step (self s) url site_name t) as [[[obj' t'] tr]|].
  - destruct (pc s); try done.
    destruct (future_to_url s !! url) as [[| | | |r]|]; try done.
    case_bool_decide; [done|]. simpl. by rewrite merge_clear_unused.
  - destruct (pc s); simpl; try done.
    + unfold while_step. simpl. by destruct (_ && _).
    + by case_bool_decide.
    + by case_bool_decide.
Qed.

Lemma run_clear_unused schedule s :
  run site_name max_urls schedule (clear_unused_in s) =
  clear_unused_in <$> run site_name max_urls schedule s.
Proof.
  revert s. induction schedule as [|a rest IH]; intros s; simpl; [done|].
  rewrite step_clear_unused.
  destruct (step site_name max_urls a s) as [s1|]; simpl; [apply IH | done].
Qed.

(** The start of a crawl depends on the registry alone. *)
Lemma start_clear_unused obj1 obj2 :
  target_sites obj1 = target_sites obj2 →
  match find_product_urls_start obj1 site_name,
        find_product_urls_start obj2 site_name with
  | inl e1, inl e2 => e1 = e2
  | inr s1, inr s2 => clear_unused_in s1 = clear_unused_in s2
  | _, _ => False
  end.
Proof.
  intros Hts. unfold find_product_urls_start. rewrite Hts.
  destruct (target_sites obj2 !! site_name) as [info|]; [|done].
  destruct (urlparse_netloc (site_base_url info)) as [d|]; [|done].
  unfold clear_unused_in, clear_unused. simpl. by rewrite ?Hts.
Qed.

Lemma find_product_urls_clear_unused obj1 obj2 schedule :
  target_sites obj1 = target_sites obj2 →
  find_product_urls obj1 site_name max_urls schedule =
  find_product_urls obj2 site_name max_urls schedule.
Proof.
  intros Hts. pose proof (start_clear_unused obj1 obj2 Hts) as Hstart.
  unfold find_product_urls.
  destruct (find_product_urls_start obj1 site_name) as [e1|s1],
           (find_product_urls_start obj2 site_name) as [e2|s2]; try done.
  - by rewrite Hstart.
  - pose proof (run_clear_unused schedule s1) as H1.
    pose proof (run_clear_unused schedule s2) as H2.
    rewrite Hstart, H2 in H1.
    destruct (run site_name max_urls schedule s1) as [t1|],
             (run site_name max_urls schedule s2) as [t2|]; simpl in H1; try done.
    assert (pc t1 = pc t2) as ->; [|done].
    apply (f_equal (fmap pc)) in H1. simpl in H1. congruence.
Qed.

End Leftovers.

(** C9. Every invocation starts with an empty visited set and a frontier
    that holds the base URL of the site and nothing else, whatever the
    object held before; two objects with the same registry give the same
    outcome under the same schedule, whatever [visited_urls], [base_url],
    [base_domain] and the other attributes hold when the call is made. *)
Theorem crawl_starts_afresh {world : Collaborators} (obj1 obj2 : VapeScraper)
    (site_name : string) (max_urls : Z) :
  target_sites obj1 = target_sites obj2 →
  (∀ s0,
     find_product_urls_start obj1 site_name = inr s0 →
     visited_urls (self s0) = ∅ ∧
     product_urls s0 = ∅ ∧
     ∃ info, target_sites obj1 !! site_name = Some info ∧
             urls_to_visit s0 = {[site_base_url info]}) ∧
  (∀ schedule,
     find_product_urls obj1 site_name max_urls schedule =
     find_product_urls obj2 site_name max_urls schedule).
Proof.
  intros Hts. split.
  - intros s0 Hstart.
    apply start_inv in Hstart as (info & d & Hsite & _ & ->). simpl.
    split; [done|]. split; [done|]. by exists info.
  - intros schedule. by apply find_product_urls_clear_unused.
Qed.

Lemma crawl_starts_afresh_witness :
  find_product_urls (world:=Web.world) Web.used "vaperanger" 2 Web.seed_only =
  find_product_urls (world:=Web.world) VapeScraper_init "vaperanger" 2 Web.seed_only.
Proof.
  exact (proj2 (crawl_starts_afresh (world:=Web.world) Web.used VapeScraper_init
                  "vaperanger" 2 eq_refl) Web.seed_only).
Defined.

(** ** The classifier, link by link *)

Lemma listing_terms_lower term :
  term ∈ listing_terms → str_lower term = term.
Proof.
  unfold listing_terms. rewrite !elem_of_cons, elem_of_nil.
  intros [->|[->|[->|[->|[]]]]]; reflexivity.
Qed.

Lemma elem_of_if_singleton (b : bool) (x : string) :
  x ∈ (if b then {[x]} else ∅ : gset string) ↔ b = true.
Proof. destruct b; set_solver. Qed.

Lemma if_singleton_subseteq (b : bool) (x : string) :
  (if b then {[x]} else ∅ : gset string) ⊆ {[x]}.
Proof. destruct b; set_solver. Qed.

(** C5. For an anchor that resolves to [full] on an object whose base
    domain is a non-empty host, one iteration of the loop of [process_page]
    adds nothing but [full], and to one set at most. [full] is kept only if
    its network location is the base domain. If it is, [full] is a product
    link exactly when the product pattern occurs in it; if it is and the
    pattern does not occur, [full] is a listing link exactly when it is not
    in [visited_urls] and one of ["product"], ["collection"], ["category"],
    ["shop"] occurs in it up to the case of letters. In every other case it
    is dropped. *)
Theorem classifier_partition {world : Collaborators} (obj : VapeScraper)
    (site_name : string) (info : site_info) (base domain href full : string) :
  target_sites obj !! site_name = Some info →
  base_url obj = Some base →
  base_domain obj = Some domain →
  domain ≠ "" →
  urljoin base href = Some full →
  ∃ P C : gset string,
    link_step obj site_name href ∅ ∅ = inr (P, C) ∧
    (∀ p c, link_step obj site_name href p c = inr (P ∪ p, C ∪ c)) ∧
    P ⊆ {[full]} ∧ C ⊆ {[full]} ∧ P ## C ∧
    (full ∈ P ∪ C → urlparse_netloc full = Some domain) ∧
    (urlparse_netloc full = Some domain →
       (full ∈ P ↔
        ∃ before after, full = before +:+ site_product_pattern info +:+ after)) ∧
    (urlparse_netloc full = Some domain → full ∉ P →
       (full ∈ C ↔
        (full ∉ visited_urls obj) ∧
        ∃ term, term ∈ listing_terms ∧
          ∃ before found after,
            full = before +:+ found +:+ after ∧ str_lower found = str_lower term)).
Proof.
  intros Hsite Hbase Hdom Hne Hjoin.
  pose proof (link_step_resolved obj site_name href base full info Hbase Hjoin Hsite)
    as Hstep.
  assert (is_valid_url obj full = true ↔ urlparse_netloc full = Some domain) as Hvalid.
  { rewrite is_valid_url_spec. split.
    - intros (d & Hn & _ & Hd). congruence.
    - intros Hn. by exists domain. }
  assert (existsb (λ term, str_in term (str_lower full)) listing_terms = true ↔
          ∃ term, term ∈ listing_terms ∧
            ∃ before found after,
              full = before +:+ found +:+ after ∧ str_lower found = str_lower term)
    as Hterms.
  { rewrite existsb_listing_terms. split.
    - intros (term & Hin & Hocc). exists term. split; [done|].
      apply str_in_lower_spec in Hocc as (a & m & b & -> & Hm).
      exists a, m, b. by rewrite (listing_terms_lower _ Hin).
    - intros (term & Hin & a & m & b & -> & Hm). exists term. split; [done|].
      apply str_in_lower_spec. exists a, m, b.
      by rewrite Hm, (listing_terms_lower _ Hin). }
  pose proof (str_in_spec (site_product_pattern info) full) as Hpat.
  pose proof (bool_decide_eq_true (full ∉ visited_urls obj)) as Hvis.
  eexists _, _. split; [exact Hstep|]. split.
  { intros p c. by rewrite link_step_accumulates, Hstep. }
  clear Hstep.
  split; [apply if_singleton_subseteq|].
  split; [apply if_singleton_subseteq|].
  split.
  { intros y Hy1 Hy2.
    pose proof (if_singleton_subseteq _ _ _ Hy1) as Hy%elem_of_singleton.
    subst y. apply elem_of_if_singleton in Hy1. apply elem_of_if_singleton in Hy2.
    clear Hvalid Hterms Hpat Hvis.
    destruct (is_valid_url obj full), (str_in (site_product_pattern info) full);
      first [discriminate Hy1 | discriminate Hy2]. }
  rewrite elem_of_union, !elem_of_if_singleton.
  destruct (is_valid_url obj full),
           (str_in (site_product_pattern info) full),
           (bool_decide (full ∉ visited_urls obj)),
           (existsb (λ term, str_in term (str_lower full)) listing_terms);
    simpl; split_and!; intuition congruence.
Qed.

Lemma classifier_partition_witness :
  ∃ P C : gset string,
    link_step (world:=Web.world) Web.crawling "vaperanger" "/collections/a" ∅ ∅ =
      inr (P, C) ∧
    P ⊆ {[Web.listing_a]} ∧ C ⊆ {[Web.listing_a]} ∧ P ## C.
Proof.
  destruct (classifier_partition (world:=Web.world) Web.crawling "vaperanger"
              {| site_base_url := "https://vaperanger.com";
                 site_product_pattern := "/products/" |}
              Web.seed "vaperanger.com" "/collections/a" Web.listing_a
              ltac:(vm_compute; reflexivity) eq_refl eq_refl ltac:(discriminate)
              ltac:(vm_compute; reflexivity))
    as (P & C & Hstep & _ & HP & HC & Hdisj & _).
  exists P, C. split; [exact Hstep|]. split; [exact HP|]. split; [exact HC|].
  exact Hdisj.
Defined.

(** ** Retries and failures *)






(** ** Fetching a URL once *)

(** A task whose URL is in [visited_urls] returns the pair of empty sets
    at once. *)
Lemma visited_is_skipped {world : Collaborators} (obj : VapeScraper)
    (url site_name : string) :
  url ∈ visited_urls obj →
  process_page_step obj url site_name Queued = Some (obj, Done (Returned ∅ ∅), []).
Proof. intros Hin. simpl. by rewrite bool_decide_eq_true_2. Qed.




(** ** The frontier and the visited set *)

(** The URLs that are both pending and visited after a schedule. *)
Definition overlap_after {world : Collaborators} (obj : VapeScraper)
    (site_name : string) (max_urls : Z) (schedule : list action)
  : option (list string) :=
  match find_product_urls_start obj site_name with
  | inl _ => None
  | inr s0 =>
      match run site_name max_urls schedule s0 with
      | Some s => Some (elements (urls_to_visit s ∩ visited_urls (self s)))
      | None => None
      end
  end.

(** C4 as stated fails. On the example web the second batch is [{a, b}],
    two tasks for a pool of twenty threads. The page of [a] links
    to [b]; it is merged while the task of [b] is still queued, so [b] is
    not yet visited and enters the frontier again. Then the thread of [b]
    adds [b] to [visited_urls]: [b] is pending and visited. *)
Lemma frontier_meets_visited :
  overlap_after (world:=Web.world) VapeScraper_init "vaperanger" 6 Web.a_before_b =
  Some [Web.listing_b].
Proof. vm_compute. reflexivity. Qed.

Section Frontier.
Context {world : Collaborators}.
Variables (site_name : string) (max_urls : Z).
Implicit Types (s : crawl) (a : action).

Lemma main_step_keeps_disjoint a s s' :
  (∀ url, a ≠ Work url) →
  steps_to site_name max_urls s a s' →
  urls_to_visit s ## visited_urls (self s) →
  urls_to_visit s' ## visited_urls (self s').
Proof.
  intros Hmain Hstep Hdisj.
  destruct Hstep as [url t self' t' tr Ht Hb Hp|url r Hpc Ht Hny|Hpc|Hpc Hall|Hpc Hall];
    simpl.
  - by destruct (Hmain url).
  - rewrite merge_self. destruct r as [p c|e]; [|done].
    intros x Hx Hv. destruct (decide (x ∈ urls_to_visit s)) as [Hin|Hout].
    + by apply (Hdisj x).
    + by destruct (merge_urls_to_visit_new _ _ _ _ _ _ Hx Hout) as (_ & Hnv & _).
  - unfold while_step. case_match; simpl; [set_solver | done].
  - done.
  - done.
Qed.

Lemma enqueued_is_unvisited a s s' x :
  steps_to site_name max_urls s a s' →
  x ∈ urls_to_visit s' → x ∉ urls_to_visit s →
  (x ∉ visited_urls (self s)) ∧ (∃ url, a = Yield url) ∧
  (len (product_urls s') < max_urls).
Proof.
  intros Hstep Hx Hout.
  destruct Hstep as [url t self' t' tr Ht Hb Hp|url r Hpc Ht Hny|Hpc|Hpc Hall|Hpc Hall];
    simpl in *; try done.
  - destruct r as [p c|e]; [|done].
    destruct (merge_urls_to_visit_new _ _ _ _ _ _ Hx Hout) as (_ & Hnv & Hlt).
    split_and!; [done | by exists url | done].
  - unfold while_step in Hx. case_match; simpl in Hx; [set_solver | done].
Qed.

Lemma work_step_visits_own a s s' url :
  a = Work url →
  steps_to site_name max_urls s a s' →
  urls_to_visit s' = urls_to_visit s ∧
  visited_urls (self s) ⊆ visited_urls (self s') ∧
  visited_urls (self s') ⊆ {[url]} ∪ visited_urls (self s).
Proof.
  intros -> Hstep. inversion Hstep as [u t self' t' tr Ht Hb Hp| | | |]; subst; simpl.
  apply process_page_step_steps, page_steps_to_self in Hp.
  split; [done|]. naive_solver.
Qed.

End Frontier.

(** C4 (as the code has it). The frontier and the visited set are disjoint
    when the crawl starts, and every step of the main thread keeps them
    disjoint: the only step that adds to the frontier is a merge below the
    budget, and what it adds is not in [visited_urls] at that moment. A step
    of a pool thread leaves the frontier alone and adds at most its own URL
    to [visited_urls]. A URL that is in [visited_urls] when its task starts
    is skipped. *)
Theorem frontier_unvisited_when_enqueued {world : Collaborators}
    (obj : VapeScraper) (site_name : string) (max_urls : Z) :
  (∀ s0, find_product_urls_start obj site_name = inr s0 →
         urls_to_visit s0 ## visited_urls (self s0)) ∧
  (∀ a s s',
     step site_name max_urls a s = Some s' →
     (∀ url, a ≠ Work url) →
     urls_to_visit s ## visited_urls (self s) →
     urls_to_visit s' ## visited_urls (self s')) ∧
  (∀ a s s' x,
     step site_name max_urls a s = Some s' →
     x ∈ urls_to_visit s' → x ∉ urls_to_visit s →
     (x ∉ visited_urls (self s)) ∧ (∃ url, a = Yield url) ∧
     (len (product_urls s') < max_urls)) ∧
  (∀ url s s',
     step site_name max_urls (Work url) s = Some s' →
     urls_to_visit s' = urls_to_visit s ∧
     visited_urls (self s) ⊆ visited_urls (self s') ∧
     visited_urls (self s') ⊆ {[url]} ∪ visited_urls (self s)) ∧
  (∀ o url,
     url ∈ visited_urls o →
     process_page_step o url site_name Queued = Some (o, Done (Returned ∅ ∅), [])).
Proof.
  split_and!.
  - intros s0 Hstart. apply start_inv in Hstart as (info & d & _ & _ & ->).
    simpl. set_solver.
  - intros a s s' Hstep Hmain. apply step_steps_to in Hstep.
    by eapply main_step_keeps_disjoint.
  - intros a s s' x Hstep. apply step_steps_to in Hstep.
    by eapply enqueued_is_unvisited.
  - intros url s s' Hstep. apply step_steps_to in Hstep.
    by eapply work_step_visits_own.
  - intros o url. apply visited_is_skipped.
Qed.

Lemma frontier_unvisited_when_enqueued_witness :
  ∃ s',
    step (world:=Web.world) "vaperanger" 6 (Yield Web.listing_a) Web.two_found = Some s' ∧
    urls_to_visit s' ## visited_urls (self s').
Proof.
  destruct (frontier_unvisited_when_enqueued (world:=Web.world) VapeScraper_init
              "vaperanger" 6) as (_ & Hmain & _).
  destruct (step (world:=Web.world) "vaperanger" 6 (Yield Web.listing_a) Web.two_found)
    as [s'|] eqn:Hstep; [|vm_compute in Hstep; discriminate Hstep].
  exists s'. split; [reflexivity|].
  apply (Hmain (Yield Web.listing_a) Web.two_found s' Hstep).
  - intros url. discriminate.
  - simpl. apply disjoint_empty_l.
Defined.

(** ** A seed page without links into the site *)

(** The anchors [process_page] finds on the page of [url]. *)
Definition page_hrefs {world : Collaborators} (url : string) : list string :=
  match (get_page url).1 with
  | Some text =>
      if truthy text then
        match soup_hrefs text with
        | Some hrefs => hrefs
        | None => []
        end
      else []
  | None => []
  end.

Definition pc_rank (p : main_pc) : nat :=
  match p with
  | InFor => 3
  | AtWhile => 2
  | AtExit => 1
  | Finished _ => 0
  end.

(** Steps a task can still take, for a page with [m] anchors. *)
Definition task_rank (m : nat) (t : option task) : nat :=
  match t with
  | None => 0
  | Some Queued => m + 4
  | Some Tested => m + 3
  | Some Fetching => m + 2
  | Some (Linking hrefs _ _) => length hrefs + 1
  | Some (Done _) => 0
  end.

(** Steps a crawl whose only page is that of [b] can still take. *)
Definition steps_left {world : Collaborators} (b : string) (s : crawl) : nat :=
  (if decide (urls_to_visit s = ∅) then 0 else length (page_hrefs b) + 9) +
  pc_rank (pc s) +
  task_rank (length (page_hrefs b)) (future_to_url s !! b) +
  (if decide (b ∈ yielded s) then 0 else 1).

Section SeedOnly.
Context {world : Collaborators}.
Variables (site_name : string) (max_urls : Z) (b d : string).
Implicit Types (s : crawl) (a : action) (t : task).

(** No anchor of the seed page resolves to a URL of the site. *)
Hypothesis no_link_into_site :
  ∀ href full,
    href ∈ page_hrefs b → urljoin b href = Some full →
    urlparse_netloc full ≠ Some d.

Definition task_empty (t : task) : Prop :=
  match t with
  | Linking hrefs p c => p = ∅ ∧ c = ∅ ∧ hrefs `suffix_of` page_hrefs b
  | Done (Returned p c) => p = ∅ ∧ c = ∅
  | _ => True
  end.

Definition seed_only (s : crawl) : Prop :=
  product_urls s = ∅ ∧
  base_url (self s) = Some b ∧
  base_domain (self s) = Some d ∧
  ((urls_to_visit s = {[b]} ∧ future_to_url s = ∅ ∧ yielded s = ∅ ∧ pc s ≠ InFor) ∨
   (urls_to_visit s = ∅ ∧
    (future_to_url s = ∅ ∨ ∃ t, future_to_url s = {[b := t]} ∧ task_empty t))).

Lemma link_step_no_link obj href p c :
  base_url obj = Some b → base_domain obj = Some d →
  href ∈ page_hrefs b →
  (∃ e, link_step obj site_name href p c = inl e) ∨
  link_step obj site_name href p c = inr (p, c).
Proof.
  intros Hb Hd Hin. unfold link_step. rewrite Hb.
  destruct (urljoin b href) as [full|] eqn:Hj; [|left; eauto].
  assert (is_valid_url obj full = false) as ->; [|by right].
  apply not_true_is_false. intros (d' & Hn & _ & Hbd)%is_valid_url_spec.
  apply (no_link_into_site href full Hin Hj). congruence.
Qed.

Lemma page_step_task_empty obj url t obj' t' tr :
  url = b → base_url obj = Some b → base_domain obj = Some d →
  task_empty t →
  page_steps_to obj url site_name t obj' t' tr →
  task_empty t' ∧
  (task_rank (length (page_hrefs b)) (Some t') <
   task_rank (length (page_hrefs b)) (Some t))%nat.
Proof.
  intros -> Hb Hd Ht Hstep.
  destruct Hstep; simpl in *; try (split; [done | lia]).
  - split; [|unfold page_hrefs; rewrite H; simpl; rewrite H0, H1; lia].
    split_and!; try done. unfold page_hrefs. rewrite H. simpl. by rewrite H0, H1.
  - destruct Ht as (-> & -> & Hsuf). split; [done | lia].
  - destruct Ht as (-> & -> & Hsuf).
    assert (href ∈ page_hrefs b) as Hin.
    { destruct Hsuf as [k ->]. set_solver. }
    split; [|lia].
    destruct (link_step_no_link obj href ∅ ∅ Hb Hd Hin) as [[e' He]|He];
      rewrite He in H; [done|]. injection H as <- <-.
    split_and!; try done. by eapply suffix_cons_l.
Qed.

Lemma elements_singleton_batch (x : string) :
  list_to_set (C:=gset string)
    (slice_to (elements ({[x]} : gset string)) (Z.min batch (len {[x]}))) = {[x]}.
Proof.
  unfold len. rewrite size_singleton, elements_singleton.
  unfold batch, slice_to. simpl. set_solver.
Qed.

Lemma merge_empty_page url r s :
  product_urls s = ∅ →
  (r = Returned ∅ ∅ ∨ ∃ e, r = Raised e) →
  product_urls (merge max_urls url r s) = ∅ ∧
  urls_to_visit (merge max_urls url r s) = urls_to_visit s.
Proof.
  intros Hp [->|[e ->]]; [|done].
  unfold merge. cbv zeta. rewrite Hp.
  replace ((∅ : gset string) ∖ ∅) with (∅ : gset string) by set_solver.
  rewrite elements_empty.
  assert (∀ n, slice_to (@nil string) n = []) as Hnil
    by (intros n; unfold slice_to; case_match; by rewrite take_nil).
  rewrite Hnil. simpl.
  repeat case_match; simpl; split; set_solver.
Qed.

Lemma step_seed_only a s s' :
  seed_only s → steps_to site_name max_urls s a s' →
  seed_only s' ∧ (steps_left b s' < steps_left b s)%nat.
Proof.
  intros (Hp & Hb & Hd & Hcases) Hstep. unfold seed_only, steps_left.
  destruct Hstep as [url t self' t' tr Ht Hbusy Hstep|url r Hpc Ht Hny|Hpc|Hpc Hall|Hpc Hall];
    simpl.
  - apply process_page_step_steps in Hstep.
    pose proof (page_steps_to_self _ _ _ _ _ _ _ Hstep) as (_ & Hd' & Hb' & _).
    rewrite Hd', Hb'.
    destruct Hcases as [(_ & Hpool & _)|(Hf & [Hpool|(t0 & Hpool & Hok)])];
      try (rewrite Hpool in Ht; by rewrite lookup_empty in Ht).
    rewrite Hpool in Ht. apply lookup_singleton_Some in Ht as [<- <-].
    destruct (page_step_task_empty _ _ _ _ _ _ eq_refl Hb Hd Hok Hstep) as [Hok' Hlt].
    split.
    + split_and!; try done. right. split; [done|]. right. exists t'.
      rewrite Hpool, insert_singleton_eq. done.
    + rewrite Hpool, lookup_insert_eq, lookup_singleton_eq. lia.
  - rewrite merge_self, merge_future_to_url, merge_yielded.
    destruct Hcases as [(_ & _ & _ & Hnf)|(Hf & [Hpool|(t0 & Hpool & Hok)])];
      [done | rewrite Hpool in Ht; by rewrite lookup_empty in Ht |].
    rewrite Hpool in Ht. apply lookup_singleton_Some in Ht as [<- ->].
    assert (r = Returned ∅ ∅ ∨ ∃ e, r = Raised e) as Hr.
    { destruct r as [p c|e]; [left|right; eauto]. by destruct Hok as [-> ->]. }
    destruct (merge_empty_page b r s Hp Hr) as [Hp' Hf'].
    rewrite Hp', Hf'. split.
    + split_and!; try done. right. split; [done|]. right. by exists (Done r).
    + rewrite Hf. rewrite decide_True by done.
      rewrite (decide_True (P := b ∈ {[b]} ∪ yielded s)) by set_solver.
      rewrite (decide_False (P := b ∈ yielded s)) by done.
      destruct (merge_pc max_urls b r s) as [->|[-> _]]; rewrite Hpc; simpl; lia.
  - unfold while_step.
    destruct Hcases as [(Hf & Hpool & Hy & Hnf)|(Hf & Hpool)].
    + rewrite Hf, Hpool, Hy, Hpc, Hp.
      rewrite bool_decide_eq_false_2 by set_solver. simpl.
      destruct (len ∅ <? max_urls) eqn:E; simpl.
      * rewrite elements_singleton_batch.
        replace ({[b]} ∖ {[b]} : gset string) with (∅ : gset string) by set_solver.
        rewrite gset_to_gmap_singleton. split.
        -- split_and!; try done. right. split; [done|]. right. by exists Queued.
        -- rewrite decide_True by done.
           rewrite lookup_singleton_eq, lookup_empty. simpl.
           repeat (rewrite decide_False by set_solver). lia.
      * split.
        -- split_and!; try done. by left.
        -- lia.
    + rewrite Hf, Hpc. rewrite bool_decide_eq_true_2 by done. simpl. split.
      * split_and!; try done. by right.
      * lia.
  - split.
    + split_and!; try done.
      destruct Hcases as [(_ & _ & _ & Hnf)|Hc]; [done | by right].
    + rewrite Hpc. unfold after_for.
      destruct (max_urls <=? len (product_urls s)); repeat case_decide; simpl; lia.
  - split.
    + split_and!; try done.
      destruct Hcases as [(Hf & Hpool & Hy & Hnf)|Hc]; [left | by right].
      split_and!; done.
    + rewrite Hpc. repeat case_decide; simpl; lia.
Qed.

(** Every schedule is short, finds nothing and enqueues nothing. *)
Lemma run_seed_only schedule s s' :
  seed_only s →
  run site_name max_urls schedule s = Some s' →
  seed_only s' ∧ (length schedule + steps_left b s' ≤ steps_left b s)%nat.
Proof.
  revert s. induction schedule as [|a rest IH]; intros s Hs; simpl.
  - intros [= <-]. split; [done | lia].
  - destruct (step site_name max_urls a s) as [s1|] eqn:Hstep; [|done].
    apply step_steps_to in Hstep.
    destruct (step_seed_only _ _ _ Hs Hstep) as [Hs1 Hlt].
    intros Hrun. destruct (IH _ Hs1 Hrun) as [Hs' Hle]. split; [done | lia].
Qed.

(** From every state of such a crawl some schedule leads to [return]. *)
Lemma seed_only_returns s :
  seed_only s →
  ∃ schedule s' result,
    run site_name max_urls schedule s = Some s' ∧ pc s' = Finished result.
Proof.
  remember (steps_left b s) as n eqn:Hn. revert s Hn.
  induction (lt_wf n) as [n _ IH]. intros s -> Hs.
  destruct (pc s) as [| | |result] eqn:Hpc.
  4: { exists [], s, result. done. }
  all: destruct (progress site_name max_urls s) as (a & s1 & Hstep);
    [intros result; congruence|].
  all: pose proof Hstep as Hrel; apply step_steps_to in Hrel.
  all: destruct (step_seed_only _ _ _ Hs Hrel) as [Hs1 Hlt].
  all: destruct (IH _ Hlt s1 eq_refl Hs1) as (rest & s' & result & Hrun & Hfin).
  all: exists (a :: rest), s', result; simpl; by rewrite Hstep.
Qed.

End SeedOnly.

(** ** An empty frontier *)

Section EmptyFrontier.
Context {world : Collaborators}.
Variables (site_name : string) (max_urls : Z).
Implicit Types (s : crawl) (a : action).

Lemma settled_pool_is_idle s url :
  all_done (future_to_url s) →
  step site_name max_urls (Work url) s = None.
Proof.
  intros Hdone. simpl.
  destruct (future_to_url s !! url) as [t|] eqn:Ht; [|done].
  specialize (Hdone url t Ht). simpl in Hdone.
  destruct t; try done. simpl. by case_match.
Qed.

Lemma yield_needs_for s url :
  pc s ≠ InFor → step site_name max_urls (Yield url) s = None.
Proof. intros Hpc. simpl. by destruct (pc s). Qed.

(** At the [while] test with nothing pending, the main thread is the only
    one that can move; it leaves the loop and returns the accumulated
    set. *)
Lemma empty_frontier_returns s :
  pool_settled s → pc s = AtWhile → urls_to_visit s = ∅ →
  (∀ url, step site_name max_urls (Work url) s = None ∧
          step site_name max_urls (Yield url) s = None) ∧
  ∃ s1 s2,
    step site_name max_urls Main s = Some s1 ∧
    (∀ url, step site_name max_urls (Work url) s1 = None ∧
            step site_name max_urls (Yield url) s1 = None) ∧
    step site_name max_urls Main s1 = Some s2 ∧
    (∀ a, step site_name max_urls a s2 = None) ∧
    pc s2 = Finished (elements (product_urls s)) ∧
    product_urls s2 = product_urls s.
Proof.
  intros [Hrest _] Hpc Hf.
  assert (all_done (future_to_url s)) as Hdone by (apply Hrest; by left).
  split.
  { intros url. split; [by apply settled_pool_is_idle|].
    apply yield_needs_for. congruence. }
  set (s1 := set_pc AtExit s).
  assert (step site_name max_urls Main s = Some s1) as Hs1.
  { simpl. rewrite Hpc. unfold while_step.
    by rewrite (bool_decide_eq_true_2 (urls_to_visit s = ∅)). }
  set (s2 := set_pc (Finished (elements (product_urls s))) s1).
  assert (step site_name max_urls Main s1 = Some s2) as Hs2.
  { simpl. by rewrite bool_decide_eq_true_2. }
  exists s1, s2. split; [done|]. split.
  { intros url. split; [by apply settled_pool_is_idle | by apply yield_needs_for]. }
  split; [done|]. split; [|done].
  intros [url|url|]; [by apply settled_pool_is_idle | by apply yield_needs_for | done].
Qed.

End EmptyFrontier.

(** C7. When the main thread reaches the [while] test with an empty
    frontier, no other thread can move, the main thread leaves the loop and
    returns the URLs accumulated so far, fewer than [max_urls] if the budget
    was not met. If no anchor of the seed page resolves to a URL of the
    site, every execution ends: no schedule is longer than the number of
    anchors of the page plus twelve, before [return] some thread can always
    move, a schedule that ends in [return] exists, and the list returned is
    empty. *)
Theorem empty_frontier_ends_crawl {world : Collaborators} (obj : VapeScraper)
    (site_name : string) (max_urls : Z) :
  (∀ s0 schedule s,
     find_product_urls_start obj site_name = inr s0 →
     run site_name max_urls schedule s0 = Some s →
     pc s = AtWhile → urls_to_visit s = ∅ →
     (∀ url, step site_name max_urls (Work url) s = None ∧
             step site_name max_urls (Yield url) s = None) ∧
     (∃ s1 s2,
        step site_name max_urls Main s = Some s1 ∧
        (∀ url, step site_name max_urls (Work url) s1 = None ∧
                step site_name max_urls (Yield url) s1 = None) ∧
        step site_name max_urls Main s1 = Some s2 ∧
        (∀ a, step site_name max_urls a s2 = None) ∧
        pc s2 = Finished (elements (product_urls s))) ∧
     find_product_urls obj site_name max_urls (schedule ++ [Main; Main]) =
       Some (inr (elements (product_urls s))) ∧
     (len (product_urls s) < max_urls →
      Z.of_nat (length (elements (product_urls s))) < max_urls)) ∧
  (∀ info d,
     target_sites obj !! site_name = Some info →
     urlparse_netloc (site_base_url info) = Some d →
     (∀ href full,
        href ∈ page_hrefs (site_base_url info) →
        urljoin (site_base_url info) href = Some full →
        urlparse_netloc full ≠ Some d) →
     (∃ schedule,
        find_product_urls obj site_name max_urls schedule = Some (inr [])) ∧
     (∀ schedule result,
        find_product_urls obj site_name max_urls schedule = Some (inr result) →
        result = []) ∧
     ∃ s0,
       find_product_urls_start obj site_name = inr s0 ∧
       ∀ schedule s,
         run site_name max_urls schedule s0 = Some s →
         (length schedule ≤ length (page_hrefs (site_base_url info)) + 12)%nat ∧
         product_urls s = ∅ ∧
         ((∀ result, pc s ≠ Finished result) →
          ∃ a s', step site_name max_urls a s = Some s')).
Proof.
  split.
  - intros s0 schedule s Hstart Hrun Hpc Hf.
    pose proof (run_pool_settled _ _ _ _ _ _ Hstart Hrun) as Hsettled.
    destruct (empty_frontier_returns site_name max_urls s Hsettled Hpc Hf)
      as (Hidle & s1 & s2 & Hs1 & Hidle1 & Hs2 & Hstuck & Hfin & _).
    split; [done|]. split; [by exists s1, s2|]. split; [|by rewrite len_elements].
    unfold find_product_urls. rewrite Hstart, run_app, Hrun.
    cbn [mbind option_bind run]. rewrite Hs1, Hs2. by rewrite Hfin.
  - intros info d Hsite Hd Hnolink.
    assert (∃ s0, find_product_urls_start obj site_name = inr s0) as [s0 Hstart].
    { unfold find_product_urls_start. rewrite Hsite, Hd. eauto. }
    assert (seed_only (site_base_url info) d s0 ∧
            steps_left (site_base_url info) s0 =
              (length (page_hrefs (site_base_url info)) + 12)%nat) as [Hseed Hleft].
    { pose proof Hstart as Hs0.
      apply start_inv in Hs0 as (info' & d' & Hsite' & Hd' & ->).
      rewrite Hsite in Hsite'. injection Hsite' as <-.
      rewrite Hd in Hd'. injection Hd' as <-.
      split.
      - split_and!; try done. left. by split_and!.
      - unfold steps_left. simpl. rewrite lookup_empty. simpl.
        rewrite decide_False by set_solver. rewrite decide_False by set_solver.
        lia. }
    assert (∀ schedule s,
              run site_name max_urls schedule s0 = Some s →
              (length schedule ≤ length (page_hrefs (site_base_url info)) + 12)%nat ∧
              product_urls s = ∅) as Hall.
    { intros schedule s Hrun.
      destruct (run_seed_only site_name max_urls _ d Hnolink schedule s0 s Hseed Hrun)
        as [(Hp & _) Hle].
      split; [lia | done]. }
    split_and!.
    + destruct (seed_only_returns site_name max_urls _ d Hnolink s0 Hseed)
        as (schedule & s & result & Hrun & Hfin).
      exists schedule. unfold find_product_urls. rewrite Hstart, Hrun, Hfin.
      pose proof (run_finished_result _ _ _ _ _ _ Hstart Hrun _ Hfin) as ->.
      destruct (Hall _ _ Hrun) as [_ ->]. by rewrite elements_empty.
    + intros schedule result Hr.
      apply find_product_urls_returns in Hr as (s0' & s & Hstart' & Hrun & Hfin).
      rewrite Hstart in Hstart'. injection Hstart' as <-.
      pose proof (run_finished_result _ _ _ _ _ _ Hstart Hrun _ Hfin) as ->.
      destruct (Hall _ _ Hrun) as [_ ->]. by rewrite elements_empty.
    + exists s0. split; [done|]. intros schedule s Hrun.
      destruct (Hall _ _ Hrun) as [Hlen Hp]. split_and!; [done | done |].
      apply progress.
Qed.

Lemma empty_frontier_ends_crawl_witness :
  (∃ schedule,
     find_product_urls (world:=Web.lonely) VapeScraper_init "vaperanger" 6 schedule =
     Some (inr [])) ∧
  (∀ schedule result,
     find_product_urls (world:=Web.lonely) VapeScraper_init "vaperanger" 6 schedule =
       Some (inr result) →
     result = []).
Proof.
  destruct (empty_frontier_ends_crawl (world:=Web.lonely) VapeScraper_init
              "vaperanger" 6) as [_ Hseed].
  destruct (Hseed {| site_base_url := "https://vaperanger.com";
                     site_product_pattern := "/products/" |}
              "vaperanger.com"
              ltac:(vm_compute; reflexivity) ltac:(vm_compute; reflexivity))
    as (Hex & Hall & _).
  - intros href full Hin Hjoin.
    change (page_hrefs (world:=Web.lonely) "https://vaperanger.com")
      with ["https://other.test/products/z"; "https://other.test/shop"] in Hin.
    apply elem_of_cons in Hin as [->|Hin].
    { vm_compute in Hjoin. injection Hjoin as <-. vm_compute. discriminate. }
    apply elem_of_cons in Hin as [->|Hin].
    { vm_compute in Hjoin. injection Hjoin as <-. vm_compute. discriminate. }
    by apply elem_of_nil in Hin.
  - split; [exact Hex | exact Hall].
Defined.

(** ** Every batch ends *)





Section BatchEnds.
Context {world : Collaborators}.
Variables (site_name : string) (max_urls : Z).
Implicit Types (s : crawl) (a : action) (t : task) (pool : gmap string task).







End BatchEnds.

(** ** A site without end

    One host, [vaperanger.com], on which every request succeeds. The seed
    page links to [/category], and the listing [/category] followed by [n]
    letters [y] links to the one with [n + 1] letters. No page links to a
    product. *)
Module Endless.

Fixpoint tail (n : nat) : string :=
  match n with
  | O => EmptyString
  | S k => String "y" (tail k)
  end.

Definition listing (n : nat) : string :=
  "https://vaperanger.com/category" +:+ tail n.

(** The page the crawl visits in its [n]-th batch. *)
Definition page (n : nat) : string :=
  match n with
  | O => Web.seed
  | S k => listing k
  end.

(** The anchor of a page. *)
Definition next (html : string) : string :=
  if String.eqb html Web.seed then "/category" else html +:+ "y".

Definition world : Collaborators :=
  {| urlparse_netloc := Web.netloc;
     urljoin := Web.join;
     soup_hrefs := λ html, Some [next html];
     requests_get := λ url _, Some url |}.

End Endless.


Section EndlessFacts.
#[local] Existing Instance Endless.world.
Implicit Types (s : crawl) (a : action) (t : task) (n : nat) (obj : VapeScraper).

Lemma tail_length n : String.length (Endless.tail n) = n.
Proof. induction n as [|n IH]; simpl; [done|]. by rewrite IH. Qed.


Lemma page_longer n :
  (String.length (Endless.page n) < String.length (Endless.page (S n)))%nat.
Proof.
  assert (∀ k, String.length (Endless.listing k) = (31 + k)%nat) as Hlen.
  { intros k.
    change (String.length (Endless.listing k))
      with (31 + String.length (Endless.tail k))%nat.
    by rewrite tail_length. }
  destruct n as [|k]; simpl Endless.page; rewrite !Hlen; [simpl; lia|lia].
Qed.









(** Every visited URL is shorter than the page of batch [n]. *)
Definition below n obj : Prop :=
  ∀ x, x ∈ visited_urls obj →
    (String.length x < String.length (Endless.page n))%nat.




Lemma below_next n obj : below n obj → below (S n) obj.
Proof.
  intros Hb x Hx. specialize (Hb x Hx). pose proof (page_longer n). lia.
Qed.






End EndlessFacts.

Section EndlessSteps.
#[local] Existing Instance Endless.world.
Variable max_urls : Z.
Hypothesis budget : 0 < max_urls.
Implicit Types (s : crawl) (a : action).


End EndlessSteps.

Section EndlessRuns.
#[local] Existing Instance Endless.world.
Variable budget : positive.
Implicit Types (s : crawl) (n : nat).



End EndlessRuns.




(** * Further properties of the crawl *)

(** ** Which URLs are requested *)

(** The listing links a task has collected so far. *)
Definition task_listings (t : task) : gset string :=
  match t with
  | Linking _ _ category_links => category_links
  | Done (Returned _ category_links) => category_links
  | _ => ∅
  end.

Section Dispatch.
Context {world : Collaborators}.
Variables (site_name : string) (max_urls : Z) (b : string).
Implicit Types (s : crawl) (a : action) (obj : VapeScraper) (url : string).

(** What it takes to enter a set of listing links. *)
Definition listing_link (obj : VapeScraper) (url : string) : Prop :=
  is_valid_url obj url = true ∧
  is_product_url obj url site_name = inr false ∧
  existsb (λ term, str_in term (str_lower url)) listing_terms = true.

(** The URLs a crawl from [b] may hand to the pool. *)
Definition dispatchable (obj : VapeScraper) (url : string) : Prop :=
  url = b ∨ listing_link obj url.

Definition only_site_urls (s : crawl) : Prop :=
  (∀ x, x ∈ urls_to_visit s → dispatchable (self s) x) ∧
  (∀ url t, future_to_url s !! url = Some t →
     dispatchable (self s) url ∧
     ∀ x, x ∈ task_listings t → listing_link (self s) x) ∧
  (∀ x attempt, EGet x attempt ∈ trace s → dispatchable (self s) x).

Lemma listing_link_stable obj obj' x :
  base_domain obj' = base_domain obj →
  target_sites obj' = target_sites obj →
  listing_link obj x → listing_link obj' x.
Proof.
  unfold listing_link, is_valid_url, is_product_url. by intros -> ->.
Qed.

Lemma link_step_listings obj href p c p' c' x :
  link_step obj site_name href p c = inr (p', c') →
  x ∈ c' → x ∈ c ∨ listing_link obj x.
Proof.
  unfold link_step.
  destruct (base_url obj) as [base|]; [|done].
  destruct (urljoin base href) as [full|]; [|done].
  destruct (is_valid_url obj full) eqn:Ev; cbn [negb]; [|by intros [= <- <-]; left].
  destruct (is_product_url obj full site_name) as [e|[|]] eqn:Ep;
    [done | by intros [= <- <-]; left |].
  case_bool_decide; [|by intros [= <- <-]; left].
  destruct (existsb _ listing_terms) eqn:Et; [|by intros [= <- <-]; left].
  intros [= <- <-] [->%elem_of_singleton|Hx]%elem_of_union; [right | by left].
  done.
Qed.

Lemma get_page_requests url x attempt :
  EGet x attempt ∈ (get_page url).2 → x = url.
Proof.
  destruct (get_page_cases url) as [(t & _ & ->)|[(t & _ & _ & ->)|
    [(t & _ & _ & _ & ->)|(_ & _ & _ & ->)]]]; simpl;
    rewrite ?elem_of_cons, elem_of_nil; naive_solver.
Qed.

Lemma step_only_site_urls a s s' :
  only_site_urls s → steps_to site_name max_urls s a s' → only_site_urls s'.
Proof.
  intros (Hf & Hpool & Htr) Hstep.
  pose proof (step_self _ _ _ _ _ Hstep) as (Hd & _ & Hts & _).
  assert (∀ x, listing_link (self s) x → listing_link (self s') x) as Hll
    by (intros x; by apply listing_link_stable).
  assert (∀ x, dispatchable (self s) x → dispatchable (self s') x) as Hdis
    by (intros x [->|Hx]; [by left | right; by apply Hll]).
  unfold only_site_urls.
  destruct Hstep as [url t self' t' tr Ht Hb Hp|url r Hpc Ht Hy|Hpc|Hpc Hall|Hpc Hall];
    simpl in *.
  - destruct (Hpool url t Ht) as [Hurl Hlist].
    apply process_page_step_steps in Hp.
    split_and!.
    + intros x Hx. by apply Hdis, Hf.
    + intros u tu Hu. destruct (decide (url = u)) as [->|Hne].
      * rewrite lookup_insert_eq in Hu. injection Hu as <-.
        split; [by apply Hdis|]. intros x Hx.
        destruct Hp; simpl in Hx; try (by apply not_elem_of_empty in Hx).
        -- apply Hll, Hlist. exact Hx.
        -- destruct (link_step_listings _ _ _ _ _ _ _ H Hx) as [Hin|Hnew].
           ++ apply Hll, Hlist. exact Hin.
           ++ by apply Hll.
      * rewrite lookup_insert_ne in Hu by done.
        destruct (Hpool u tu Hu) as [Hu1 Hu2]. split; [by apply Hdis|].
        intros x Hx. by apply Hll, Hu2.
    + intros x attempt [Hx|Hx]%elem_of_app; [by eapply Hdis, Htr|].
      destruct (page_steps_to_trace _ _ _ _ _ _ _ Hp) as [->|[_ ->]].
      * by apply elem_of_nil in Hx.
      * apply get_page_requests in Hx as ->. by apply Hdis.
  - rewrite merge_self in *. rewrite merge_future_to_url. split_and!.
    + intros x Hx. destruct (decide (x ∈ urls_to_visit s)) as [Hin|Hout];
        [by apply Hf|].
      destruct r as [p c|e]; [|by destruct Hout].
      destruct (merge_urls_to_visit_new _ _ _ _ _ _ Hx Hout) as (Hc & _).
      right. destruct (Hpool url _ Ht) as [_ Hlist]. by apply Hlist.
    + done.
    + destruct r as [p c|e].
      * by rewrite merge_trace_returned.
      * simpl. intros x attempt [Hx|Hx]%elem_of_app; [by eapply Htr|].
        apply list_elem_of_singleton in Hx. done.
  - unfold while_step. case_match; simpl; [|done]. split_and!.
    + intros x [Hx _]%elem_of_difference. by apply Hf.
    + intros u tu Hu. apply lookup_gset_to_gmap_Some in Hu as [Hu <-].
      split; [|intros x Hx; by apply not_elem_of_empty in Hx]. apply Hf.
      apply elem_of_list_to_set, slice_to_elem, elem_of_elements in Hu. done.
    + done.
  - done.
  - done.
Qed.

End Dispatch.

(** X1. Whatever the pages of the site link to, a crawl sends requests for
    the base URL and for in-site listing links only: a requested URL other
    than the base URL has the network location of the base URL, does not
    match the product pattern and contains one of the listing terms. *)
Theorem only_site_urls_are_requested {world : Collaborators} (obj : VapeScraper)
    (site_name : string) (max_urls : Z) (info : site_info) (s0 : crawl)
    (schedule : list action) (s : crawl) (url : string) (attempt : nat) :
  target_sites obj !! site_name = Some info →
  find_product_urls_start obj site_name = inr s0 →
  run site_name max_urls schedule s0 = Some s →
  EGet url attempt ∈ trace s →
  url = site_base_url info ∨
  (urlparse_netloc url = urlparse_netloc (site_base_url info) ∧
   str_in (site_product_pattern info) url = false ∧
   ∃ term, term ∈ listing_terms ∧ str_in term (str_lower url) = true).
Proof.
  intros Hsite Hstart Hrun Hreq.
  assert (only_site_urls site_name (site_base_url info) s) as (_ & _ & Htr).
  { revert Hrun.
    apply (run_invariant site_name max_urls
             (only_site_urls site_name (site_base_url info))).
    - apply step_only_site_urls.
    - apply start_inv in Hstart as (info' & d & Hsite' & _ & ->).
      rewrite Hsite in Hsite'. injection Hsite' as <-.
      split_and!; simpl.
      + intros x ->%elem_of_singleton. by left.
      + intros u t Hu. by rewrite lookup_empty in Hu.
      + intros x n Hx. by apply elem_of_nil in Hx. }
  destruct (Htr url attempt Hreq) as [->|(Hvalid & Hprod & Hterm)]; [by left|].
  right. destruct (run_self _ _ _ _ _ Hrun) as (Hd & _ & Hts).
  apply start_inv in Hstart as (info' & d & Hsite' & Hbase & ->).
  rewrite Hsite in Hsite'. injection Hsite' as <-. simpl in Hd, Hts.
  split_and!.
  - apply is_valid_url_spec in Hvalid as (d' & Hn & _ & Hbd). congruence.
  - unfold is_product_url in Hprod. rewrite Hts, Hsite in Hprod. by injection Hprod.
  - by apply existsb_listing_terms.
Qed.

Lemma only_site_urls_are_requested_witness :
  ∃ s0 s,
    find_product_urls_start (world:=Web.world) VapeScraper_init "vaperanger" = inr s0 ∧
    run (world:=Web.world) "vaperanger" 6 Web.a_before_b_to_end s0 = Some s ∧
    EGet Web.listing_b 0 ∈ trace s ∧
    (Web.listing_b = "https://vaperanger.com" ∨
     (Web.netloc Web.listing_b = Web.netloc "https://vaperanger.com" ∧
      str_in "/products/" Web.listing_b = false ∧
      ∃ term, term ∈ listing_terms ∧ str_in term (str_lower Web.listing_b) = true)).
Proof.
  destruct (find_product_urls_start (world:=Web.world) VapeScraper_init "vaperanger")
    as [e|s0] eqn:Hstart; [vm_compute in Hstart; discriminate Hstart|].
  destruct (run (world:=Web.world) "vaperanger" 6 Web.a_before_b_to_end s0)
    as [s|] eqn:Hrun.
  - assert (EGet Web.listing_b 0 ∈ trace s) as Hreq.
    { pose proof Hstart as Hs0. pose proof Hrun as Hs.
      vm_compute in Hs0. injection Hs0 as <-.
      vm_compute in Hs. injection Hs as <-.
      apply list_elem_of_In. simpl. tauto. }
    exists s0, s. split; [reflexivity|]. split; [exact Hrun|]. split; [exact Hreq|].
    exact (only_site_urls_are_requested (world:=Web.world) VapeScraper_init
             "vaperanger" 6
             {| site_base_url := "https://vaperanger.com";
                site_product_pattern := "/products/" |}
             s0 Web.a_before_b_to_end s Web.listing_b 0
             ltac:(vm_compute; reflexivity) Hstart Hrun Hreq).
  - exfalso. vm_compute in Hstart. injection Hstart as <-.
    vm_compute in Hrun. discriminate Hrun.
Defined.

(** ** A budget of zero or less *)

Section NoBudget.
Context {world : Collaborators}.
Variables (site_name : string) (max_urls : Z).
Implicit Types (s : crawl) (a : action).

Definition untouched (s : crawl) : Prop :=
  trace s = [] ∧ product_urls s = ∅ ∧ future_to_url s = ∅ ∧
  visited_urls (self s) = ∅ ∧ pc s ≠ InFor.

Lemma step_untouched a s s' :
  max_urls ≤ 0 → untouched s → steps_to site_name max_urls s a s' → untouched s'.
Proof.
  intros Hmax (Htr & Hp & Hpool & Hv & Hpc) Hstep. unfold untouched.
  destruct Hstep as [url t self' t' tr Ht Hb Hstep|url r Hfor Ht Hy|Hw|Hfor Hall|Hexit Hall];
    simpl; try done.
  - rewrite Hpool in Ht. by rewrite lookup_empty in Ht.
  - unfold while_step. rewrite Hp, len_empty.
    assert ((0 <? max_urls) = false) as -> by (apply Z.ltb_ge; lia).
    rewrite andb_false_r. simpl. by split_and!.
Qed.

End NoBudget.

(** X2. With [max_urls <= 0] a crawl sends no request, visits nothing and
    starts no task, under every schedule; the main thread returns the empty
    list in two steps, and no schedule returns anything else. *)
Theorem nonpositive_budget_fetches_nothing {world : Collaborators}
    (obj : VapeScraper) (site_name : string) (max_urls : Z) (s0 : crawl) :
  max_urls ≤ 0 →
  find_product_urls_start obj site_name = inr s0 →
  (∀ schedule s,
     run site_name max_urls schedule s0 = Some s →
     trace s = [] ∧ product_urls s = ∅ ∧ future_to_url s = ∅ ∧
     visited_urls (self s) = ∅) ∧
  find_product_urls obj site_name max_urls [Main; Main] = Some (inr []) ∧
  (∀ schedule result,
     find_product_urls obj site_name max_urls schedule = Some (inr result) →
     result = []).
Proof.
  intros Hmax Hstart.
  assert (∀ schedule s,
            run site_name max_urls schedule s0 = Some s → untouched s) as Hall.
  { intros schedule s.
    apply (run_invariant site_name max_urls untouched).
    - intros a s1 s2. by apply step_untouched.
    - apply start_inv in Hstart as (info & d & _ & _ & ->). by split_and!. }
  split_and!.
  - intros schedule s Hrun.
    destruct (Hall _ _ Hrun) as (? & ? & ? & ? & _). by split_and!.
  - pose proof Hstart as Hs0.
    apply start_inv in Hs0 as (info & d & _ & _ & Hs0).
    unfold find_product_urls. rewrite Hstart. subst s0.
    cbn [run step pc]. unfold while_step. cbn [product_urls urls_to_visit].
    rewrite len_empty.
    assert ((0 <? max_urls) = false) as -> by (apply Z.ltb_ge; lia).
    rewrite andb_false_r. cbn [pc future_to_url].
    rewrite bool_decide_eq_true_2 by apply map_Forall_empty.
    cbn [set_pc pc product_urls]. by rewrite elements_empty.
  - intros schedule result Hr.
    apply find_product_urls_returns in Hr as (s0' & s & Hstart' & Hrun & Hfin).
    rewrite Hstart in Hstart'. injection Hstart' as <-.
    pose proof (run_finished_result _ _ _ _ _ _ Hstart Hrun _ Hfin) as ->.
    destruct (Hall _ _ Hrun) as (_ & -> & _). by rewrite elements_empty.
Qed.

Lemma nonpositive_budget_fetches_nothing_witness :
  find_product_urls (world:=Web.world) VapeScraper_init "vaperanger" 0 [Main; Main] =
  Some (inr []).
Proof.
  destruct (find_product_urls_start (world:=Web.world) VapeScraper_init "vaperanger")
    as [e|s0] eqn:Hstart; [vm_compute in Hstart; discriminate Hstart|].
  exact (proj1 (proj2 (nonpositive_budget_fetches_nothing (world:=Web.world)
                         VapeScraper_init "vaperanger" 0 s0 ltac:(lia) Hstart))).
Defined.

(** ** The size of a batch *)

Section Batch.
Context {world : Collaborators}.
Variables (site_name : string) (max_urls : Z).
Implicit Types (s : crawl) (a : action).

(** The batch the main thread draws from a frontier. *)
Definition drawn (frontier : gset string) : gset string :=
  list_to_set (slice_to (elements frontier) (Z.min batch (len frontier))).

Lemma drawn_subseteq frontier : drawn frontier ⊆ frontier.
Proof. apply slice_elements_subseteq. Qed.

Lemma size_drawn frontier :
  size (drawn frontier) = Nat.min 50 (size frontier).
Proof.
  unfold drawn. rewrite size_list_to_set
    by apply slice_to_NoDup, NoDup_elements.
  unfold slice_to, batch, len.
  destruct (0 <=? Z.min 50 (Z.of_nat (size frontier))) eqn:E;
    [|apply Z.leb_gt in E; lia].
  rewrite length_take. change (length (elements frontier)) with (size frontier).
  lia.
Qed.

Lemma while_step_draws s :
  urls_to_visit s ≠ ∅ → len (product_urls s) < max_urls →
  future_to_url (while_step max_urls s) = gset_to_gmap Queued (drawn (urls_to_visit s)) ∧
  urls_to_visit (while_step max_urls s) = urls_to_visit s ∖ drawn (urls_to_visit s) ∧
  pc (while_step max_urls s) = InFor ∧
  yielded (while_step max_urls s) = ∅.
Proof.
  intros Hne Hlt. unfold while_step.
  rewrite bool_decide_eq_false_2 by done.
  rewrite (proj2 (Z.ltb_lt _ _) Hlt). simpl. done.
Qed.

Lemma step_batch_bound a s s' :
  (size (future_to_url s) ≤ 50)%nat →
  steps_to site_name max_urls s a s' →
  (size (future_to_url s') ≤ 50)%nat.
Proof.
  intros Hle Hstep.
  destruct Hstep as [url t self' t' tr Ht Hb Hstep|url r Hfor Ht Hy|Hw|Hfor Hall|Hexit Hall];
    simpl; try done.
  - rewrite map_size_insert_Some by eauto. done.
  - by rewrite merge_future_to_url.
  - unfold while_step. case_match; simpl; [|done].
    fold (drawn (urls_to_visit s)).
    rewrite <- size_dom, dom_gset_to_gmap, size_drawn. lia.
Qed.

End Batch.

(** X3. The pool never holds more than 50 tasks. When the main thread draws
    a batch, it takes [min(50, len(urls_to_visit))] URLs, all of them from
    the frontier: they leave the frontier and each becomes one queued task;
    a frontier of 50 URLs or fewer is emptied. *)
Theorem batch_holds_at_most_fifty {world : Collaborators} (obj : VapeScraper)
    (site_name : string) (max_urls : Z) :
  (∀ s0 schedule s,
     find_product_urls_start obj site_name = inr s0 →
     run site_name max_urls schedule s0 = Some s →
     (size (future_to_url s) ≤ 50)%nat) ∧
  (∀ s s',
     pc s = AtWhile → urls_to_visit s ≠ ∅ → len (product_urls s) < max_urls →
     step site_name max_urls Main s = Some s' →
     size (future_to_url s') = Nat.min 50 (size (urls_to_visit s)) ∧
     dom (future_to_url s') ⊆ urls_to_visit s ∧
     urls_to_visit s' = urls_to_visit s ∖ dom (future_to_url s') ∧
     size (urls_to_visit s') = (size (urls_to_visit s) - 50)%nat ∧
     (∀ url t, future_to_url s' !! url = Some t → t = Queued)).
Proof.
  split.
  - intros s0 schedule s Hstart.
    apply (run_invariant site_name max_urls (λ s, (size (future_to_url s) ≤ 50)%nat)).
    + apply step_batch_bound.
    + apply start_inv in Hstart as (info & d & _ & _ & ->). simpl.
      rewrite map_size_empty. lia.
  - intros s s' Hpc Hne Hlt Hstep. simpl in Hstep. rewrite Hpc in Hstep.
    injection Hstep as <-.
    destruct (while_step_draws max_urls s Hne Hlt) as (-> & -> & _ & _).
    rewrite dom_gset_to_gmap, <- size_dom, dom_gset_to_gmap.
    pose proof (drawn_subseteq (urls_to_visit s)) as Hsub.
    pose proof (size_drawn (urls_to_visit s)) as Hsize.
    split_and!; try done.
    + rewrite size_difference by done. lia.
    + intros url t Hu. by apply lookup_gset_to_gmap_Some in Hu as [_ <-].
Qed.

Lemma batch_holds_at_most_fifty_witness :
  ∃ s',
    step (world:=Web.world) "vaperanger" 6 Main
      (set_pc AtWhile (merge 6 Web.listing_a (Returned ∅ {[Web.listing_b]})
                         Web.two_found)) = Some s' ∧
    size (future_to_url s') = 1%nat ∧
    size (urls_to_visit s') = 0%nat.
Proof.
  pose (s := set_pc AtWhile (merge 6 Web.listing_a (Returned ∅ {[Web.listing_b]})
                               Web.two_found)).
  destruct (step (world:=Web.world) "vaperanger" 6 Main s) as [s'|] eqn:Hstep;
    [|vm_compute in Hstep; discriminate Hstep].
  destruct (proj2 (batch_holds_at_most_fifty (world:=Web.world) VapeScraper_init
                     "vaperanger" 6) s s' eq_refl
              ltac:(vm_compute; discriminate) ltac:(vm_compute; reflexivity) Hstep)
    as (Hsize & _ & _ & Hleft & _).
  exists s'. split; [exact Hstep|]. split.
  - rewrite Hsize. vm_compute. reflexivity.
  - rewrite Hleft. vm_compute. reflexivity.
Defined.

(** * Scraping the product pages ([scrape_urls], [extract_slug]) *)

(** What [scrape_urls] needs besides [get_page]. *)
Class PageCollaborators := {
  (** [urlparse(url).path]; [None] when [urlparse] raises [ValueError]. *)
  urlparse_path : string → option string;
  (** Whether [BeautifulSoup(html, 'html.parser')] returns. *)
  soup_parses : string → bool;
  (** [self._extract_raw_text(soup)] for the soup of [html]; [None] when it
      raises. *)
  raw_text_of : string → option string;
  (** Whether [os.makedirs(path, exist_ok=True)] returns. *)
  makedirs_ok : string → bool;
  (** Whether the file of the [i]-th URL can be opened and written. *)
  write_ok : nat → string → bool
}.

(** The dictionary [extract_slug] builds; [scrape_urls] adds ['site']. *)
Record product_info := {
  p_url : string;
  p_slug : string;
  p_site : option string
}.

(** Exceptions that leave [scrape_urls]. *)
Inductive scrape_exn :=
  | Raise (e : exn)
  | OSError.

(** Effects of [scrape_urls]: those of [get_page], the directory, the
    files and [time.sleep(1)]. *)
Inductive io_event :=
  | Net (e : effect)
  | MakeDirs (path : string)
  | WriteFile (path content : string)
  | Pause (ms : nat).

Definition nl : string := String "010"%char EmptyString.

(** [s.lstrip('/')] *)
Fixpoint lstrip_slash (s : string) : string :=
  match s with
  | EmptyString => EmptyString
  | String c rest =>
      if Ascii.eqb c "/"%char then lstrip_slash rest else s
  end.

(** [s.rstrip('/')] *)
Fixpoint rstrip_slash (s : string) : string :=
  match s with
  | EmptyString => EmptyString
  | String c rest =>
      match rstrip_slash rest with
      | EmptyString => if Ascii.eqb c "/"%char then EmptyString else String c EmptyString
      | kept => String c kept
      end
  end.

(** [s.strip('/')] *)
Definition strip_slash (s : string) : string := rstrip_slash (lstrip_slash s).

(** [s.replace('/', '_')] *)
Fixpoint replace_slash (s : string) : string :=
  match s with
  | EmptyString => EmptyString
  | String c rest =>
      String (if Ascii.eqb c "/"%char then "_"%char else c) (replace_slash rest)
  end.

(** The file [scrape_urls] writes for a slug. *)
Definition product_file (site_dir slug : string) : string :=
  site_dir +:+ "/" +:+ replace_slash slug +:+ ".txt".

Definition file_content (url raw_text : string) : string :=
  "URL: " +:+ url +:+ nl +:+ nl +:+ nl +:+ "Raw Text Content:" +:+ nl +:+ raw_text.

Section Scrape.
Context {world : Collaborators} {pages : PageCollaborators}.

(** [VapeScraper.extract_slug] *)
Definition extract_slug (url : string) : exn + product_info :=
  match urlparse_path url with
  | None => inl ValueError
  | Some path => inr {| p_url := url; p_slug := strip_slash path; p_site := None |}
  end.

(** The body of the loop of [scrape_urls] after a page was fetched: the
    product and the file that is written. *)
Definition scrape_page (site_name site_dir : string) (i : nat)
    (url html : string) : scrape_exn + (product_info * io_event) :=
  if negb (soup_parses html) then inl (Raise ParserError)
  else
    match extract_slug url with
    | inl e => inl (Raise e)
    | inr product =>
        match raw_text_of html with
        | None => inl (Raise ParserError)
        | Some raw_text =>
            let path := product_file site_dir (p_slug product) in
            if write_ok i path then
              inr ({| p_url := p_url product;
                      p_slug := p_slug product;
                      p_site := Some site_name |},
                   WriteFile path (file_content url raw_text))
            else inl OSError
        end
    end.

(** The [for] loop of [scrape_urls], at the [i]-th URL, with the products
    appended so far. *)
Fixpoint scrape_loop (site_name site_dir : string) (i : nat)
    (urls : list string) (products : list product_info)
  : list io_event * (scrape_exn + list product_info) :=
  match urls with
  | [] => ([], inr products)
  | url :: rest =>
      let '(html, tr) := get_page url in
      match html with
      | Some text =>
          if truthy text then
            match scrape_page site_name site_dir i url text with
            | inl e => (map Net tr, inl e)
            | inr (product, written) =>
                let '(evs, r) :=
                  scrape_loop site_name site_dir (S i) rest (products ++ [product]) in
                (map Net tr ++ written :: Pause 1000 :: evs, r)
            end
          else
            let '(evs, r) := scrape_loop site_name site_dir (S i) rest products in
            (map Net tr ++ Pause 1000 :: evs, r)
      | None =>
          let '(evs, r) := scrape_loop site_name site_dir (S i) rest products in
          (map Net tr ++ Pause 1000 :: evs, r)
      end
  end.

(** [VapeScraper.scrape_urls]: the object afterwards, the effects, and the
    list returned or the exception raised. *)
Definition scrape_urls (obj : VapeScraper) (urls : list string)
    (site_name : string)
  : VapeScraper * list io_event * (scrape_exn + list product_info) :=
  match urls with
  | [] => (obj, [], inr [])
  | _ =>
      match target_sites obj !! site_name with
      | None => (obj, [], inl (Raise KeyError))
      | Some site_info =>
          let obj1 :=
            {| products := products obj;
               visited_urls := visited_urls obj;
               base_domain := base_domain obj;
               base_url := Some (site_base_url site_info);
               obj_product_urls := obj_product_urls obj;
               target_sites := target_sites obj |} in
          match urlparse_netloc (site_base_url site_info) with
          | None => (obj1, [], inl (Raise ValueError))
          | Some netloc =>
              let obj2 :=
                {| products := products obj;
                   visited_urls := visited_urls obj;
                   base_domain := Some netloc;
                   base_url := Some (site_base_url site_info);
                   obj_product_urls := obj_product_urls obj;
                   target_sites := target_sites obj |} in
              let site_dir := "output/" +:+ site_name in
              if makedirs_ok site_dir then
                let '(evs, r) := scrape_loop site_name site_dir 0 urls [] in
                (obj2, MakeDirs site_dir :: evs, r)
              else (obj2, [], inl OSError)
          end
      end
  end.

(** Whether [get_page] brings a page that is scraped. *)
Definition page_fetched (url : string) : bool :=
  match (get_page url).1 with
  | Some text => truthy text
  | None => false
  end.

Definition is_pause (e : io_event) : bool :=
  match e with Pause _ => true | _ => false end.

Definition is_write (e : io_event) : bool :=
  match e with WriteFile _ _ => true | _ => false end.

End Scrape.

(** ** Slugs and file names *)

(** [n] slashes. *)
Fixpoint slashes (n : nat) : string :=
  match n with
  | O => EmptyString
  | S n' => String "/"%char (slashes n')
  end.

(** Whether the last character is a slash. *)
Fixpoint ends_with_slash (s : string) : bool :=
  match s with
  | EmptyString => false
  | String c EmptyString => Ascii.eqb c "/"%char
  | String _ rest => ends_with_slash rest
  end.

Definition starts_with_slash (s : string) : bool :=
  match s with
  | String c _ => Ascii.eqb c "/"%char
  | EmptyString => false
  end.

Section StripFacts.

Lemma lstrip_slash_frame (s : string) :
  ∃ n, s = slashes n +:+ lstrip_slash s ∧ starts_with_slash (lstrip_slash s) = false.
Proof.
  induction s as [|c s (n & Hs & Hn)]; [by exists O|]. simpl.
  destruct (Ascii.eqb c "/") eqn:E.
  - apply Ascii.eqb_eq in E as ->. exists (S n). split; [|done].
    simpl. rewrite append_cons. by rewrite <- Hs.
  - exists O. split; [done|]. simpl. by rewrite E.
Qed.

Lemma rstrip_slash_cons (c : ascii) (s : string) :
  rstrip_slash (String c s) =
  match rstrip_slash s with
  | EmptyString => if Ascii.eqb c "/"%char then EmptyString else String c EmptyString
  | kept => String c kept
  end.
Proof. reflexivity. Qed.

Lemma rstrip_slash_frame (s : string) :
  ∃ m, s = rstrip_slash s +:+ slashes m ∧ ends_with_slash (rstrip_slash s) = false.
Proof.
  induction s as [|c s (m & Hs & Hm)]; [by exists O|].
  rewrite rstrip_slash_cons.
  destruct (rstrip_slash s) as [|k kept] eqn:Hk.
  - destruct (Ascii.eqb c "/") eqn:E.
    + apply Ascii.eqb_eq in E as ->. exists (S m). split; [|done].
      rewrite append_nil in *. simpl. by rewrite <- Hs.
    + exists m. split; [|simpl; by rewrite E].
      rewrite append_cons. by rewrite <- Hs.
  - exists m. split; [|exact Hm].
    rewrite append_cons. by rewrite <- Hs.
Qed.

Lemma rstrip_slash_start (s : string) :
  starts_with_slash s = false → starts_with_slash (rstrip_slash s) = false.
Proof.
  destruct s as [|c s]; [done|]. simpl. intros E.
  destruct (rstrip_slash s); simpl; by rewrite ?E.
Qed.

Lemma ends_with_slash_spec (s : string) :
  ends_with_slash s = true ↔ ∃ t, s = t +:+ "/".
Proof.
  split.
  - induction s as [|c s IH]; [done|]. simpl.
    destruct s as [|d s].
    + intros ->%Ascii.eqb_eq. by exists "".
    + intros H. destruct (IH H) as [t Ht]. exists (String c t).
      rewrite append_cons. by rewrite <- Ht.
  - intros [t ->]. induction t as [|c t IH]; [done|].
    rewrite append_cons. simpl. destruct (t +:+ "/") eqn:E; [|done].
    by destruct t.
Qed.

Lemma starts_with_slash_spec (s : string) :
  starts_with_slash s = true ↔ ∃ t, s = "/" +:+ t.
Proof.
  destruct s as [|c s]; simpl.
  - split; [done | intros [t Ht]; discriminate].
  - rewrite Ascii.eqb_eq. split.
    + intros ->. by exists s.
    + intros [t [= -> _]]. done.
Qed.

Lemma lstrip_slash_fixed (s : string) :
  starts_with_slash s = false → lstrip_slash s = s.
Proof. destruct s as [|c s]; [done|]. simpl. by intros ->. Qed.

Lemma rstrip_slash_fixed (s : string) :
  ends_with_slash s = false → rstrip_slash s = s.
Proof.
  induction s as [|c s IH]; [done|]. rewrite rstrip_slash_cons.
  destruct s as [|d s].
  - simpl. by intros ->.
  - intros H. rewrite IH by exact H. done.
Qed.

Lemma strip_slash_frame (s : string) :
  ∃ n m,
    s = slashes n +:+ strip_slash s +:+ slashes m ∧
    starts_with_slash (strip_slash s) = false ∧
    ends_with_slash (strip_slash s) = false.
Proof.
  unfold strip_slash.
  destruct (lstrip_slash_frame s) as (n & Hs & Hn).
  destruct (rstrip_slash_frame (lstrip_slash s)) as (m & Hl & Hm).
  exists n, m. split_and!; [|by apply rstrip_slash_start|done].
  by rewrite <- Hl.
Qed.

Lemma strip_slash_idempotent (s : string) :
  strip_slash (strip_slash s) = strip_slash s.
Proof.
  destruct (strip_slash_frame s) as (n & m & _ & Hstart & Hend).
  unfold strip_slash at 1.
  rewrite lstrip_slash_fixed by exact Hstart.
  by apply rstrip_slash_fixed.
Qed.

Lemma prefix_char (a d : ascii) (r : string) :
  String.prefix (String a EmptyString) (String d r) = Ascii.eqb a d.
Proof.
  simpl. destruct (Ascii.ascii_dec a d) as [->|Hne].
  - rewrite Ascii.eqb_refl. by destruct r.
  - symmetry. by apply Ascii.eqb_neq.
Qed.

Lemma replace_slash_no_slash (s : string) : str_in "/" (replace_slash s) = false.
Proof.
  induction s as [|c s IH]; [done|]. simpl replace_slash.
  rewrite str_in_cons, IH, orb_false_r, prefix_char.
  destruct (Ascii.eqb c "/") eqn:E; [done|].
  rewrite Ascii.eqb_sym. exact E.
Qed.

Lemma replace_slash_idempotent (s : string) :
  replace_slash (replace_slash s) = replace_slash s.
Proof.
  induction s as [|c s IH]; [done|]. simpl. rewrite IH. f_equal.
  destruct (Ascii.eqb c "/") eqn:E; [done | by rewrite E].
Qed.

Lemma replace_slash_injective (s1 s2 : string) :
  str_in "_" s1 = false → str_in "_" s2 = false →
  replace_slash s1 = replace_slash s2 → s1 = s2.
Proof.
  revert s2. induction s1 as [|c1 s1 IH]; intros [|c2 s2]; try done.
  rewrite !str_in_cons. intros [H1 H1']%orb_false_iff [H2 H2']%orb_false_iff.
  simpl. intros [= Hc Hs]. f_equal; [|by apply IH].
  rewrite prefix_char in H1, H2.
  apply Ascii.eqb_neq in H1, H2.
  destruct (Ascii.eqb c1 "/") eqn:E1, (Ascii.eqb c2 "/") eqn:E2;
    try (apply Ascii.eqb_eq in E1 as ->); try (apply Ascii.eqb_eq in E2 as ->);
    congruence.
Qed.

End StripFacts.

(** X4. [extract_slug] keeps the URL and takes as slug the path without the
    slashes at its two ends: the path is the slug between two runs of
    slashes, the slug neither starts nor ends with a slash, and stripping it
    again changes nothing. It raises [ValueError] exactly when [urlparse]
    does. *)
Theorem slug_is_stripped_path {pages : PageCollaborators} (url : string) :
  (urlparse_path url = None → extract_slug url = inl ValueError) ∧
  (∀ path, urlparse_path url = Some path →
     ∃ product n m,
       extract_slug url = inr product ∧
       p_url product = url ∧
       path = slashes n +:+ p_slug product +:+ slashes m ∧
       (∀ t, p_slug product ≠ "/" +:+ t) ∧
       (∀ t, p_slug product ≠ t +:+ "/") ∧
       strip_slash (p_slug product) = p_slug product).
Proof.
  unfold extract_slug. split.
  - by intros ->.
  - intros path ->.
    destruct (strip_slash_frame path) as (n & m & Hframe & Hstart & Hend).
    eexists _, n, m. split; [reflexivity|]. simpl. split_and!; [done|done| | |].
    + intros t Ht.
      assert (starts_with_slash (strip_slash path) = true) as Hs
        by (apply starts_with_slash_spec; eauto).
      congruence.
    + intros t Ht.
      assert (ends_with_slash (strip_slash path) = true) as Hs
        by (apply ends_with_slash_spec; eauto).
      congruence.
    + apply strip_slash_idempotent.
Qed.

(** X5. The file written for a slug lies directly in the directory of the
    site: its name holds no slash. Slugs without an underscore get different
    files; a slug that holds a slash shares its file with the different slug
    in which every slash is an underscore. *)
Theorem product_file_names (site_dir : string) :
  (∀ slug, str_in "/" (replace_slash slug) = false) ∧
  (∀ slug1 slug2,
     str_in "_" slug1 = false → str_in "_" slug2 = false →
     replace_slash slug1 = replace_slash slug2 → slug1 = slug2) ∧
  (∀ slug,
     str_in "/" slug = true →
     replace_slash slug ≠ slug ∧
     product_file site_dir (replace_slash slug) = product_file site_dir slug).
Proof.
  split_and!.
  - apply replace_slash_no_slash.
  - apply replace_slash_injective.
  - intros slug Hin. split.
    + intros Heq. pose proof (replace_slash_no_slash slug) as Hno.
      rewrite Heq in Hno. congruence.
    + unfold product_file. by rewrite replace_slash_idempotent.
Qed.

Lemma product_file_names_witness :
  replace_slash "kits/pod-1" ≠ "kits/pod-1" ∧
  product_file "output/vaperanger" (replace_slash "kits/pod-1") =
  product_file "output/vaperanger" "kits/pod-1".
Proof.
  apply (proj2 (proj2 (product_file_names "output/vaperanger")) "kits/pod-1").
  reflexivity.
Defined.

(** ** What [scrape_urls] returns *)

(** A small shop for examples: pages are found for every URL but
    [.../gone]; files can be written. *)
Module Shop.

Fixpoint from_slash (s : string) : string :=
  match s with
  | EmptyString => EmptyString
  | String c rest => if Ascii.eqb c "/"%char then s else from_slash rest
  end.

Definition path (url : string) : option string :=
  if String.prefix "https://" url
  then Some (from_slash (String.substring 8 (String.length url - 8) url))
  else Some url.

Definition pages : PageCollaborators :=
  {| urlparse_path := path;
     soup_parses := λ _, true;
     raw_text_of := λ html, Some ("Title: " +:+ html);
     makedirs_ok := λ _, true;
     write_ok := λ _ _, true |}.

Definition get (url : string) (attempt : nat) : option string :=
  if String.eqb url "https://vaperanger.com/products/gone" then None
  else Some "page".

Definition world : Collaborators :=
  {| urlparse_netloc := Web.netloc;
     urljoin := Web.join;
     soup_hrefs := λ _, Some [];
     requests_get := get |}.

Definition urls : list string :=
  ["https://vaperanger.com/products/p1/";
   "https://vaperanger.com/products/gone";
   "https://vaperanger.com/products/p2"].

End Shop.

Section ScrapeFacts.
Context {world : Collaborators} {pages : PageCollaborators}.
Implicit Types (urls : list string) (evs : list io_event).

(** A product [scrape_urls] returns for [site_name]. *)
Definition scraped (site_name : string) (p : product_info) : Prop :=
  p_site p = Some site_name ∧
  page_fetched (p_url p) = true ∧
  ∃ path, urlparse_path (p_url p) = Some path ∧ p_slug p = strip_slash path.

Lemma filter_net (f : io_event → bool) (tr : list effect) :
  (∀ e, f (Net e) = false) → List.filter f (map Net tr) = [].
Proof.
  intros Hf. induction tr as [|e tr IH]; [done|]. simpl. by rewrite Hf.
Qed.

Lemma scrape_page_product site_name site_dir i url html product written :
  scrape_page site_name site_dir i url html = inr (product, written) →
  p_url product = url ∧ p_site product = Some site_name ∧
  (∃ path, urlparse_path url = Some path ∧ p_slug product = strip_slash path) ∧
  ∃ raw_text,
    raw_text_of html = Some raw_text ∧
    written = WriteFile (product_file site_dir (p_slug product))
                (file_content url raw_text).
Proof.
  unfold scrape_page, extract_slug.
  destruct (soup_parses html); [|done]. simpl.
  destruct (urlparse_path url) as [path|]; [|done].
  destruct (raw_text_of html) as [raw_text|]; [|done]. simpl.
  destruct (write_ok _ _); [|done]. intros [= <- <-]. simpl.
  split_and!; eauto.
Qed.

Lemma scrape_loop_result site_name site_dir i urls acc evs products :
  scrape_loop site_name site_dir i urls acc = (evs, inr products) →
  ∃ new,
    products = acc ++ new ∧
    map p_url new = List.filter page_fetched urls ∧
    Forall (scraped site_name) new ∧
    length (List.filter is_pause evs) = length urls ∧
    length (List.filter is_write evs) = length new.
Proof.
  revert i acc evs products.
  induction urls as [|url urls IH]; intros i acc evs products; simpl.
  - intros [= <- <-]. exists []. by rewrite app_nil_r.
  - unfold page_fetched at 1.
    destruct (get_page url) as [[text|] tr] eqn:Hg; simpl.
    + destruct (truthy text) eqn:Ht.
      * destruct (scrape_page site_name site_dir i url text)
          as [e|[product written]] eqn:Hp; [done|].
        destruct (scrape_loop site_name site_dir (S i) urls (acc ++ [product]))
          as [evs' r'] eqn:Hl.
        intros [= <- ->].
        destruct (IH _ _ _ _ Hl) as (new & -> & Hurls & Hok & Hpause & Hwrite).
        apply scrape_page_product in Hp as (Hu & Hs & Hslug & raw & _ & ->).
        exists (product :: new). split_and!.
        -- by rewrite <- app_assoc.
        -- simpl. by rewrite Hu, Hurls.
        -- constructor; [|done]. split_and!; [done| |by rewrite Hu].
           unfold page_fetched. by rewrite Hu, Hg.
        -- rewrite List.filter_app, filter_net by done. simpl. by rewrite Hpause.
        -- rewrite List.filter_app, filter_net by done. simpl. by rewrite Hwrite.
      * destruct (scrape_loop site_name site_dir (S i) urls acc)
          as [evs' r'] eqn:Hl.
        intros [= <- ->].
        destruct (IH _ _ _ _ Hl) as (new & -> & Hurls & Hok & Hpause & Hwrite).
        exists new. split_and!; try done.
        -- rewrite List.filter_app, filter_net by done. simpl. by rewrite Hpause.
        -- rewrite List.filter_app, filter_net by done. simpl. by rewrite Hwrite.
    + destruct (scrape_loop site_name site_dir (S i) urls acc)
        as [evs' r'] eqn:Hl.
      intros [= <- ->].
      destruct (IH _ _ _ _ Hl) as (new & -> & Hurls & Hok & Hpause & Hwrite).
      exists new. split_and!; try done.
      * rewrite List.filter_app, filter_net by done. simpl. by rewrite Hpause.
      * rewrite List.filter_app, filter_net by done. simpl. by rewrite Hwrite.
Qed.

(** Requests of a run of the loop: three per URL at most. *)
Definition is_net_request (e : io_event) : bool :=
  match e with Net (EGet _ _) => true | _ => false end.

Lemma get_page_request_count url :
  (length (List.filter is_net_request (map Net (get_page url).2)) ≤ 3)%nat.
Proof.
  destruct (get_page_cases url) as [(t & _ & ->)|[(t & _ & _ & ->)|
    [(t & _ & _ & _ & ->)|(_ & _ & _ & ->)]]]; simpl; lia.
Qed.

Lemma scrape_loop_requests site_name site_dir i urls acc evs r :
  scrape_loop site_name site_dir i urls acc = (evs, r) →
  (length (List.filter is_net_request evs) ≤ 3 * length urls)%nat.
Proof.
  revert i acc evs r.
  induction urls as [|url urls IH]; intros i acc evs r; simpl.
  - intros [= <- <-]. simpl. lia.
  - pose proof (get_page_request_count url) as Hreq.
    destruct (get_page url) as [[text|] tr] eqn:Hg; simpl in *.
    + destruct (truthy text).
      * destruct (scrape_page site_name site_dir i url text) as [e|[product written]] eqn:Hp.
        -- intros [= <- <-]. lia.
        -- destruct (scrape_loop site_name site_dir (S i) urls (acc ++ [product]))
             as [evs' r'] eqn:Hl.
           intros [= <- <-]. specialize (IH _ _ _ _ Hl).
           rewrite List.filter_app, length_app.
           apply scrape_page_product in Hp as (_ & _ & _ & raw & _ & ->).
           simpl. lia.
      * destruct (scrape_loop site_name site_dir (S i) urls acc) as [evs' r'] eqn:Hl.
        intros [= <- <-]. specialize (IH _ _ _ _ Hl).
        rewrite List.filter_app, length_app. simpl. lia.
    + destruct (scrape_loop site_name site_dir (S i) urls acc) as [evs' r'] eqn:Hl.
      intros [= <- <-]. specialize (IH _ _ _ _ Hl).
      rewrite List.filter_app, length_app. simpl. lia.
Qed.

End ScrapeFacts.

(** X6. With an empty list [scrape_urls] returns the empty list at once,
    whatever the site name: nothing is looked up, created or requested and
    the object is unchanged. With a non-empty list and a site name that is
    not in the registry it raises [KeyError] before any effect. In every
    case it leaves [visited_urls] and the registry as they were and sends at
    most three requests per listed URL. *)
Theorem scrape_urls_edges {world : Collaborators} {pages : PageCollaborators}
    (obj : VapeScraper) (urls : list string) (site_name : string) :
  scrape_urls obj [] site_name = (obj, [], inr []) ∧
  (urls ≠ [] → target_sites obj !! site_name = None →
   scrape_urls obj urls site_name = (obj, [], inl (Raise KeyError))) ∧
  visited_urls (scrape_urls obj urls site_name).1.1 = visited_urls obj ∧
  target_sites (scrape_urls obj urls site_name).1.1 = target_sites obj ∧
  (length (List.filter is_net_request (scrape_urls obj urls site_name).1.2)
   ≤ 3 * length urls)%nat.
Proof.
  split; [done|]. split.
  { intros Hne Hnone. unfold scrape_urls. destruct urls; [done|]. by rewrite Hnone. }
  unfold scrape_urls. destruct urls as [|url urls]; [simpl; split_and!; try done; lia|].
  destruct (target_sites obj !! site_name) as [info|]; [|simpl; split_and!; try done; lia].
  destruct (urlparse_netloc (site_base_url info)) as [d|];
    [|simpl; split_and!; try done; lia].
  destruct (makedirs_ok _); [|simpl; split_and!; try done; lia].
  destruct (scrape_loop site_name ("output/" +:+ site_name) 0 (url :: urls) [])
    as [evs r] eqn:Hl.
  cbn [fst snd visited_urls target_sites]. split_and!; try done.
  apply scrape_loop_requests in Hl. cbn [List.filter is_net_request]. exact Hl.
Qed.

Lemma scrape_urls_edges_witness :
  scrape_urls (world:=Shop.world) (pages:=Shop.pages) VapeScraper_init Shop.urls
    "vapeworld" = (VapeScraper_init, [], inl (Raise KeyError)).
Proof.
  apply (proj1 (proj2 (scrape_urls_edges (world:=Shop.world) (pages:=Shop.pages)
                         VapeScraper_init Shop.urls "vapeworld"))).
  - discriminate.
  - vm_compute. reflexivity.
Defined.

(** X7. When [scrape_urls] returns a list, the list holds one product for
    every listed URL whose page was fetched with content, in the order of
    the list and with repetitions: its URLs are the listed URLs filtered by
    the fetch. Every product carries the site name and the stripped path of
    its URL as slug. One file is written per product, and the call pauses
    once per listed URL, fetched or not. *)
Theorem scrape_urls_returns_fetched {world : Collaborators}
    {pages : PageCollaborators} (obj : VapeScraper) (urls : list string)
    (site_name : string) (obj' : VapeScraper) (evs : list io_event)
    (products : list product_info) :
  scrape_urls obj urls site_name = (obj', evs, inr products) →
  map p_url products = List.filter page_fetched urls ∧
  Forall (scraped site_name) products ∧
  (length products ≤ length urls)%nat ∧
  length (List.filter is_write evs) = length products ∧
  length (List.filter is_pause evs) = length urls.
Proof.
  unfold scrape_urls. destruct urls as [|url urls].
  { intros [= <- <- <-]. by split_and!. }
  destruct (target_sites obj !! site_name) as [info|]; [|done].
  destruct (urlparse_netloc (site_base_url info)) as [d|]; [|done].
  destruct (makedirs_ok _); [|done].
  destruct (scrape_loop site_name ("output/" +:+ site_name) 0 (url :: urls) [])
    as [evs' r] eqn:Hl.
  intros [= <- <- ->].
  apply scrape_loop_result in Hl as (new & -> & Hurls & Hok & Hpause & Hwrite).
  rewrite app_nil_l. split_and!; try done.
  - rewrite <- (length_map p_url), Hurls. apply List.filter_length_le.
Qed.

Lemma scrape_urls_returns_fetched_witness :
  ∃ obj' evs products,
    scrape_urls (world:=Shop.world) (pages:=Shop.pages) VapeScraper_init Shop.urls
      "vaperanger" = (obj', evs, inr products) ∧
    map p_url products =
      ["https://vaperanger.com/products/p1/"; "https://vaperanger.com/products/p2"] ∧
    map p_slug products = ["products/p1"; "products/p2"] ∧
    length (List.filter is_pause evs) = 3%nat.
Proof.
  destruct (scrape_urls (world:=Shop.world) (pages:=Shop.pages) VapeScraper_init
              Shop.urls "vaperanger") as [[obj' evs] [e|products]] eqn:Hs;
    [vm_compute in Hs; discriminate Hs|].
  destruct (scrape_urls_returns_fetched (world:=Shop.world) (pages:=Shop.pages)
              VapeScraper_init Shop.urls "vaperanger" obj' evs products Hs)
    as (Hurls & _ & _ & _ & Hpause).
  exists obj', evs, products. split; [reflexivity|]. split; [exact Hurls|].
  split; [|exact Hpause].
  vm_compute in Hs. injection Hs as _ _ <-. reflexivity.
Defined.

Lemma slug_is_stripped_path_witness :
  ∃ product n m,
    extract_slug (pages:=Shop.pages) "https://vaperanger.com/products/p1/" = inr product ∧
    p_url product = "https://vaperanger.com/products/p1/" ∧
    "/products/p1/" = slashes n +:+ p_slug product +:+ slashes m ∧
    (∀ t, p_slug product ≠ "/" +:+ t) ∧
    (∀ t, p_slug product ≠ t +:+ "/") ∧
    strip_slash (p_slug product) = p_slug product.
Proof.
  apply (proj2 (slug_is_stripped_path (pages:=Shop.pages)
                  "https://vaperanger.com/products/p1/") "/products/p1/").
  vm_compute. reflexivity.
Defined.

(** * The attribute extractor ([attribute_extractor.py]) *)

(** ** [retry_on_error] *)

(** What the extractor does to the outside, in order. *)
Inductive llm_event :=
  | ApiCall (prompt : string)
  | Sleep (ms : nat)
  | PrintError (func_name : string).

(** A Python function with its arguments bound: from the events so far it
    raises ([None]) or returns a value, and adds its own events. *)
Definition callable (A : Type) : Type := list llm_event → option A * list llm_event.

Section Retry.
Context {A : Type}.

(** The [for attempt in range(max_retries)] loop of [wrapper], entered at
    [attempt] with [todo] iterations left. *)
Fixpoint retry_from (max_retries delay : nat) (func_name : string)
    (func : callable A) (attempt todo : nat) (log : list llm_event)
  : option A * list llm_event :=
  match todo with
  | O => (None, log)
  | S todo' =>
      match func log with
      | (Some v, log') => (Some v, log')
      | (None, log') =>
          if (attempt =? max_retries - 1)%nat
          then (None, log' ++ [PrintError func_name])
          else retry_from max_retries delay func_name func (S attempt) todo'
                 (log' ++ [Sleep delay])
      end
  end.

(** [retry_on_error(max_retries, delay)(func)]: the value [func] returned,
    or [None] for the [None] the wrapper returns when it gives up. *)
Definition retry_on_error (max_retries delay : nat) (func_name : string)
    (func : callable A) : callable A :=
  retry_from max_retries delay func_name func 0 max_retries.

(** The log after [k] failed calls, each followed by the pause. *)
Fixpoint after_failures (delay : nat) (func : callable A) (k : nat)
    (log : list llm_event) : list llm_event :=
  match k with
  | O => log
  | S k' => after_failures delay func k' ((func log).2 ++ [Sleep delay])
  end.

(** The first [k] calls raise, each started after the pause. *)
Fixpoint all_fail (delay : nat) (func : callable A) (k : nat)
    (log : list llm_event) : Prop :=
  match k with
  | O => True
  | S k' =>
      (func log).1 = None ∧
      all_fail delay func k' ((func log).2 ++ [Sleep delay])
  end.

End Retry.

Section RetryFacts.
Context {A : Type}.
Implicit Types (func : callable A) (log : list llm_event).

Lemma retry_from_spec max_retries delay name func attempt todo log r log' :
  (attempt + todo = max_retries)%nat →
  retry_from max_retries delay name func attempt todo log = (r, log') →
  match r with
  | Some v =>
      ∃ k, (k < todo)%nat ∧ all_fail delay func k log ∧
           func (after_failures delay func k log) = (Some v, log')
  | None =>
      match todo with
      | O => log' = log
      | S todo' =>
          all_fail delay func todo' log ∧
          (func (after_failures delay func todo' log)).1 = None ∧
          log' = (func (after_failures delay func todo' log)).2 ++ [PrintError name]
      end
  end.
Proof.
  revert attempt log. induction todo as [|todo IH]; intros attempt log Hsum; simpl.
  - by intros [= <- <-].
  - destruct (func log) as [[v|] log1] eqn:Hf.
    + intros [= <- <-]. exists O. split; [lia|]. by split.
    + destruct (attempt =? max_retries - 1)%nat eqn:E.
      * apply Nat.eqb_eq in E. assert (todo = O) as -> by lia.
        intros [= <- <-]. simpl. by rewrite Hf.
      * apply Nat.eqb_neq in E. intros Hr.
        apply IH in Hr; [|lia]. destruct r as [v|].
        -- destruct Hr as (k & Hk & Hfail & Hv). exists (S k).
           split; [lia|]. simpl. rewrite Hf. simpl. by split.
        -- destruct todo as [|todo']; [lia|].
           destruct Hr as (Hfail & Hlast & ->). simpl. rewrite Hf. simpl.
           by split_and!.
Qed.

End RetryFacts.

(** X8. A function wrapped by [retry_on_error] is called until it returns,
    at most [max_retries] times, with a pause of [delay] after each failed
    call but the last. The wrapper returns the value of the first call that
    returns, and then prints nothing. It returns [None] only when
    [max_retries] calls have raised, and then prints one error message;
    with [max_retries = 0] the function is not called and nothing is
    printed. *)
Theorem retry_calls_until_success {A : Type} (max_retries delay : nat)
    (name : string) (func : callable A) (log : list llm_event) :
  (∀ v log',
     retry_on_error max_retries delay name func log = (Some v, log') →
     ∃ k, (k < max_retries)%nat ∧ all_fail delay func k log ∧
          func (after_failures delay func k log) = (Some v, log')) ∧
  (∀ log',
     retry_on_error max_retries delay name func log = (None, log') →
     all_fail delay func max_retries log ∧
     match max_retries with
     | O => log' = log
     | S k =>
         log' = (func (after_failures delay func k log)).2 ++ [PrintError name]
     end) ∧
  (∀ k v,
     (k < max_retries)%nat → all_fail delay func k log →
     (func (after_failures delay func k log)).1 = Some v →
     retry_on_error max_retries delay name func log =
     (Some v, (func (after_failures delay func k log)).2)).
Proof.
  split_and!.
  - intros v log' Hr.
    by apply (retry_from_spec max_retries delay name func 0 max_retries) in Hr.
  - intros log' Hr.
    apply (retry_from_spec max_retries delay name func 0 max_retries) in Hr; [|done].
    destruct max_retries as [|k]; [done|]. destruct Hr as (Hfail & Hlast & ->).
    split; [|done]. clear -Hfail Hlast.
    revert log Hfail Hlast. induction k as [|k IH]; intros log Hfail Hlast; simpl in *.
    + done.
    + destruct Hfail as [Hf Hrest]. split; [done|]. by apply IH.
  - intros k v Hk Hfail Hv. unfold retry_on_error.
    assert (∀ attempt todo l,
              (attempt + todo = max_retries)%nat → (k < todo)%nat →
              all_fail delay func k l →
              (func (after_failures delay func k l)).1 = Some v →
              retry_from max_retries delay name func attempt todo l =
              (Some v, (func (after_failures delay func k l)).2)) as Hgen.
    { clear. induction k as [|k IH]; intros attempt todo l Hsum Hk Hfail Hv.
      - destruct todo as [|todo]; [lia|]. simpl in *.
        destruct (func l) as [[w|] l1]; simpl in *; congruence.
      - destruct todo as [|todo]; [lia|]. simpl in *.
        destruct Hfail as [Hf Hrest].
        destruct (func l) as [[w|] l1]; simpl in *; [done|].
        assert ((attempt =? max_retries - 1)%nat = false) as ->
          by (apply Nat.eqb_neq; lia).
        apply IH; [lia | lia | done | done]. }
    by apply Hgen.
Qed.

(** A call that fails until the log holds two events. *)
Definition flaky : callable nat :=
  λ log,
    if (length log <? 2)%nat then (None, log ++ [ApiCall "q"])
    else (Some 7%nat, log ++ [ApiCall "q"]).

Lemma retry_calls_until_success_witness :
  retry_on_error 3 1000 "flaky" flaky [] =
  (Some 7%nat, [ApiCall "q"; Sleep 1000; ApiCall "q"]).
Proof.
  apply (proj2 (proj2 (retry_calls_until_success 3 1000 "flaky" flaky [])) 1%nat 7%nat).
  - lia.
  - simpl. done.
  - reflexivity.
Defined.

(** ** The language model and its replies *)

(** A value [json.loads] returns. *)
#[local] Unset Elimination Schemes.
Inductive json :=
  | JNull
  | JBool (b : bool)
  | JNumber (repr : string)
  | JString (s : string)
  | JArray (items : list json)
  | JObject (members : list (string * json)).
#[local] Set Elimination Schemes.

Inductive llm_client :=
  | AzureClient (api_key endpoint : string)
  | OpenAIClient (api_key : string).

(** What the extractor calls outside of the repository. *)
Class LLMCollaborators := {
  (** [os.getenv(name)] *)
  os_getenv : string → option string;
  (** Whether [AzureOpenAI(api_key=.., api_version=.., azure_endpoint=..)]
      returns. *)
  azure_constructs : string → string → bool;
  (** Whether [OpenAI(api_key=..)] returns. *)
  openai_constructs : string → bool;
  (** [client.chat.completions.create(model=.., messages=.., ...)] followed
      by [.choices[0].message.content], for the call number given: [None]
      when either raises, else the content, which may be [None]. *)
  chat_create : llm_client → option string → string → nat → option (option string);
  (** [json.loads(text)]; [None] when it raises [JSONDecodeError]. *)
  json_loads : string → option json;
  (** The prompt the f-string of [_process_single_product] builds around
      the content of a product. *)
  prompt_of : string → string
}.

(** The attributes of the [LLMProcessor] instance. *)
Record LLMProcessor := {
  batch_size : Z;
  client : option llm_client;
  deployment : option string
}.

(** The dictionary [_process_single_product] receives; a key may be
    missing. *)
Record llm_input := {
  file_name : option string;
  content : option string
}.

Definition required_fields : list string :=
  ["brand"; "model"; "flavor"; "puff_count";
   "nicotine_strength"; "battery_capacity"; "coil_type"].

(** [LLMProcessor._get_default_attributes] *)
Definition get_default_attributes : json :=
  JObject [("brand", JString "N/A");
           ("model", JString "N/A");
           ("flavor", JString "N/A");
           ("puff_count", JString "N/A");
           ("nicotine_strength", JString "N/A");
           ("battery_capacity", JString "N/A");
           ("coil_type", JString "N/A")].

(** [field in value]; [None] when it raises [TypeError]. *)
Definition py_in (field : string) (value : json) : option bool :=
  match value with
  | JObject members => Some (existsb (String.eqb field) (map fst members))
  | JArray items =>
      Some (existsb (λ item, match item with
                             | JString s => String.eqb s field
                             | _ => false
                             end) items)
  | JString s => Some (str_in field s)
  | JNull | JBool _ | JNumber _ => None
  end.

(** The values for which [field in value] does not raise: objects, lists
    and strings. *)
Definition supports_in (value : json) : bool :=
  match value with
  | JObject _ | JArray _ | JString _ => true
  | JNull | JBool _ | JNumber _ => false
  end.

(** [all(field in value for field in fields)] *)
Fixpoint all_in (fields : list string) (value : json) : option bool :=
  match fields with
  | [] => Some true
  | field :: rest =>
      match py_in field value with
      | None => None
      | Some true => all_in rest value
      | Some false => Some false
      end
  end.

(** Number of API calls in a log. *)
Definition api_calls (log : list llm_event) : nat :=
  length (List.filter (λ e, match e with ApiCall _ => true | _ => false end) log).

Section Extractor.
Context {llm : LLMCollaborators}.

Definition env_set (name : string) : option string :=
  match os_getenv name with
  | Some value => if truthy value then Some value else None
  | None => None
  end.

(** [LLMProcessor._initialize_client]: the client and the deployment it
    leaves on the instance. *)
Definition initialize_client : option llm_client * option string :=
  match env_set "AZURE_OPENAI_API_KEY",
        env_set "AZURE_OPENAI_ENDPOINT",
        env_set "AZURE_OPENAI_DEPLOYMENT" with
  | Some azure_api_key, Some azure_endpoint, Some azure_deployment =>
      if azure_constructs azure_api_key azure_endpoint
      then (Some (AzureClient azure_api_key azure_endpoint), Some azure_deployment)
      else (None, None)
  | _, _, _ =>
      match env_set "OPENAI_API_KEY" with
      | Some openai_api_key =>
          if openai_constructs openai_api_key
          then (Some (OpenAIClient openai_api_key), Some "gpt-4-turbo-preview")
          else (None, None)
      | None => (None, None)
      end
  end.

(** [LLMProcessor(batch_size)]: [__new__] and [__init__] on the class
    attribute [_instance]; the class afterwards and the object returned. *)
Definition LLMProcessor_new (size : Z) (instance : option LLMProcessor)
  : option LLMProcessor * LLMProcessor :=
  match instance with
  | Some self => (Some self, self)
  | None =>
      let self := {| batch_size := size;
                     client := initialize_client.1;
                     deployment := initialize_client.2 |} in
      (Some self, self)
  end.

(** The body of [_process_with_model]. *)
Definition process_with_model_body (self : LLMProcessor) (prompt : string)
  : callable (option string) :=
  λ log,
    match client self with
    | None => (Some None, log)
    | Some c =>
        match chat_create c (deployment self) prompt (api_calls log) with
        | None => (None, log ++ [ApiCall prompt])
        | Some generated_text => (Some generated_text, log ++ [ApiCall prompt])
        end
    end.

(** [LLMProcessor._process_with_model] *)
Definition process_with_model (self : LLMProcessor) (prompt : string)
  : callable (option string) :=
  retry_on_error 3 1000 "_process_with_model" (process_with_model_body self prompt).

(** The branches of [_process_single_product] that print the file name and
    return the defaults. *)
Definition default_with_message (product : llm_input) (log : list llm_event)
  : option json * list llm_event :=
  match file_name product with
  | Some _ => (Some get_default_attributes, log)
  | None => (None, log)
  end.

(** The body of [_process_single_product]. *)
Definition process_single_product_body (self : LLMProcessor) (product : llm_input)
  : callable json :=
  λ log,
    match content product with
    | None => (None, log)
    | Some text =>
        let '(response, log1) := process_with_model self (prompt_of text) log in
        match response with
        | Some (Some reply) =>
            if truthy reply then
              match json_loads reply with
              | Some result =>
                  match all_in required_fields result with
                  | None => (None, log1)
                  | Some true => (Some result, log1)
                  | Some false => default_with_message product log1
                  end
              | None => default_with_message product log1
              end
            else (Some get_default_attributes, log1)
        | _ => (Some get_default_attributes, log1)
        end
    end.

(** [LLMProcessor._process_single_product] *)
Definition process_single_product (self : LLMProcessor) (product : llm_input)
  : callable json :=
  retry_on_error 3 1000 "_process_single_product"
    (process_single_product_body self product).

End Extractor.

(** ** Facts about the extractor *)

Section ExtractorFacts.
Context {llm : LLMCollaborators}.
Implicit Types (self : LLMProcessor) (product : llm_input) (log : list llm_event).

Lemma api_calls_app log1 log2 :
  api_calls (log1 ++ log2) = (api_calls log1 + api_calls log2)%nat.
Proof. unfold api_calls. by rewrite List.filter_app, length_app. Qed.

Lemma api_calls_call log prompt :
  api_calls (log ++ [ApiCall prompt]) = S (api_calls log).
Proof. rewrite api_calls_app. unfold api_calls. simpl. lia. Qed.

Lemma api_calls_sleep log ms : api_calls (log ++ [Sleep ms]) = api_calls log.
Proof. rewrite api_calls_app. unfold api_calls. simpl. lia. Qed.

Lemma api_calls_print log name : api_calls (log ++ [PrintError name]) = api_calls log.
Proof. rewrite api_calls_app. unfold api_calls. simpl. lia. Qed.

(** If one call adds at most [c] API calls, the retries add at most [c]
    for each allowed attempt. *)
Lemma retry_from_api_calls {A : Type} (c max_retries delay : nat) (name : string)
    (func : callable A) (attempt todo : nat) log :
  (∀ l, (api_calls (func l).2 ≤ api_calls l + c)%nat) →
  (api_calls (retry_from max_retries delay name func attempt todo log).2
   ≤ api_calls log + todo * c)%nat.
Proof.
  intros Hc. revert attempt log.
  induction todo as [|todo IH]; intros attempt log; cbn [retry_from]; [simpl; lia|].
  pose proof (Hc log) as Hlog.
  destruct (func log) as [[v|] log1]; cbn [fst snd] in *; [lia|].
  destruct (attempt =? max_retries - 1)%nat; cbn [fst snd].
  - rewrite api_calls_print. lia.
  - etrans; [apply IH|]. rewrite api_calls_sleep. lia.
Qed.

Lemma process_with_model_body_calls self prompt log :
  (api_calls (process_with_model_body self prompt log).2 ≤ api_calls log + 1)%nat.
Proof.
  unfold process_with_model_body. destruct (client self) as [c|]; cbn [snd]; [|lia].
  destruct (chat_create _ _ _ _); cbn [snd]; rewrite api_calls_call; lia.
Qed.

Lemma process_with_model_calls self prompt log :
  (api_calls (process_with_model self prompt log).2 ≤ api_calls log + 3)%nat.
Proof.
  unfold process_with_model, retry_on_error.
  etrans; [apply (retry_from_api_calls 1)|lia].
  intros l. apply process_with_model_body_calls.
Qed.

Lemma process_single_product_body_calls self product log :
  (api_calls (process_single_product_body self product log).2 ≤ api_calls log + 3)%nat.
Proof.
  unfold process_single_product_body, default_with_message.
  destruct (content product) as [text|]; simpl; [|lia].
  pose proof (process_with_model_calls self (prompt_of text) log) as Hc.
  destruct (process_with_model self (prompt_of text) log) as [r log1]. simpl in Hc.
  repeat case_match; simpl; done.
Qed.

(** Without a client the model is not called. *)
Lemma process_with_model_no_client self prompt log :
  client self = None → process_with_model self prompt log = (Some None, log).
Proof.
  intros Hc. unfold process_with_model, retry_on_error. simpl.
  unfold process_with_model_body. by rewrite Hc.
Qed.

Lemma all_in_default : all_in required_fields get_default_attributes = Some true.
Proof. reflexivity. Qed.

(** What the body returns carries the required fields. *)
Lemma process_single_product_body_fields self product log v log' :
  process_single_product_body self product log = (Some v, log') →
  all_in required_fields v = Some true.
Proof.
  unfold process_single_product_body, default_with_message.
  destruct (content product) as [text|]; [|done].
  destruct (process_with_model self (prompt_of text) log) as [r log1].
  repeat case_match; intros [= <- <-]; try done; by apply all_in_default.
Qed.

(** Replies that parse to an object, a list or a string never make the
    body raise, provided the product has its two keys. *)
Lemma process_single_product_body_returns self product log :
  is_Some (content product) → is_Some (file_name product) →
  (∀ text v, json_loads text = Some v → supports_in v = true) →
  is_Some (process_single_product_body self product log).1.
Proof.
  intros [text Ht] [name Hn] Hjson.
  unfold process_single_product_body, default_with_message. rewrite Ht, Hn.
  destruct (process_with_model self (prompt_of text) log) as [[[reply|]|] log1];
    try (by eexists).
  destruct (truthy reply); [|by eexists].
  destruct (json_loads reply) as [result|] eqn:Hj; [|by eexists].
  pose proof (Hjson _ _ Hj) as Hb.
  assert (is_Some (all_in required_fields result)) as [ok ->].
  { destruct result as [| | |s|items|members]; simpl in Hb; try done;
      simpl; repeat case_match; eauto. }
  destruct ok; by eexists.
Qed.

End ExtractorFacts.


(** An extractor with an OpenAI key whose model answers every prompt with
    the same object. *)
Module Lab.

Definition reply : string := "{...}".

Definition answer : json :=
  JObject [("brand", JString "Geek Bar");
           ("model", JString "Pulse");
           ("flavor", JString "Mint");
           ("puff_count", JString "15000");
           ("nicotine_strength", JString "5%");
           ("battery_capacity", JString "650mAh");
           ("coil_type", JString "Dual mesh");
           ("note", JNull)].

Definition llm : LLMCollaborators := {|
  os_getenv name := if String.eqb name "OPENAI_API_KEY" then Some "sk" else None;
  azure_constructs _ _ := true;
  openai_constructs _ := true;
  chat_create _ _ _ _ := Some (Some reply);
  json_loads text := if String.eqb text reply then Some answer else None;
  prompt_of text := "Extract the following attributes: " +:+ text
|}.

Definition processor : LLMProcessor := (LLMProcessor_new (llm:=llm) 4 None).2.

Definition product : llm_input :=
  {| file_name := Some "products_pulse.txt"; content := Some "URL: ..." |}.

End Lab.


(** ** Calls to the model *)

Section CallFacts.
Context {llm : LLMCollaborators}.
Implicit Types (self : LLMProcessor) (product : llm_input) (log : list llm_event).

Lemma process_single_product_calls self product log :
  (api_calls (process_single_product self product log).2 ≤ api_calls log + 9)%nat.
Proof.
  unfold process_single_product, retry_on_error.
  etrans; [apply (retry_from_api_calls 3)|lia].
  intros l. apply process_single_product_body_calls.
Qed.

(** A call never removes what the log holds. *)
Lemma retry_from_log_grows {A : Type} (max_retries delay : nat) (name : string)
    (func : callable A) (attempt todo : nat) log :
  (∀ l, l `prefix_of` (func l).2) →
  log `prefix_of` (retry_from max_retries delay name func attempt todo log).2.
Proof.
  intros Hf. revert attempt log.
  induction todo as [|todo IH]; intros attempt log; cbn [retry_from]; [done|].
  pose proof (Hf log) as Hlog.
  destruct (func log) as [[v|] log1]; cbn [fst snd] in *; [done|].
  destruct (attempt =? max_retries - 1)%nat; cbn [fst snd].
  - etrans; [done|]. by apply prefix_app_r.
  - etrans; [|apply IH]. etrans; [done|]. by apply prefix_app_r.
Qed.

Lemma process_with_model_log_grows self prompt log :
  log `prefix_of` (process_with_model self prompt log).2.
Proof.
  apply retry_from_log_grows. intros l. unfold process_with_model_body.
  destruct (client self); [|done].
  destruct (chat_create _ _ _ _); by apply prefix_app_r.
Qed.

Lemma process_single_product_log_grows self product log :
  log `prefix_of` (process_single_product self product log).2.
Proof.
  apply retry_from_log_grows. intros l.
  unfold process_single_product_body, default_with_message.
  destruct (content product) as [text|]; [|done].
  pose proof (process_with_model_log_grows self (prompt_of text) l) as Hp.
  destruct (process_with_model self (prompt_of text) l) as [r log1].
  cbn [snd] in Hp. repeat case_match; done.
Qed.

End CallFacts.

(** X10. [_process_single_product] calls the model at most nine times for
    one product: its own three attempts, each of which asks
    [_process_with_model], which tries three times. It only adds to what
    was logged before. *)
Theorem single_product_costs_nine_calls {llm : LLMCollaborators}
    (self : LLMProcessor) (product : llm_input) (log : list llm_event) :
  log `prefix_of` (process_single_product self product log).2 ∧
  (api_calls (process_single_product self product log).2 ≤ api_calls log + 9)%nat.
Proof.
  split.
  - apply process_single_product_log_grows.
  - apply process_single_product_calls.
Qed.

(** A model that raises twice and then answers with a number, which makes
    [field in result] raise. *)
Module Stubborn.

Definition llm : LLMCollaborators := {|
  os_getenv name := if String.eqb name "OPENAI_API_KEY" then Some "sk" else None;
  azure_constructs _ _ := true;
  openai_constructs _ := true;
  chat_create _ _ _ n := if (n mod 3 =? 2)%nat then Some (Some "1") else None;
  json_loads text := if String.eqb text "1" then Some (JNumber "1") else None;
  prompt_of text := text
|}.

Definition processor : LLMProcessor := (LLMProcessor_new (llm:=llm) 4 None).2.

End Stubborn.

(** The nine calls are reached, and then nothing is returned. *)
Lemma nine_calls_are_reached :
  (process_single_product (llm:=Stubborn.llm) Stubborn.processor Lab.product []).1 =
    None ∧
  api_calls
    (process_single_product (llm:=Stubborn.llm) Stubborn.processor Lab.product []).2 =
    9%nat.
Proof. by vm_compute. Qed.

(** ** The client *)

Section ClientFacts.
Context {llm : LLMCollaborators}.
Implicit Types (self : LLMProcessor) (product : llm_input) (log : list llm_event).

(** All three Azure variables are set and not empty. *)
Definition azure_configured : bool :=
  match env_set "AZURE_OPENAI_API_KEY",
        env_set "AZURE_OPENAI_ENDPOINT",
        env_set "AZURE_OPENAI_DEPLOYMENT" with
  | Some _, Some _, Some _ => true
  | _, _, _ => false
  end.

Lemma initialize_client_azure :
  azure_configured = true →
  ∃ key endpoint name,
    env_set "AZURE_OPENAI_API_KEY" = Some key ∧
    env_set "AZURE_OPENAI_ENDPOINT" = Some endpoint ∧
    env_set "AZURE_OPENAI_DEPLOYMENT" = Some name ∧
    initialize_client =
      if azure_constructs key endpoint
      then (Some (AzureClient key endpoint), Some name) else (None, None).
Proof.
  unfold azure_configured, initialize_client.
  destruct (env_set "AZURE_OPENAI_API_KEY") as [key|]; [|done].
  destruct (env_set "AZURE_OPENAI_ENDPOINT") as [endpoint|]; [|done].
  destruct (env_set "AZURE_OPENAI_DEPLOYMENT") as [name|]; [|done].
  intros _. by exists key, endpoint, name.
Qed.

Lemma initialize_client_openai :
  azure_configured = false →
  initialize_client =
    match env_set "OPENAI_API_KEY" with
    | Some key =>
        if openai_constructs key
        then (Some (OpenAIClient key), Some "gpt-4-turbo-preview") else (None, None)
    | None => (None, None)
    end.
Proof.
  unfold azure_configured, initialize_client.
  destruct (env_set "AZURE_OPENAI_API_KEY") as [key|]; [|done].
  destruct (env_set "AZURE_OPENAI_ENDPOINT") as [endpoint|]; [|done].
  by destruct (env_set "AZURE_OPENAI_DEPLOYMENT") as [name|].
Qed.

Lemma env_set_truthy name value : env_set name = Some value → truthy value = true.
Proof.
  unfold env_set. destruct (os_getenv name) as [v|]; [|done].
  destruct (truthy v) eqn:E; [|done]. by intros [= <-].
Qed.

(** Without a client a product that has content gets the defaults. *)
Lemma process_single_product_no_client self product log :
  client self = None → is_Some (content product) →
  process_single_product self product log = (Some get_default_attributes, log).
Proof.
  intros Hc [text Ht]. unfold process_single_product, retry_on_error.
  cbn [retry_from]. unfold process_single_product_body. rewrite Ht.
  by rewrite process_with_model_no_client.
Qed.

End ClientFacts.

(** X11. [_initialize_client] sets the client and the deployment together:
    both or neither. A complete Azure configuration has priority, also
    when its constructor raises: the OpenAI key is then not tried. An
    OpenAI client is only built from a non-empty [OPENAI_API_KEY], with
    the deployment ["gpt-4-turbo-preview"], when the Azure configuration is
    incomplete. *)
Theorem client_and_deployment_go_together {llm : LLMCollaborators} :
  (initialize_client.1 = None ↔ initialize_client.2 = None) ∧
  (∀ key endpoint,
     initialize_client.1 = Some (AzureClient key endpoint) →
     env_set "AZURE_OPENAI_API_KEY" = Some key ∧
     env_set "AZURE_OPENAI_ENDPOINT" = Some endpoint ∧
     initialize_client.2 = env_set "AZURE_OPENAI_DEPLOYMENT" ∧
     azure_constructs key endpoint = true) ∧
  (∀ key,
     initialize_client.1 = Some (OpenAIClient key) →
     azure_configured = false ∧
     env_set "OPENAI_API_KEY" = Some key ∧ truthy key = true ∧
     openai_constructs key = true ∧
     initialize_client.2 = Some "gpt-4-turbo-preview") ∧
  (azure_configured = true →
   (∀ key endpoint, env_set "AZURE_OPENAI_API_KEY" = Some key →
      env_set "AZURE_OPENAI_ENDPOINT" = Some endpoint →
      azure_constructs key endpoint = false) →
   initialize_client = (None, None)).
Proof.
  destruct azure_configured eqn:Ha.
  - destruct (initialize_client_azure Ha) as (k & e & n & Hk & He & Hn & ->).
    rewrite Hk, He, Hn.
    split_and!.
    + by destruct (azure_constructs k e).
    + intros key endpoint. destruct (azure_constructs k e) eqn:Hc; [|done].
      by intros [= <- <-].
    + intros key. by destruct (azure_constructs k e).
    + intros _ Hfail. by rewrite (Hfail k e).
  - rewrite (initialize_client_openai Ha).
    destruct (env_set "OPENAI_API_KEY") as [k|] eqn:Hk.
    + pose proof (env_set_truthy _ _ Hk) as Ht.
      destruct (openai_constructs k) eqn:Hc; split_and!; try done.
      intros key [= <-]. by split_and!.
    + by split_and!.
Qed.

(** An environment with a complete Azure configuration, whose constructor
    raises, and an OpenAI key. *)
Module Misconfigured.

Definition llm : LLMCollaborators := {|
  os_getenv name :=
    if String.eqb name "AZURE_OPENAI_API_KEY" then Some "key"
    else if String.eqb name "AZURE_OPENAI_ENDPOINT" then Some "not a url"
    else if String.eqb name "AZURE_OPENAI_DEPLOYMENT" then Some "gpt"
    else if String.eqb name "OPENAI_API_KEY" then Some "sk"
    else None;
  azure_constructs _ _ := false;
  openai_constructs _ := true;
  chat_create _ _ _ _ := Some (Some Lab.reply);
  json_loads text := if String.eqb text Lab.reply then Some Lab.answer else None;
  prompt_of text := text
|}.

End Misconfigured.

Lemma client_and_deployment_go_together_witness :
  initialize_client (llm:=Misconfigured.llm) = (None, None) ∧
  env_set (llm:=Lab.llm) "OPENAI_API_KEY" = Some "sk" ∧
  (initialize_client (llm:=Lab.llm)).2 = Some "gpt-4-turbo-preview".
Proof.
  split.
  - apply (proj2 (proj2 (proj2
      (client_and_deployment_go_together (llm:=Misconfigured.llm))))).
    + reflexivity.
    + reflexivity.
  - pose proof (proj1 (proj2 (proj2
      (client_and_deployment_go_together (llm:=Lab.llm)))) "sk") as H.
    destruct H as (_ & Hk & _ & _ & Hd); [reflexivity|]. by split.
Defined.

(** X12. Without a complete Azure configuration and without an OpenAI key
    the processor is built with no client and no deployment. It then
    returns the default record for every product that has content,
    calls no model, waits for nothing and prints no retry error. *)
Theorem no_credentials_disable_extraction {llm : LLMCollaborators} (size : Z)
    (product : llm_input) (log : list llm_event) :
  azure_configured = false →
  env_set "OPENAI_API_KEY" = None →
  client (LLMProcessor_new size None).2 = None ∧
  deployment (LLMProcessor_new size None).2 = None ∧
  (is_Some (content product) →
   process_single_product (LLMProcessor_new size None).2 product log =
   (Some get_default_attributes, log)).
Proof.
  intros Ha Hk.
  assert (initialize_client = (None, None)) as Hinit
    by (by rewrite (initialize_client_openai Ha), Hk).
  unfold LLMProcessor_new. cbn [snd client deployment]. rewrite Hinit.
  split_and!; [done|done|]. intros Hc.
  by apply process_single_product_no_client.
Qed.

(** An environment without credentials. *)
Module Offline.

Definition llm : LLMCollaborators := {|
  os_getenv name :=
    if String.eqb name "AZURE_OPENAI_ENDPOINT" then Some "https://example.azure.com"
    else if String.eqb name "OPENAI_API_KEY" then Some EmptyString
    else None;
  azure_constructs _ _ := true;
  openai_constructs _ := true;
  chat_create _ _ _ _ := Some (Some Lab.reply);
  json_loads text := if String.eqb text Lab.reply then Some Lab.answer else None;
  prompt_of text := text
|}.

End Offline.

Lemma no_credentials_disable_extraction_witness :
  process_single_product (llm:=Offline.llm)
    (LLMProcessor_new (llm:=Offline.llm) 4 None).2 Lab.product [] =
  (Some get_default_attributes, []).
Proof.
  apply (no_credentials_disable_extraction (llm:=Offline.llm) 4 Lab.product []).
  - reflexivity.
  - reflexivity.
  - by eexists.
Defined.

(** [LLMProcessor] is a singleton: once an instance exists, every
    construction returns that instance and leaves it as it is, whatever
    batch size is passed. *)
Lemma LLMProcessor_new_again {llm : LLMCollaborators} (size : Z)
    (instance : option LLMProcessor) :
  let made := LLMProcessor_new size instance in
  made.1 = Some made.2 ∧
  (∀ size', LLMProcessor_new size' made.1 = made) ∧
  (∀ self, instance = Some self → made.2 = self) ∧
  (instance = None → batch_size made.2 = size).
Proof.
  unfold LLMProcessor_new. destruct instance as [self|]; cbn [fst snd].
  - split_and!; [done|done|by intros ? [= <-]|done].
  - by split_and!.
Qed.

(** ** From products to records *)

(** What [process_products] reads of the file system. *)
Class FileCollaborators := {
  (** [os.path.exists(path)] *)
  path_exists : string → bool;
  (** [os.listdir(path)]; [None] when it raises. *)
  listdir : string → option (list string);
  (** [open(path, 'r', encoding='utf-8')] and [f.read()]; [None] when
      either raises. *)
  read_file : string → option string
}.

(** [s.endswith(suffix)] *)
Fixpoint ends_with (suffix s : string) : bool :=
  String.eqb s suffix ||
  match s with
  | EmptyString => false
  | String _ rest => ends_with suffix rest
  end.

(** [os.path.join(a, b)] *)
Definition path_join (a b : string) : string :=
  if starts_with_slash b then b
  else if negb (truthy a) || ends_with_slash a then a +:+ b
  else a +:+ "/" +:+ b.

(** The site [process_products] files a product under. *)
Definition site_from_url (url : string) : string :=
  if str_in "vaperanger" url then "vaperanger"
  else if str_in "vapewholesale" url then "vapewholesale"
  else "unknown".

Definition site_of (product : product_info) : string :=
  match p_site product with
  | Some site => if truthy site then site else site_from_url (p_url product)
  | None => site_from_url (p_url product)
  end.

(** [products_by_site[site].append(product)], on a dictionary that keeps
    the order in which its keys were inserted. *)
Fixpoint group_add (site : string) (product : product_info)
    (groups : list (string * list product_info))
  : list (string * list product_info) :=
  match groups with
  | [] => [(site, [product])]
  | (s, site_products) :: rest =>
      if String.eqb s site then (s, site_products ++ [product]) :: rest
      else (s, site_products) :: group_add site product rest
  end.

(** The first loop of [process_products]. *)
Definition products_by_site (products : list product_info)
  : list (string * list product_info) :=
  fold_left (λ groups product, group_add (site_of product) product groups)
            products [].

(** The text [process_products] builds for a product of a site without
    directory; the products of [scrape_urls] have no title, price,
    description, specifications or raw text. *)
Definition fallback_content (product : product_info) : string :=
  "URL: " +:+ p_url product +:+ nl +:+ nl +:+
  "Title: N/A" +:+ nl +:+ nl +:+
  "Price: N/A" +:+ nl +:+ nl +:+
  "Description: N/A" +:+ nl +:+ nl +:+
  "Specifications:" +:+ nl +:+ "{}" +:+ nl +:+ nl +:+
  "Raw Text Content:" +:+ nl +:+ "N/A".

Definition fallback_input (product : product_info) : llm_input :=
  {| file_name := Some (p_slug product +:+ ".txt");
     content := Some (fallback_content product) |}.

(** [range(0, n, size)] with [text_files[i:i + size]] for a positive
    [size]. *)
Fixpoint batches_from (fuel size : nat) (text_files : list string)
  : list (list string) :=
  match fuel, text_files with
  | _, [] => []
  | O, _ => []
  | S fuel', _ =>
      take size text_files :: batches_from fuel' size (drop size text_files)
  end.

Definition batches (size : nat) (text_files : list string) : list (list string) :=
  batches_from (length text_files) size text_files.

Section Products.
Context {llm : LLMCollaborators} {files : FileCollaborators}.

(** The products of a batch: the files that could be read. *)
Definition read_batch (site_dir : string) (batch_files : list string)
  : list llm_input :=
  omap (λ name,
          match read_file (path_join site_dir name) with
          | Some text => Some {| file_name := Some name; content := Some text |}
          | None => None
          end) batch_files.

(** [structured_products.append(self._process_single_product(product))]
    for each product. *)
Fixpoint process_each (self : LLMProcessor) (products : list llm_input)
    (structured_products : list (option json)) (log : list llm_event)
  : list (option json) * list llm_event :=
  match products with
  | [] => (structured_products, log)
  | product :: rest =>
      let '(structured_product, log1) := process_single_product self product log in
      process_each self rest (structured_products ++ [structured_product]) log1
  end.

(** The loop over the batches of a site. *)
Fixpoint process_batches (self : LLMProcessor) (site_dir : string)
    (todo : list (list string)) (structured_products : list (option json))
    (log : list llm_event) : list (option json) * list llm_event :=
  match todo with
  | [] => (structured_products, log)
  | batch_files :: rest =>
      let '(structured1, log1) :=
        process_each self (read_batch site_dir batch_files) structured_products log in
      process_batches self site_dir rest structured1 (log1 ++ [Sleep 1000])
  end.

(** The text files of a directory. *)
Definition text_files_of (names : list string) : list string :=
  List.filter (ends_with ".txt") names.

(** The loop over the sites. *)
Fixpoint process_sites (self : LLMProcessor)
    (groups : list (string * list product_info))
    (structured_products : list (option json)) (log : list llm_event)
  : (scrape_exn + list (option json)) * list llm_event :=
  match groups with
  | [] => (inr structured_products, log)
  | (site, site_products) :: rest =>
      let site_dir := "output/" +:+ site in
      if negb (path_exists site_dir) then
        let '(structured1, log1) :=
          process_each self (map fallback_input site_products)
                       structured_products log in
        process_sites self rest structured1 log1
      else
        match listdir site_dir with
        | None => (inl OSError, log)
        | Some names =>
            if batch_size self =? 0 then (inl (Raise ValueError), log)
            else if batch_size self <? 0 then
              process_sites self rest structured_products log
            else
              let '(structured1, log1) :=
                process_batches self site_dir
                  (batches (Z.to_nat (batch_size self)) (text_files_of names))
                  structured_products log in
              process_sites self rest structured1 log1
        end
  end.

(** [LLMProcessor.process_products] *)
Definition process_products (self : LLMProcessor) (products : list product_info)
    (log : list llm_event)
  : (scrape_exn + list (option json)) * list llm_event :=
  process_sites self (products_by_site products) [] log.

End Products.

(** ** Facts about the groups *)

Section GroupFacts.
Implicit Types (product p : product_info) (products ps : list product_info)
  (groups : list (string * list product_info)) (site s : string).

Lemma products_by_site_snoc products p :
  products_by_site (products ++ [p]) =
  group_add (site_of p) p (products_by_site products).
Proof. unfold products_by_site. by rewrite fold_left_app. Qed.

Lemma site_from_url_cases url :
  site_from_url url ∈ ["vaperanger"; "vapewholesale"; "unknown"].
Proof. unfold site_from_url. repeat case_match; set_solver. Qed.

Lemma site_from_url_truthy url : truthy (site_from_url url) = true.
Proof. unfold site_from_url. by repeat case_match. Qed.

Lemma site_of_truthy p : truthy (site_of p) = true.
Proof.
  unfold site_of. destruct (p_site p) as [site|].
  - destruct (truthy site) eqn:E; [done|apply site_from_url_truthy].
  - apply site_from_url_truthy.
Qed.

Lemma group_add_keys s p groups :
  map fst (group_add s p groups) =
  if decide (s ∈ map fst groups) then map fst groups else map fst groups ++ [s].
Proof.
  induction groups as [|[s0 ps0] rest IH]; cbn [group_add map fst].
  - case_decide; [set_solver|done].
  - destruct (String.eqb s0 s) eqn:E.
    + apply String.eqb_eq in E as ->. cbn [map fst]. clear IH.
      case_decide; [done|set_solver].
    + apply String.eqb_neq in E. cbn [map fst]. rewrite IH.
      repeat case_decide; set_solver.
Qed.

Lemma group_add_NoDup s p groups :
  NoDup (map fst groups) → NoDup (map fst (group_add s p groups)).
Proof.
  intros Hnd. rewrite group_add_keys. case_decide; [done|].
  apply NoDup_app. split_and!; [done|set_solver|apply NoDup_singleton].
Qed.

Lemma group_add_elem s p groups site ps :
  NoDup (map fst groups) →
  (site, ps) ∈ group_add s p groups →
  (site ≠ s ∧ (site, ps) ∈ groups) ∨
  (site = s ∧ ∃ ps0, ps = ps0 ++ [p] ∧
     ((s, ps0) ∈ groups ∨ (ps0 = [] ∧ s ∉ map fst groups))).
Proof.
  induction groups as [|[s0 ps0] rest IH]; simpl; intros Hnd Hin.
  - apply list_elem_of_singleton in Hin as [= -> ->]. right.
    split; [done|]. exists []. split; [done|]. right. split; [done|set_solver].
  - apply NoDup_cons in Hnd as [Hs0 Hnd].
    destruct (String.eqb s0 s) eqn:E.
    + apply String.eqb_eq in E as ->.
      apply elem_of_cons in Hin as [[= -> ->]|Hin].
      * right. split; [done|]. exists ps0. split; [done|]. left. set_solver.
      * left. split; [|set_solver]. intros ->. apply Hs0.
        apply list_elem_of_fmap. by exists (s, ps).
    + apply String.eqb_neq in E.
      apply elem_of_cons in Hin as [[= -> ->]|Hin].
      * left. split; [done|set_solver].
      * destruct (IH Hnd Hin) as [[Hne Hrest]|[-> (ps1 & -> & Hcase)]].
        -- left. split; [done|set_solver].
        -- right. split; [done|]. exists ps1. split; [done|].
           destruct Hcase as [Hrest|[-> Hnot]]; [left; set_solver|].
           right. split; [done|]. set_solver.
Qed.

Lemma group_add_concat s p groups :
  concat (map snd (group_add s p groups)) ≡ₚ p :: concat (map snd groups).
Proof.
  induction groups as [|[s0 ps0] rest IH]; simpl; [done|].
  destruct (String.eqb s0 s); simpl.
  - rewrite <- app_assoc. simpl. by rewrite <- Permutation_middle.
  - rewrite IH. by rewrite <- Permutation_middle.
Qed.

Lemma filter_none {A : Type} (P : A → Prop) `{!∀ x, Decision (P x)} (l : list A) :
  (∀ x, x ∈ l → ¬ P x) → filter P l = [].
Proof.
  induction l as [|x l IH]; intros Hl; [done|].
  rewrite filter_cons_False by (apply Hl; set_solver).
  apply IH. intros y Hy. apply Hl. set_solver.
Qed.

(** What the first loop keeps true. *)
Lemma products_by_site_inv products :
  NoDup (map fst (products_by_site products)) ∧
  (∀ site ps, (site, ps) ∈ products_by_site products →
     ps ≠ [] ∧ ps = filter (λ p, site_of p = site) products) ∧
  (∀ p, p ∈ products → site_of p ∈ map fst (products_by_site products)) ∧
  concat (map snd (products_by_site products)) ≡ₚ products.
Proof.
  induction products as [|p products IH] using rev_ind.
  - split_and!; [apply NoDup_nil_2|set_solver|set_solver|done].
  - destruct IH as (Hnd & Hgroups & Hkeys & Hperm).
    rewrite products_by_site_snoc. split_and!.
    + by apply group_add_NoDup.
    + intros site ps Hin. rewrite filter_app.
      destruct (group_add_elem _ _ _ _ _ Hnd Hin)
        as [[Hne Hold]|[-> (ps0 & -> & Hcase)]].
      * destruct (Hgroups _ _ Hold) as [Hnil ->]. split; [done|].
        rewrite (filter_cons_False _ p) by done.
        by rewrite filter_nil, app_nil_r.
      * split; [by destruct ps0|].
        rewrite (filter_cons_True _ p) by done. rewrite filter_nil. f_equal.
        destruct Hcase as [Hold|[-> Hnot]].
        -- by destruct (Hgroups _ _ Hold) as [_ ->].
        -- symmetry. apply filter_none.
           intros q Hq Hsite. apply Hnot. rewrite <- Hsite. by apply Hkeys.
    + intros q Hq. rewrite group_add_keys.
      apply elem_of_app in Hq as [Hq|Hq%list_elem_of_singleton].
      * case_decide; [by apply Hkeys|]. apply elem_of_app. left. by apply Hkeys.
      * subst q. case_decide; [done|]. set_solver.
    + rewrite group_add_concat, Hperm. by rewrite <- Permutation_cons_append.
Qed.

End GroupFacts.

(** X13. The first loop of [process_products] groups the products by site:
    every site has one group, no group is empty, and the group of a site
    holds the products of that site in the order of the list. Nothing is
    lost or repeated. The site of a product is its own [site] when it has a
    non-empty one, else one of three names read off its URL; it is never
    empty. *)
Theorem products_are_grouped_by_site (products : list product_info) :
  NoDup (map fst (products_by_site products)) ∧
  (∀ site ps, (site, ps) ∈ products_by_site products →
     truthy site = true ∧ ps ≠ [] ∧
     ps = filter (λ p, site_of p = site) products) ∧
  (∀ p, p ∈ products →
     ∃ ps, (site_of p, ps) ∈ products_by_site products ∧ p ∈ ps) ∧
  concat (map snd (products_by_site products)) ≡ₚ products ∧
  (∀ p site, p_site p = Some site → truthy site = true → site_of p = site) ∧
  (∀ p, p_site p = None ∨ p_site p = Some EmptyString →
     site_of p ∈ ["vaperanger"; "vapewholesale"; "unknown"]).
Proof.
  destruct (products_by_site_inv products) as (Hnd & Hgroups & Hkeys & Hperm).
  split_and!; [done| | |done| |].
  - intros site ps Hin. destruct (Hgroups _ _ Hin) as [Hne Hps].
    split_and!; [|done|done].
    destruct ps as [|p ps]; [done|].
    assert (p ∈ filter (λ p, site_of p = site) products) as Hp
      by (rewrite <- Hps; set_solver).
    apply list_elem_of_filter in Hp as [<- _]. apply site_of_truthy.
  - intros p Hp. pose proof (Hkeys _ Hp) as Hkey.
    apply list_elem_of_fmap in Hkey as ([site ps] & Hsite & Hin).
    simpl in Hsite. subst site. exists ps. split; [done|].
    destruct (Hgroups _ _ Hin) as [_ ->]. by apply list_elem_of_filter.
  - intros p site Hs Ht. unfold site_of. by rewrite Hs, Ht.
  - intros p [Hs|Hs]; unfold site_of; rewrite Hs; apply site_from_url_cases.
Qed.

(** Products as [scrape_urls] returns them, and one without site. *)
Module Basket.

Definition p1 : product_info :=
  {| p_url := "https://vaperanger.com/products/p1";
     p_slug := "products/p1"; p_site := Some "vaperanger" |}.

Definition p2 : product_info :=
  {| p_url := "https://vapewholesaleusa.com/pod-2";
     p_slug := "pod-2"; p_site := None |}.

Definition p3 : product_info :=
  {| p_url := "https://vaperanger.com/products/p3";
     p_slug := "products/p3"; p_site := Some "vaperanger" |}.

Definition all : list product_info := [p1; p2; p3].

End Basket.

Lemma products_are_grouped_by_site_witness :
  (∃ ps, (site_of Basket.p3, ps) ∈ products_by_site Basket.all ∧ Basket.p3 ∈ ps) ∧
  site_of Basket.p2 ∈ ["vaperanger"; "vapewholesale"; "unknown"].
Proof.
  split.
  - apply (proj1 (proj2 (proj2 (products_are_grouped_by_site Basket.all)))).
    unfold Basket.all. set_solver.
  - apply (proj2 (proj2 (proj2 (proj2 (proj2
             (products_are_grouped_by_site Basket.all)))))).
    left. reflexivity.
Defined.

(** ** Facts about the records *)

(** A record with the seven fields. *)
Definition has_fields (r : option json) : Prop :=
  ∃ v, r = Some v ∧ all_in required_fields v = Some true.

(** A product with its two keys. *)
Definition complete (product : llm_input) : Prop :=
  is_Some (content product) ∧ is_Some (file_name product).

(** A function whose result depends on the log through the number of calls
    made so far only. *)
Definition counts_calls {A : Type} (func : callable A) : Prop :=
  ∀ l1 l2, api_calls l1 = api_calls l2 →
    (func l1).1 = (func l2).1 ∧ api_calls (func l1).2 = api_calls (func l2).2.

Section RecordFacts.
Context {llm : LLMCollaborators} {files : FileCollaborators}.
Implicit Types (self : LLMProcessor) (product : llm_input) (log : list llm_event)
  (inputs : list llm_input) (acc : list (option json)).

Lemma retry_from_counts_calls {A : Type} max_retries delay name
    (func : callable A) attempt todo :
  counts_calls func →
  counts_calls (retry_from max_retries delay name func attempt todo).
Proof.
  intros Hf. revert attempt.
  induction todo as [|todo IH]; intros attempt l1 l2 Hl; cbn [retry_from]; [done|].
  destruct (Hf l1 l2 Hl) as [Hr Hc].
  destruct (func l1) as [[v1|] l1'], (func l2) as [[v2|] l2'];
    cbn [fst snd] in *; try done.
  destruct (attempt =? max_retries - 1)%nat; cbn [fst snd].
  - by rewrite !api_calls_print.
  - apply IH. by rewrite !api_calls_sleep.
Qed.

Lemma process_with_model_counts_calls self prompt :
  counts_calls (process_with_model self prompt).
Proof.
  apply retry_from_counts_calls. intros l1 l2 Hl. unfold process_with_model_body.
  destruct (client self) as [c|]; [|done]. rewrite Hl.
  destruct (chat_create _ _ _ _); cbn [fst snd]; by rewrite !api_calls_call, Hl.
Qed.

Lemma process_single_product_counts_calls self product :
  counts_calls (process_single_product self product).
Proof.
  apply retry_from_counts_calls. intros l1 l2 Hl.
  unfold process_single_product_body, default_with_message.
  destruct (content product) as [text|]; [|done].
  destruct (process_with_model_counts_calls self (prompt_of text) l1 l2 Hl)
    as [Hr Hc].
  destruct (process_with_model self (prompt_of text) l1) as [r1 l1'],
           (process_with_model self (prompt_of text) l2) as [r2 l2'].
  cbn [fst snd] in *. subst r2. repeat case_match; done.
Qed.

(** The processor is used through its client and its deployment only. *)
Lemma process_single_product_ext self1 self2 product log :
  client self1 = client self2 → deployment self1 = deployment self2 →
  process_single_product self1 product log = process_single_product self2 product log.
Proof.
  destruct self1 as [b1 c1 d1], self2 as [b2 c2 d2]. simpl.
  intros -> ->. reflexivity.
Qed.

Lemma process_single_product_fields self product log v :
  (process_single_product self product log).1 = Some v →
  all_in required_fields v = Some true.
Proof.
  intros Hv.
  destruct (process_single_product self product log) as [r log'] eqn:Hr.
  cbn [fst] in Hv. subst r.
  apply (retry_from_spec 3 1000 _ _ 0 3) in Hr as (k & _ & _ & Hbody); [|done].
  by eapply process_single_product_body_fields.
Qed.

Lemma process_single_product_record self product log :
  complete product →
  (∀ text v, json_loads text = Some v → supports_in v = true) →
  has_fields (process_single_product self product log).1.
Proof.
  intros [Hc Hn] Hjson.
  destruct (process_single_product_body_returns self product log Hc Hn Hjson)
    as [v Hv].
  assert ((process_single_product self product log).1 = Some v) as Hr.
  { unfold process_single_product, retry_on_error. cbn [retry_from].
    destruct (process_single_product_body self product log) as [r log1].
    cbn [fst] in Hv. by subst r. }
  exists v. split; [done|]. by eapply process_single_product_fields.
Qed.

Lemma process_each_app self (a b : list llm_input) acc log :
  process_each self (a ++ b) acc log =
  process_each self b (process_each self a acc log).1 (process_each self a acc log).2.
Proof.
  revert acc log. induction a as [|product a IH]; intros acc log; [done|].
  cbn [app process_each].
  destruct (process_single_product self product log) as [r log1]. apply IH.
Qed.

Lemma process_each_counts_calls self inputs acc :
  counts_calls (λ log,
    let r := process_each self inputs acc log in (Some r.1, r.2)).
Proof.
  revert acc. induction inputs as [|product inputs IH]; intros acc l1 l2 Hl;
    cbn [process_each fst snd]; [done|].
  destruct (process_single_product_counts_calls self product l1 l2 Hl) as [Hr Hc].
  destruct (process_single_product self product l1) as [r1 l1'],
           (process_single_product self product l2) as [r2 l2'].
  cbn [fst snd] in *. subst r2. by apply (IH (acc ++ [r1])).
Qed.

Lemma process_each_ext self1 self2 inputs acc log :
  client self1 = client self2 → deployment self1 = deployment self2 →
  process_each self1 inputs acc log = process_each self2 inputs acc log.
Proof.
  intros Hc Hd. revert acc log.
  induction inputs as [|product inputs IH]; intros acc log; [done|].
  cbn [process_each]. rewrite (process_single_product_ext self1 self2) by done.
  destruct (process_single_product self2 product log) as [r log1]. apply IH.
Qed.

(** What processing a list of products adds. *)
Lemma process_each_results self inputs acc log :
  ∃ new,
    (process_each self inputs acc log).1 = acc ++ new ∧
    length new = length inputs ∧
    Forall (λ r, r = None ∨ has_fields r) new ∧
    log `prefix_of` (process_each self inputs acc log).2 ∧
    (api_calls (process_each self inputs acc log).2
     ≤ api_calls log + 9 * length inputs)%nat ∧
    (Forall complete inputs →
     (∀ text v, json_loads text = Some v → supports_in v = true) →
     Forall has_fields new) ∧
    (client self = None → Forall complete inputs →
     new = replicate (length inputs) (Some get_default_attributes) ∧
     (process_each self inputs acc log).2 = log).
Proof.
  revert acc log. induction inputs as [|product inputs IH]; intros acc log.
  - exists []. cbn [process_each fst snd length]. rewrite app_nil_r.
    split_and!; [done|done|done|done|lia|done|done].
  - cbn [process_each].
    pose proof (process_single_product_calls self product log) as Hcalls.
    pose proof (process_single_product_log_grows self product log) as Hgrow.
    pose proof (process_single_product_fields self product log) as Hfields.
    pose proof (process_single_product_record self product log) as Hrecord.
    pose proof (process_single_product_no_client self product log) as Hnone.
    destruct (process_single_product self product log) as [r log1].
    cbn [fst snd] in *.
    destruct (IH (acc ++ [r]) log1)
      as (new & Hnew & Hlen & Hall & Hpre & Hbound & Hcomplete & Hoff).
    exists (r :: new). split_and!.
    + by rewrite Hnew, <- app_assoc.
    + simpl. by rewrite Hlen.
    + constructor; [|done]. destruct r as [v|]; [|by left].
      right. exists v. split; [done|]. by apply Hfields.
    + by etrans.
    + cbn [length]. lia.
    + intros Hc Hjson. apply Forall_cons in Hc as [Hp Hc].
      constructor; [by apply Hrecord|by apply Hcomplete].
    + intros Hclient Hc. apply Forall_cons in Hc as [Hp Hc].
      specialize (Hnone Hclient (proj1 Hp)). injection Hnone as -> ->.
      destruct (Hoff Hclient Hc) as [-> ->]. done.
Qed.

End RecordFacts.

(** ** Facts about the loop over the sites *)

(** The readable text files of the directory of a site, as products. *)
Definition text_inputs {files : FileCollaborators} (site : string)
  : list llm_input :=
  match listdir ("output/" +:+ site) with
  | Some names => read_batch ("output/" +:+ site) (text_files_of names)
  | None => []
  end.

(** The products a group brings to the model: the text files of its
    directory or, without a directory, the products themselves. *)
Definition site_inputs {files : FileCollaborators} (self : LLMProcessor)
    (group : string * list product_info) : list llm_input :=
  if negb (path_exists ("output/" +:+ group.1)) then map fallback_input group.2
  else if batch_size self <? 0 then []
  else text_inputs group.1.

(** A site whose directory, if there is one, can be listed and split in
    batches. *)
Definition site_ready {files : FileCollaborators} (self : LLMProcessor)
    (group : string * list product_info) : Prop :=
  path_exists ("output/" +:+ group.1) = true →
  is_Some (listdir ("output/" +:+ group.1)) ∧ batch_size self ≠ 0.

Section SiteFacts.
Context {llm : LLMCollaborators} {files : FileCollaborators}.
Implicit Types (self : LLMProcessor) (log : list llm_event)
  (acc : list (option json)) (groups : list (string * list product_info)).

Lemma batches_from_concat fuel size (l : list string) :
  (0 < size)%nat → (length l ≤ fuel)%nat → concat (batches_from fuel size l) = l.
Proof.
  intros Hs. revert l. induction fuel as [|fuel IH]; intros l Hl.
  - destruct l; [done|simpl in Hl; lia].
  - destruct l as [|x l]; [done|]. cbn [batches_from concat].
    rewrite IH; [apply take_drop|]. rewrite length_drop. simpl in Hl. simpl. lia.
Qed.

Lemma batches_concat size (l : list string) :
  (0 < size)%nat → concat (batches size l) = l.
Proof. intros Hs. by apply batches_from_concat. Qed.

Lemma batches_from_sizes fuel size (l : list string) :
  (0 < size)%nat →
  Forall (λ b, b ≠ [] ∧ (length b ≤ size)%nat) (batches_from fuel size l).
Proof.
  intros Hs. revert l. induction fuel as [|fuel IH]; intros l.
  - destruct l; constructor.
  - destruct l as [|x l]; [constructor|]. cbn [batches_from].
    constructor; [|apply IH]. split.
    + destruct size; [lia|done].
    + rewrite length_take. lia.
Qed.

Lemma read_batch_app site_dir (a b : list string) :
  read_batch site_dir (a ++ b) = read_batch site_dir a ++ read_batch site_dir b.
Proof. apply omap_app. Qed.

Lemma read_batch_cons site_dir name (names : list string) :
  read_batch site_dir (name :: names) =
  match read_file (path_join site_dir name) with
  | Some text =>
      {| file_name := Some name; content := Some text |} :: read_batch site_dir names
  | None => read_batch site_dir names
  end.
Proof. unfold read_batch. simpl. by destruct (read_file _). Qed.

Lemma read_batch_complete site_dir (names : list string) :
  Forall complete (read_batch site_dir names).
Proof.
  induction names as [|name names IH]; [constructor|].
  rewrite read_batch_cons.
  destruct (read_file (path_join site_dir name)); [|done].
  constructor; [|done]. split; by eexists.
Qed.

Lemma read_batch_names site_dir (names : list string) :
  omap file_name (read_batch site_dir names) =
  List.filter (λ name, bool_decide (is_Some (read_file (path_join site_dir name))))
              names.
Proof.
  induction names as [|name names IH]; [done|].
  rewrite read_batch_cons. cbn [List.filter].
  destruct (read_file (path_join site_dir name)) as [text|].
  - rewrite bool_decide_eq_true_2 by (by eexists). simpl. by f_equal.
  - rewrite bool_decide_eq_false_2 by (by intros [? ?]). done.
Qed.

Lemma fallback_complete (ps : list product_info) :
  Forall complete (map fallback_input ps).
Proof.
  apply Forall_fmap, Forall_true. intros p. split; by eexists.
Qed.

(** The batches of a site, against one pass over all their products. *)
Lemma process_batches_spec self site_dir (todo : list (list string)) acc l1 l2 :
  api_calls l1 = api_calls l2 →
  (process_batches self site_dir todo acc l1).1 =
    (process_each self (read_batch site_dir (concat todo)) acc l2).1 ∧
  api_calls (process_batches self site_dir todo acc l1).2 =
    api_calls (process_each self (read_batch site_dir (concat todo)) acc l2).2.
Proof.
  revert acc l1 l2. induction todo as [|b todo IH]; intros acc l1 l2 Hl; [done|].
  cbn [process_batches concat]. rewrite read_batch_app, process_each_app.
  destruct (process_each_counts_calls self (read_batch site_dir b) acc l1 l2 Hl)
    as [Hr Hc].
  cbn [fst snd] in Hr, Hc.
  destruct (process_each self (read_batch site_dir b) acc l1) as [s1 log1],
           (process_each self (read_batch site_dir b) acc l2) as [s2 log2].
  cbn [fst snd] in *. injection Hr as ->.
  apply IH. by rewrite api_calls_sleep.
Qed.

(** The loop over the sites, against one pass over all their products. *)
Lemma process_sites_spec self groups acc l1 l2 :
  Forall (site_ready self) groups →
  api_calls l1 = api_calls l2 →
  (process_sites self groups acc l1).1 =
    inr (process_each self (concat (map (site_inputs self) groups)) acc l2).1 ∧
  api_calls (process_sites self groups acc l1).2 =
    api_calls (process_each self (concat (map (site_inputs self) groups)) acc l2).2.
Proof.
  intros Hready. revert acc l1 l2.
  induction Hready as [|[site ps] groups Hsite Hready IH]; intros acc l1 l2 Hl;
    [done|].
  cbn [process_sites map concat]. rewrite process_each_app.
  unfold site_ready in Hsite. cbn [fst snd] in Hsite.
  assert (site_inputs self (site, ps) =
          if negb (path_exists ("output/" +:+ site)) then map fallback_input ps
          else if batch_size self <? 0 then [] else text_inputs site) as ->
    by done.
  destruct (path_exists ("output/" +:+ site)); cbn [negb].
  - destruct Hsite as [[names Hnames] Hsize]; [done|].
    unfold text_inputs. rewrite Hnames.
    destruct (batch_size self =? 0) eqn:E0; [lia|].
    destruct (batch_size self <? 0) eqn:Eneg; [by apply IH|].
    pose proof (process_batches_spec self ("output/" +:+ site)
                  (batches (Z.to_nat (batch_size self)) (text_files_of names))
                  acc l1 l2 Hl) as [Hr Hc].
    rewrite batches_concat in Hr, Hc by lia.
    destruct (process_batches self _ _ acc l1) as [s1 log1].
    destruct (process_each self (read_batch _ (text_files_of names)) acc l2)
      as [s2 log2].
    cbn [fst snd] in *. subst s2. by apply IH.
  - destruct (process_each_counts_calls self (map fallback_input ps) acc l1 l2 Hl)
      as [Hr Hc].
    cbn [fst snd] in Hr, Hc.
    destruct (process_each self (map fallback_input ps) acc l1) as [s1 log1],
             (process_each self (map fallback_input ps) acc l2) as [s2 log2].
    cbn [fst snd] in *. injection Hr as ->. by apply IH.
Qed.

(** Without any directory the sites are one pass over their products. *)
Lemma process_sites_no_directory self groups acc log :
  Forall (λ group, path_exists ("output/" +:+ group.1) = false) groups →
  process_sites self groups acc log =
  (inr (process_each self (map fallback_input (concat (map snd groups))) acc log).1,
   (process_each self (map fallback_input (concat (map snd groups))) acc log).2).
Proof.
  intros Hno. revert acc log.
  induction Hno as [|[site ps] groups Hsite Hno IH]; intros acc log; [done|].
  cbn [process_sites map concat fst snd] in *. rewrite Hsite. cbn [negb].
  rewrite map_app, process_each_app.
  destruct (process_each self (map fallback_input ps) acc log) as [s1 log1].
  apply IH.
Qed.

(** With a negative batch size the directories are listed and left. *)
Lemma process_sites_negative self groups acc log :
  batch_size self < 0 →
  Forall (λ group, path_exists ("output/" +:+ group.1) = true ∧
                   is_Some (listdir ("output/" +:+ group.1))) groups →
  process_sites self groups acc log = (inr acc, log).
Proof.
  intros Hneg Hdirs. revert acc log.
  induction Hdirs as [|[site ps] groups [Hsite [names Hnames]] Hdirs IH];
    intros acc log; [done|].
  cbn [process_sites fst snd] in *. rewrite Hsite, Hnames. cbn [negb].
  destruct (batch_size self =? 0) eqn:E0; [lia|].
  destruct (batch_size self <? 0) eqn:E; [apply IH|lia].
Qed.

(** Every group holds a product of the list. *)
Lemma products_by_site_keys (products : list product_info) site ps :
  (site, ps) ∈ products_by_site products →
  ∃ p, p ∈ products ∧ site_of p = site.
Proof.
  intros Hin.
  destruct (products_by_site_inv products) as (_ & Hgroups & _ & _).
  destruct (Hgroups _ _ Hin) as [Hne Hps].
  destruct ps as [|p ps]; [done|]. exists p.
  assert (p ∈ filter (λ p, site_of p = site) products) as Hp
    by (rewrite <- Hps; set_solver).
  by apply list_elem_of_filter in Hp as [? ?].
Qed.

Lemma products_by_site_Forall (products : list product_info)
    (P : string → Prop) :
  (∀ p, p ∈ products → P (site_of p)) →
  Forall (λ group, P group.1) (products_by_site products).
Proof.
  intros HP. apply Forall_forall. intros [site ps] Hin.
  destruct (products_by_site_keys _ _ _ Hin) as (p & Hp & <-). by apply HP.
Qed.

Lemma products_by_site_nil (products : list product_info) :
  products_by_site products = [] → products = [].
Proof.
  intros Hnil.
  destruct (products_by_site_inv products) as (_ & _ & _ & Hperm).
  rewrite Hnil in Hperm. simpl in Hperm. by apply Permutation_nil_l in Hperm.
Qed.

End SiteFacts.

(** X14. When no site of the list has a directory under [output],
    [process_products] returns, whatever the batch size: one entry per
    product, in the order of the groups, each of them [None] or a record
    with the seven fields, after at most nine calls to the model per
    product. If no reply parses to a
    number, a boolean or [null], no entry is [None]. Without a client every
    entry is the default record and nothing happens besides. *)
Theorem records_without_directory {llm : LLMCollaborators}
    {files : FileCollaborators} (self : LLMProcessor)
    (products : list product_info) (log : list llm_event) :
  (∀ p, p ∈ products → path_exists ("output/" +:+ site_of p) = false) →
  ∃ structured log',
    process_products self products log = (inr structured, log') ∧
    length structured = length products ∧
    Forall (λ r, r = None ∨ has_fields r) structured ∧
    log `prefix_of` log' ∧
    (api_calls log' ≤ api_calls log + 9 * length products)%nat ∧
    structured =
      (process_each self
         (map fallback_input (concat (map snd (products_by_site products))))
         [] log).1 ∧
    ((∀ text v, json_loads text = Some v → supports_in v = true) →
     Forall has_fields structured) ∧
    (client self = None →
     structured = replicate (length products) (Some get_default_attributes) ∧
     log' = log).
Proof.
  intros Hno. unfold process_products.
  rewrite process_sites_no_directory
    by (by apply (products_by_site_Forall products
                    (λ site, path_exists ("output/" +:+ site) = false))).
  destruct (products_by_site_inv products) as (_ & _ & _ & Hperm).
  apply Permutation_length in Hperm.
  pose proof (fallback_complete (concat (map snd (products_by_site products))))
    as Hcomplete.
  destruct (process_each_results self
              (map fallback_input (concat (map snd (products_by_site products))))
              [] log)
    as (new & Hnew & Hlen & Hall & Hpre & Hbound & Hrecords & Hoff).
  rewrite length_map, Hperm in Hlen, Hbound, Hoff.
  eexists _, _. split; [reflexivity|]. rewrite Hnew, app_nil_l.
  split_and!; try done.
  - intros Hjson. by apply Hrecords.
  - intros Hclient. by apply Hoff.
Qed.

(** A file system without [output] directory. *)
Module Bare.

Definition files : FileCollaborators := {|
  path_exists _ := false;
  listdir _ := None;
  read_file _ := None
|}.

End Bare.

Lemma records_without_directory_witness :
  ∃ structured log',
    process_products (llm:=Offline.llm) (files:=Bare.files)
      (LLMProcessor_new (llm:=Offline.llm) 0 None).2 Basket.all [] =
      (inr structured, log') ∧
    structured = replicate 3 (Some get_default_attributes) ∧ log' = [].
Proof.
  destruct (records_without_directory (llm:=Offline.llm) (files:=Bare.files)
              (LLMProcessor_new (llm:=Offline.llm) 0 None).2 Basket.all [])
    as (structured & log' & Hrun & _ & _ & _ & _ & _ & _ & Hoff).
  - intros p _. reflexivity.
  - exists structured, log'. split; [exact Hrun|]. apply Hoff. reflexivity.
Defined.

Section DirectoryFacts.
Context {llm : LLMCollaborators} {files : FileCollaborators}.

Lemma site_inputs_directory (self : LLMProcessor)
    (groups : list (string * list product_info)) :
  0 < batch_size self →
  Forall (λ group, path_exists ("output/" +:+ group.1) = true) groups →
  concat (map (site_inputs self) groups) = concat (map text_inputs (map fst groups)).
Proof.
  intros Hpos Hdirs. induction Hdirs as [|[site ps] groups Hsite Hdirs IH]; [done|].
  cbn [map concat fst]. rewrite IH. f_equal.
  unfold site_inputs. cbn [fst snd] in *. rewrite Hsite. cbn [negb].
  by destruct (batch_size self <? 0) eqn:E; [lia|].
Qed.

Lemma site_inputs_ext (self1 self2 : LLMProcessor)
    (group : string * list product_info) :
  0 < batch_size self1 → 0 < batch_size self2 →
  site_inputs self1 group = site_inputs self2 group.
Proof.
  intros H1 H2. unfold site_inputs.
  destruct (batch_size self1 <? 0) eqn:E1; [lia|].
  by destruct (batch_size self2 <? 0) eqn:E2; [lia|].
Qed.

Lemma text_inputs_complete (sites : list string) :
  Forall complete (concat (map text_inputs sites)).
Proof.
  apply Forall_concat, Forall_fmap, Forall_true. intros site.
  change (Forall complete (text_inputs site)). unfold text_inputs.
  destruct (listdir ("output/" +:+ site)); [apply read_batch_complete|constructor].
Qed.

(** [ends_with] is Python's [endswith]. *)
Lemma ends_with_spec (suffix s : string) :
  ends_with suffix s = true ↔ ∃ a, s = a +:+ suffix.
Proof.
  split.
  - induction s as [|c s IH]; cbn [ends_with]; rewrite orb_true_iff.
    + intros [H|H]; [|done]. apply String.eqb_eq in H as <-. by exists EmptyString.
    + intros [H|H].
      * apply String.eqb_eq in H as <-. by exists EmptyString.
      * destruct (IH H) as [a ->]. by exists (String c a).
  - intros [a ->]. induction a as [|c a IH].
    + rewrite append_nil. destruct suffix; cbn [ends_with]; by rewrite String.eqb_refl.
    + rewrite append_cons. cbn [ends_with]. by rewrite IH, orb_true_r.
Qed.

End DirectoryFacts.

(** X15. When every site of a non-empty list has a directory under
    [output] that can be listed, the products of the list are not read:
    with a positive batch size [process_products] returns what one pass
    over the readable text files of the directories gives, site by site
    in the order of the groups: one entry per file, each of them [None] or
    a record with the seven fields, after at most nine calls per file.
    With the batch size 0 it raises [ValueError] before any file is read,
    and with a negative batch size it returns the empty list. *)
Theorem records_come_from_text_files {llm : LLMCollaborators}
    {files : FileCollaborators} (self : LLMProcessor)
    (products : list product_info) (log : list llm_event) :
  products ≠ [] →
  (∀ p, p ∈ products →
     path_exists ("output/" +:+ site_of p) = true ∧
     is_Some (listdir ("output/" +:+ site_of p))) →
  (batch_size self = 0 →
   process_products self products log = (inl (Raise ValueError), log)) ∧
  (batch_size self < 0 → process_products self products log = (inr [], log)) ∧
  (0 < batch_size self →
   ∃ structured,
     (process_products self products log).1 = inr structured ∧
     structured =
       (process_each self
          (concat (map text_inputs (map fst (products_by_site products))))
          [] log).1 ∧
     length structured =
       length (concat (map text_inputs (map fst (products_by_site products)))) ∧
     Forall (λ r, r = None ∨ has_fields r) structured ∧
     (api_calls (process_products self products log).2
      ≤ api_calls log + 9 * length structured)%nat ∧
     ((∀ text v, json_loads text = Some v → supports_in v = true) →
      Forall has_fields structured)).
Proof.
  intros Hne Hdirs.
  pose proof (products_by_site_Forall products
                (λ site, path_exists ("output/" +:+ site) = true ∧
                         is_Some (listdir ("output/" +:+ site))) Hdirs) as Hgroups.
  cbn beta in Hgroups.
  split_and!.
  - intros Hzero. unfold process_products.
    destruct (products_by_site products) as [|[site ps] groups] eqn:Hg.
    { by apply products_by_site_nil in Hg. }
    apply Forall_cons in Hgroups as [[Hsite [names Hnames]] _].
    cbn [process_sites fst snd] in *. rewrite Hsite, Hnames, Hzero. done.
  - intros Hneg. unfold process_products. by apply process_sites_negative.
  - intros Hpos. unfold process_products.
    assert (Forall (site_ready self) (products_by_site products)) as Hready.
    { eapply Forall_impl; [exact Hgroups|]. intros group [_ Hl] _. split; [done|lia]. }
    destruct (process_sites_spec self (products_by_site products) [] log log Hready
                eq_refl) as [Hr Hc].
    rewrite site_inputs_directory in Hr, Hc
      by (done || (eapply Forall_impl; [exact Hgroups|]; by intros group [? _])).
    pose proof (text_inputs_complete (map fst (products_by_site products)))
      as Hcomplete.
    destruct (process_each_results self
                (concat (map text_inputs (map fst (products_by_site products))))
                [] log)
      as (new & Hnew & Hlen & Hall & _ & Hbound & Hrecords & _).
    rewrite app_nil_l in Hnew. rewrite Hnew in Hr.
    exists new. rewrite Hc, Hlen. split_and!; try done.
    intros Hjson. by apply Hrecords.
Qed.

(** A file system with the directory of one site: two text files that can
    be read, one that cannot, and a file of another kind. *)
Module Disk.

Definition files : FileCollaborators := {|
  path_exists path := String.eqb path "output/vaperanger";
  listdir path :=
    if String.eqb path "output/vaperanger"
    then Some ["products_p1.txt"; "notes.md"; "locked.txt"; "products_p2.txt";
               "products_p3.txt"]
    else None;
  read_file path :=
    if String.eqb path "output/vaperanger/products_p1.txt" then Some "URL: p1"
    else if String.eqb path "output/vaperanger/products_p2.txt" then Some "URL: p2"
    else if String.eqb path "output/vaperanger/products_p3.txt" then Some "URL: p3"
    else None
|}.

End Disk.

Lemma records_come_from_text_files_witness :
  process_products (llm:=Lab.llm) (files:=Disk.files)
    (LLMProcessor_new (llm:=Lab.llm) 0 None).2 [Basket.p1] [] =
    (inl (Raise ValueError), []) ∧
  ∃ structured,
    (process_products (llm:=Lab.llm) (files:=Disk.files) Lab.processor
       [Basket.p1] []).1 = inr structured ∧
    length structured = 3%nat.
Proof.
  split.
  - apply (records_come_from_text_files (llm:=Lab.llm) (files:=Disk.files)
             (LLMProcessor_new (llm:=Lab.llm) 0 None).2 [Basket.p1] []).
    + discriminate.
    + intros p Hp. apply list_elem_of_singleton in Hp as ->.
      split; [reflexivity|by eexists].
    + reflexivity.
  - destruct (proj2 (proj2 (records_come_from_text_files (llm:=Lab.llm)
                (files:=Disk.files) Lab.processor [Basket.p1] []
                ltac:(discriminate)
                ltac:(intros p Hp; apply list_elem_of_singleton in Hp as ->;
                      split; [reflexivity|by eexists]))))
      as (structured & Hrun & _ & Hlen & _); [reflexivity|].
    exists structured. split; [exact Hrun|exact Hlen].
Defined.

(** X16. The batch size changes the pauses only, as long as a reply of
    the model depends on the client, the deployment, the prompt and the
    number of the call, not on its time: two processors with the same
    client and deployment and positive batch sizes return the same entries
    for the same products and call the model equally often, provided the
    directories that exist can be listed; [process_products] then does
    not raise. *)
Theorem batch_size_changes_pauses_only {llm : LLMCollaborators}
    {files : FileCollaborators} (self1 self2 : LLMProcessor)
    (products : list product_info) (log : list llm_event) :
  client self1 = client self2 → deployment self1 = deployment self2 →
  0 < batch_size self1 → 0 < batch_size self2 →
  (∀ p, p ∈ products →
     path_exists ("output/" +:+ site_of p) = true →
     is_Some (listdir ("output/" +:+ site_of p))) →
  (∃ structured, (process_products self1 products log).1 = inr structured) ∧
  (process_products self1 products log).1 = (process_products self2 products log).1 ∧
  api_calls (process_products self1 products log).2 =
  api_calls (process_products self2 products log).2.
Proof.
  intros Hclient Hdeployment Hpos1 Hpos2 Hdirs.
  pose proof (products_by_site_Forall products
                (λ site, path_exists ("output/" +:+ site) = true →
                         is_Some (listdir ("output/" +:+ site))) Hdirs) as Hgroups.
  cbn beta in Hgroups. unfold process_products.
  assert (∀ self, 0 < batch_size self →
                  Forall (site_ready self) (products_by_site products)) as Hready.
  { intros self Hpos. eapply Forall_impl; [exact Hgroups|].
    intros group Hl Hex. split; [by apply Hl|lia]. }
  destruct (process_sites_spec self1 (products_by_site products) [] log log
              (Hready self1 Hpos1) eq_refl) as [Hr1 Hc1].
  destruct (process_sites_spec self2 (products_by_site products) [] log log
              (Hready self2 Hpos2) eq_refl) as [Hr2 Hc2].
  assert (map (site_inputs self1) (products_by_site products) =
          map (site_inputs self2) (products_by_site products)) as Hinputs.
  { apply map_ext. intros group. by apply site_inputs_ext. }
  rewrite Hinputs in Hr1, Hc1.
  rewrite (process_each_ext self1 self2) in Hr1, Hc1 by done.
  split_and!.
  - eexists. exact Hr1.
  - by rewrite Hr1, Hr2.
  - by rewrite Hc1, Hc2.
Qed.

Lemma batch_size_changes_pauses_only_witness :
  (process_products (llm:=Lab.llm) (files:=Disk.files)
     (LLMProcessor_new (llm:=Lab.llm) 4 None).2 Basket.all []).1 =
  (process_products (llm:=Lab.llm) (files:=Disk.files)
     (LLMProcessor_new (llm:=Lab.llm) 1 None).2 Basket.all []).1.
Proof.
  apply (batch_size_changes_pauses_only (llm:=Lab.llm) (files:=Disk.files)
           (LLMProcessor_new (llm:=Lab.llm) 4 None).2
           (LLMProcessor_new (llm:=Lab.llm) 1 None).2 Basket.all []).
  - reflexivity.
  - reflexivity.
  - reflexivity.
  - reflexivity.
  - intros p Hp Hex. unfold Basket.all in Hp.
    apply elem_of_cons in Hp as [->|Hp]; [by eexists|].
    apply elem_of_cons in Hp as [->|Hp]; [discriminate Hex|].
    apply list_elem_of_singleton in Hp as ->. by eexists.
Defined.

(** * The command line ([app.py]) *)

(** [l[i]] for a Python list; a negative [i] counts from the end, and
    [None] stands for [IndexError]. *)
Definition py_index {A : Type} (l : list A) (i : Z) : option A :=
  if 0 <=? i then l !! Z.to_nat i
  else if 0 <=? Z.of_nat (length l) + i then l !! Z.to_nat (Z.of_nat (length l) + i)
  else None.

(** [list(TARGET_SITES.keys())], in the order of [config.py]. *)
Definition site_names : list string := ["vaperanger"; "vapewholesale"].

(** The site for the number typed at the first prompt. *)
Definition select_site (choice : Z) : option string :=
  py_index site_names (choice - 1).

(** What leaves [main]: [int(input(..))] on a text that is no number, the
    index into the site names, and the exceptions of the three stages. *)
Inductive main_exn :=
  | NotANumber
  | IndexError
  | CrawlError (e : exn)
  | ScrapeError (e : scrape_exn)
  | ExtractError (e : scrape_exn).

(** The lists [main] holds when it calls [save_structured_data]. *)
Record main_report := {
  m_urls : list string;
  m_products : list product_info;
  m_structured : list (option json)
}.

Section Main.
Context {world : Collaborators} {pages : PageCollaborators}
  {llm : LLMCollaborators} {files : FileCollaborators}.

(** [main] up to the call of [save_structured_data], for the three numbers
    typed ([None] for a text that is no number) and a schedule of the
    crawl; [None] when the schedule is not a complete execution. *)
Definition main (choice num_urls no_to_scrape : option Z)
    (schedule : list action) : option (main_exn + main_report) :=
  match choice with
  | None => Some (inl NotANumber)
  | Some number =>
      match select_site number with
      | None => Some (inl IndexError)
      | Some site_name =>
          match num_urls with
          | None => Some (inl NotANumber)
          | Some max_urls =>
              match find_product_urls_start VapeScraper_init site_name with
              | inl e => Some (inl (CrawlError e))
              | inr s0 =>
                  match run site_name max_urls schedule s0 with
                  | None => None
                  | Some s =>
                      match pc s with
                      | Finished urls =>
                          match no_to_scrape with
                          | None => Some (inl NotANumber)
                          | Some count =>
                              match scrape_urls (self s) (slice_to urls count)
                                                site_name with
                              | (_, _, inl e) => Some (inl (ScrapeError e))
                              | (_, _, inr products) =>
                                  let processor := (LLMProcessor_new 4 None).2 in
                                  match (process_products processor products []).1 with
                                  | inl e => Some (inl (ExtractError e))
                                  | inr records =>
                                      Some (inr {| m_urls := urls;
                                                   m_products := products;
                                                   m_structured := records |})
                                  end
                              end
                          end
                      | _ => None
                      end
                  end
              end
          end
      end
  end.

End Main.

(** ** Facts about the command line *)

Section IndexFacts.
Context {A : Type}.
Implicit Types (l : list A) (i : Z).

Lemma py_index_is_Some l i :
  is_Some (py_index l i) ↔ - Z.of_nat (length l) ≤ i < Z.of_nat (length l).
Proof.
  unfold py_index. destruct (0 <=? i) eqn:E.
  - rewrite lookup_lt_is_Some. lia.
  - destruct (0 <=? Z.of_nat (length l) + i) eqn:E2.
    + rewrite lookup_lt_is_Some. lia.
    + split; [by intros [? ?]|lia].
Qed.

Lemma py_index_elem l i x : py_index l i = Some x → x ∈ l.
Proof.
  unfold py_index. repeat case_match; try done; apply list_elem_of_lookup_2.
Qed.

Lemma py_index_negative l i :
  0 ≤ i < Z.of_nat (length l) →
  py_index l (i - Z.of_nat (length l)) = py_index l i.
Proof.
  intros Hi. unfold py_index.
  destruct (0 <=? i - Z.of_nat (length l)) eqn:E1; [lia|].
  destruct (0 <=? Z.of_nat (length l) + (i - Z.of_nat (length l))) eqn:E2; [|lia].
  destruct (0 <=? i) eqn:E3; [|lia]. f_equal. lia.
Qed.

End IndexFacts.

Section MainFacts.
Context {world : Collaborators} {pages : PageCollaborators}
  {llm : LLMCollaborators} {files : FileCollaborators}.

Lemma select_site_cases (choice : Z) (name : string) :
  select_site choice = Some name →
  (name = "vaperanger" ∧ (choice = 1 ∨ choice = -1)) ∨
  (name = "vapewholesale" ∧ (choice = 2 ∨ choice = 0)).
Proof.
  intros Hs. unfold select_site in Hs.
  assert (is_Some (py_index site_names (choice - 1))) as Hsome by (by eexists).
  apply py_index_is_Some in Hsome. simpl in Hsome.
  assert (choice = -1 ∨ choice = 0 ∨ choice = 1 ∨ choice = 2)
    as [-> | [-> | [-> | ->]]] by lia;
    vm_compute in Hs; injection Hs as <-; [left|right|left|right]; split; auto.
Qed.

Lemma select_site_None (choice : Z) :
  select_site choice = None ↔ choice < -1 ∨ 2 < choice.
Proof.
  unfold select_site. rewrite eq_None_not_Some, py_index_is_Some. simpl. lia.
Qed.

Lemma select_site_registered (choice : Z) (name : string) :
  select_site choice = Some name → is_Some (TARGET_SITES !! name).
Proof.
  intros Hs. apply select_site_cases in Hs as [[-> _]|[-> _]]; by eexists.
Qed.

(** What a crawl that has returned holds. *)
Lemma crawl_result_bound obj site_name max_urls s0 schedule s urls :
  find_product_urls_start obj site_name = inr s0 →
  run site_name max_urls schedule s0 = Some s →
  pc s = Finished urls →
  NoDup urls ∧ Z.of_nat (length urls) ≤ Z.max 0 max_urls.
Proof.
  intros Hstart Hrun Hpc.
  pose proof (run_finished_result _ _ _ _ _ _ Hstart Hrun _ Hpc) as ->.
  split; [apply NoDup_elements|]. rewrite len_elements.
  destruct (decide (0 ≤ max_urls)) as [H0|H0].
  - destruct (run_within_budget _ _ _ _ _ _ H0 Hstart Hrun) as [Hle _]. lia.
  - assert (untouched s) as (_ & -> & _).
    { revert Hrun. apply (run_invariant site_name max_urls untouched).
      - intros a s1 s2. apply step_untouched. lia.
      - apply start_inv in Hstart as (info & d & _ & _ & ->). by split_and!. }
    rewrite len_empty. lia.
Qed.

Lemma scrape_page_no_key_error site_name site_dir i url html e :
  scrape_page site_name site_dir i url html = inl e → e ≠ Raise KeyError.
Proof.
  unfold scrape_page, extract_slug.
  destruct (soup_parses html); cbn [negb]; [|by intros [= <-]].
  destruct (urlparse_path url); [|by intros [= <-]].
  destruct (raw_text_of html); [|by intros [= <-]].
  destruct (write_ok _ _); [done|by intros [= <-]].
Qed.

Lemma scrape_loop_no_key_error site_name site_dir i urls acc evs e :
  scrape_loop site_name site_dir i urls acc = (evs, inl e) → e ≠ Raise KeyError.
Proof.
  revert i acc evs. induction urls as [|url urls IH]; intros i acc evs; [done|].
  cbn [scrape_loop]. destruct (get_page url) as [[text|] tr].
  - destruct (truthy text).
    + destruct (scrape_page site_name site_dir i url text)
        as [e'|[product written]] eqn:Hp.
      * intros [= _ <-]. by eapply scrape_page_no_key_error.
      * destruct (scrape_loop site_name site_dir (S i) urls (acc ++ [product]))
          as [evs' r'] eqn:Hl.
        intros [= _ ->]. by eapply IH.
    + destruct (scrape_loop site_name site_dir (S i) urls acc) as [evs' r'] eqn:Hl.
      intros [= _ ->]. by eapply IH.
  - destruct (scrape_loop site_name site_dir (S i) urls acc) as [evs' r'] eqn:Hl.
    intros [= _ ->]. by eapply IH.
Qed.

Lemma scrape_urls_no_key_error obj urls site_name obj' evs e :
  is_Some (target_sites obj !! site_name) →
  scrape_urls obj urls site_name = (obj', evs, inl e) → e ≠ Raise KeyError.
Proof.
  intros [info Hinfo]. unfold scrape_urls. destruct urls as [|url urls]; [done|].
  rewrite Hinfo. destruct (urlparse_netloc (site_base_url info)); [|by intros [= _ _ <-]].
  destruct (makedirs_ok _); [|by intros [= _ _ <-]].
  destruct (scrape_loop site_name _ 0 (url :: urls) []) as [evs' r] eqn:Hl.
  intros [= _ _ ->]. by eapply scrape_loop_no_key_error.
Qed.

Lemma process_sites_value_error (self : LLMProcessor)
    (groups : list (string * list product_info)) acc log :
  (process_sites self groups acc log).1 = inl (Raise ValueError) →
  batch_size self = 0.
Proof.
  revert acc log. induction groups as [|[site ps] groups IH]; intros acc log; [done|].
  cbn [process_sites]. destruct (path_exists _); cbn [negb].
  - destruct (listdir _); [|done].
    destruct (batch_size self =? 0) eqn:E0; [lia|].
    destruct (batch_size self <? 0); [apply IH|].
    destruct (process_batches _ _ _ _ _) as [s1 log1]. apply IH.
  - destruct (process_each _ _ _ _) as [s1 log1]. apply IH.
Qed.

Lemma slice_to_length_le {A : Type} (l : list A) (n : Z) :
  (length (slice_to l n) ≤ length l)%nat ∧
  (0 ≤ n → Z.of_nat (length (slice_to l n)) ≤ n).
Proof.
  unfold slice_to. destruct (0 <=? n) eqn:E; rewrite length_take; lia.
Qed.

Lemma scraped_site_of site_name (p : product_info) :
  truthy site_name = true → scraped site_name p → site_of p = site_name.
Proof. intros Ht (Hs & _). unfold site_of. by rewrite Hs, Ht. Qed.

End MainFacts.

Section HandOver.
Context {world : Collaborators} {pages : PageCollaborators}.

(** Every product of the loop has its file written. *)
Lemma scrape_loop_writes site_name site_dir i urls acc evs products :
  scrape_loop site_name site_dir i urls acc = (evs, inr products) →
  ∃ new,
    products = acc ++ new ∧
    ∀ p, p ∈ new →
      ∃ text, WriteFile (product_file site_dir (p_slug p)) text ∈ evs.
Proof.
  revert i acc evs products.
  induction urls as [|url urls IH]; intros i acc evs products; cbn [scrape_loop].
  - intros [= <- <-]. exists []. rewrite app_nil_r. split; [done|]. set_solver.
  - destruct (get_page url) as [[text|] tr].
    + destruct (truthy text).
      * destruct (scrape_page site_name site_dir i url text)
          as [e|[product written]] eqn:Hp; [done|].
        destruct (scrape_loop site_name site_dir (S i) urls (acc ++ [product]))
          as [evs' r'] eqn:Hl.
        intros [= <- ->]. destruct (IH _ _ _ _ Hl) as (new & -> & Hnew).
        apply scrape_page_product in Hp as (_ & _ & _ & raw & _ & ->).
        exists (product :: new). split; [by rewrite <- app_assoc|].
        intros p [->|Hp]%elem_of_cons.
        -- eexists. apply elem_of_app. right. apply elem_of_cons. by left.
        -- destruct (Hnew p Hp) as [t Ht]. exists t.
           apply elem_of_app. right. do 2 (apply elem_of_cons; right). done.
      * destruct (scrape_loop site_name site_dir (S i) urls acc)
          as [evs' r'] eqn:Hl.
        intros [= <- ->]. destruct (IH _ _ _ _ Hl) as (new & -> & Hnew).
        exists new. split; [done|]. intros p Hp. destruct (Hnew p Hp) as [t Ht].
        exists t. apply elem_of_app. right. apply elem_of_cons. by right.
    + destruct (scrape_loop site_name site_dir (S i) urls acc)
        as [evs' r'] eqn:Hl.
      intros [= <- ->]. destruct (IH _ _ _ _ Hl) as (new & -> & Hnew).
      exists new. split; [done|]. intros p Hp. destruct (Hnew p Hp) as [t Ht].
      exists t. apply elem_of_app. right. apply elem_of_cons. by right.
Qed.

Lemma starts_with_slash_replace (slug rest : string) :
  starts_with_slash rest = false →
  starts_with_slash (replace_slash slug +:+ rest) = false.
Proof.
  intros Hrest. destruct slug as [|c slug]; [done|].
  cbn [replace_slash]. rewrite append_cons. cbn [starts_with_slash].
  destruct (Ascii.eqb c "/") eqn:E; [done|exact E].
Qed.

(** The file of a product, as [process_products] addresses it. *)
Lemma product_file_join (site_name slug : string) :
  ends_with_slash ("output/" +:+ site_name) = false →
  product_file ("output/" +:+ site_name) slug =
  path_join ("output/" +:+ site_name) (replace_slash slug +:+ ".txt").
Proof.
  intros Hend. unfold path_join, product_file.
  rewrite starts_with_slash_replace by done. by rewrite Hend.
Qed.

Lemma products_by_site_single (products : list product_info) (site : string) :
  products ≠ [] → Forall (λ p, site_of p = site) products →
  products_by_site products = [(site, products)].
Proof.
  induction products as [|p products IH] using rev_ind; [done|].
  intros _ Hall. apply Forall_app in Hall as [Hall Hp].
  apply Forall_cons in Hp as [Hp _]. cbn beta in Hp. rewrite products_by_site_snoc, Hp.
  destruct products as [|q products]; [done|].
  rewrite IH by done. cbn [group_add]. by rewrite String.eqb_refl.
Qed.

Lemma registered_site_cases (site_name : string) :
  is_Some (TARGET_SITES !! site_name) →
  site_name = "vaperanger" ∨ site_name = "vapewholesale".
Proof.
  intros [info Hinfo]. unfold TARGET_SITES in Hinfo.
  apply lookup_insert_Some in Hinfo as [[<- _]|[_ Hinfo]]; [by left|].
  apply lookup_insert_Some in Hinfo as [[<- _]|[_ Hinfo]]; [by right|].
  by rewrite lookup_empty in Hinfo.
Qed.

End HandOver.

(** X17. What [scrape_urls] hands over to [process_products], for the
    sites of [config.py]: the products it returns all belong to the site
    it was called for, so that they form one group. For each of them a
    file was written, after the directory of the site was made, whose path
    is the one [process_products] opens for a name of that directory that
    ends in [.txt]. *)
Theorem written_files_are_text_files {world : Collaborators}
    {pages : PageCollaborators} (obj : VapeScraper) (urls : list string)
    (site_name : string) (obj' : VapeScraper) (evs : list io_event)
    (products : list product_info) :
  target_sites obj = TARGET_SITES →
  scrape_urls obj urls site_name = (obj', evs, inr products) →
  (products ≠ [] →
   products_by_site products = [(site_name, products)] ∧
   ∃ rest, evs = MakeDirs ("output/" +:+ site_name) :: rest) ∧
  (∀ p, p ∈ products →
     site_of p = site_name ∧
     ends_with ".txt" (replace_slash (p_slug p) +:+ ".txt") = true ∧
     str_in "/" (replace_slash (p_slug p) +:+ ".txt") = false ∧
     ∃ text,
       WriteFile (path_join ("output/" +:+ site_of p)
                            (replace_slash (p_slug p) +:+ ".txt")) text ∈ evs).
Proof.
  intros Hsites. unfold scrape_urls. destruct urls as [|url urls].
  { intros [= <- <- <-]. split; [done|]. set_solver. }
  rewrite Hsites.
  destruct (TARGET_SITES !! site_name) as [info|] eqn:Hinfo; [|done].
  assert (site_name = "vaperanger" ∨ site_name = "vapewholesale") as Hname
    by (apply registered_site_cases; by eexists).
  assert (truthy site_name = true ∧
          ends_with_slash ("output/" +:+ site_name) = false) as [Htruthy Hend]
    by (by destruct Hname as [-> | ->]).
  destruct (urlparse_netloc (site_base_url info)) as [d|]; [|done].
  destruct (makedirs_ok _); [|done].
  destruct (scrape_loop site_name ("output/" +:+ site_name) 0 (url :: urls) [])
    as [evs' r] eqn:Hl.
  intros [= <- <- ->].
  destruct (scrape_loop_result _ _ _ _ _ _ _ Hl) as (new & -> & _ & Hok & _ & _).
  destruct (scrape_loop_writes _ _ _ _ _ _ _ Hl) as (new' & Hnew' & Hwrites).
  rewrite !app_nil_l in *. subst new'.
  assert (Forall (λ p, site_of p = site_name) new) as Hsite.
  { eapply Forall_impl; [exact Hok|]. intros p Hp. by apply scraped_site_of. }
  split.
  - intros Hne. split; [by apply products_by_site_single|by eexists].
  - intros p Hp. rewrite Forall_forall in Hsite. rewrite (Hsite p Hp).
    split_and!; [done| | |].
    + apply ends_with_spec. by eexists.
    + clear -p. induction (p_slug p) as [|c slug IH]; [done|].
      cbn [replace_slash]. rewrite append_cons, str_in_cons, IH, orb_false_r.
      rewrite prefix_char. by destruct (Ascii.eqb c "/") eqn:E.
    + destruct (Hwrites p Hp) as [text Hin]. exists text.
      rewrite <- product_file_join by done. apply elem_of_cons. by right.
Qed.

Lemma written_files_are_text_files_witness :
  ∃ obj' evs products,
    scrape_urls (world:=Shop.world) (pages:=Shop.pages) VapeScraper_init Shop.urls
      "vaperanger" = (obj', evs, inr products) ∧
    products_by_site products = [("vaperanger", products)] ∧
    ∃ rest, evs = MakeDirs "output/vaperanger" :: rest.
Proof.
  destruct (scrape_urls (world:=Shop.world) (pages:=Shop.pages) VapeScraper_init
              Shop.urls "vaperanger") as [[obj' evs] [e|products]] eqn:Hs;
    [vm_compute in Hs; discriminate Hs|].
  exists obj', evs, products. split; [reflexivity|].
  apply (proj1 (written_files_are_text_files (world:=Shop.world) (pages:=Shop.pages)
                  VapeScraper_init Shop.urls "vaperanger" obj' evs products
                  eq_refl Hs)).
  vm_compute in Hs. injection Hs as _ _ <-. discriminate.
Defined.

(** X18. [main] keeps to the numbers typed. The first number selects a
    site exactly when it lies between -1 and 2: 1 and -1 the first site, 2
    and 0 the second; any other number ends [main] with [IndexError] before
    anything else is read. The site is one of the registry, so that neither
    the crawl nor the scraping raises [KeyError], and the batch size 4
    keeps [process_products] from raising [ValueError]. When [main] gets
    to its end, the URLs found are distinct and at most [num_urls], the
    products are those of the URLs of the slice [urls[:no_to_scrape]] whose
    page could be fetched, at most [no_to_scrape] when that is not
    negative, and all of them belong to the site selected. *)
Theorem main_keeps_to_the_numbers {world : Collaborators}
    {pages : PageCollaborators} {llm : LLMCollaborators}
    {files : FileCollaborators} (choice num_urls no_to_scrape : option Z)
    (schedule : list action) :
  (∀ e, main choice num_urls no_to_scrape schedule = Some (inl e) →
     e ≠ CrawlError KeyError ∧ e ≠ ScrapeError (Raise KeyError) ∧
     e ≠ ExtractError (Raise ValueError)) ∧
  (main choice num_urls no_to_scrape schedule = Some (inl IndexError) ↔
   ∃ number, choice = Some number ∧ (number < -1 ∨ 2 < number)) ∧
  (∀ report,
     main choice num_urls no_to_scrape schedule = Some (inr report) →
     ∃ number max_urls count site_name,
       choice = Some number ∧ num_urls = Some max_urls ∧
       no_to_scrape = Some count ∧
       select_site number = Some site_name ∧
       ((site_name = "vaperanger" ∧ (number = 1 ∨ number = -1)) ∨
        (site_name = "vapewholesale" ∧ (number = 2 ∨ number = 0))) ∧
       NoDup (m_urls report) ∧
       Z.of_nat (length (m_urls report)) ≤ Z.max 0 max_urls ∧
       map p_url (m_products report) =
         List.filter page_fetched (slice_to (m_urls report) count) ∧
       (length (m_products report) ≤ length (m_urls report))%nat ∧
       (0 ≤ count → Z.of_nat (length (m_products report)) ≤ count) ∧
       Forall (λ p, site_of p = site_name) (m_products report)).
Proof.
  unfold main.
  destruct choice as [number|]; [|split_and!; [by intros e [= <-]| |done]];
    [|split; [done|by intros (? & ? & _)]].
  destruct (select_site number) as [site_name|] eqn:Hsite.
  2:{ apply select_site_None in Hsite. split_and!; [by intros e [= <-]| |done].
      split; [|done]. intros _. by exists number. }
  assert (¬ (number < -1 ∨ 2 < number)) as Hrange.
  { intros Hout. apply select_site_None in Hout. congruence. }
  assert ((∃ n, Some number = Some n ∧ (n < -1 ∨ 2 < n)) → False) as Hindex.
  { intros (n & [= <-] & Hn). by apply Hrange. }
  pose proof (select_site_registered _ _ Hsite) as Hreg.
  pose proof (select_site_cases _ _ Hsite) as Hcases.
  destruct num_urls as [max_urls|]; [|split_and!; [by intros e [= <-]| |done]];
    [|split; [done|by intros ?]].
  destruct (find_product_urls_start VapeScraper_init site_name) as [e0|s0] eqn:Hstart.
  { split_and!; [| |done].
    - intros e [= <-]. split_and!; [|done|done]. intros [= ->].
      unfold find_product_urls_start in Hstart. cbn [target_sites VapeScraper_init] in Hstart.
      destruct Hreg as [info Hinfo]. rewrite Hinfo in Hstart.
      by destruct (urlparse_netloc (site_base_url info)).
    - split; [done|by intros ?]. }
  destruct (run site_name max_urls schedule s0) as [s|] eqn:Hrun;
    [|split_and!; [done| |done]; split; [done|by intros ?]].
  destruct (pc s) as [| | |urls] eqn:Hpc;
    try (split_and!; [done| |done]; split; [done|by intros ?]).
  destruct no_to_scrape as [count|]; [|split_and!; [by intros e [= <-]| |done]];
    [|split; [done|by intros ?]].
  destruct (crawl_result_bound _ _ _ _ _ _ _ Hstart Hrun Hpc) as [Hnd Hlen].
  assert (target_sites (self s) = TARGET_SITES) as Hsites.
  { destruct (run_self _ _ _ _ _ Hrun) as (_ & _ & ->).
    by apply start_inv in Hstart as (info & d & _ & _ & ->). }
  destruct (scrape_urls (self s) (slice_to urls count) site_name)
    as [[obj' evs] [e1|products]] eqn:Hscrape.
  { split_and!; [| |done].
    - intros e [= <-]. split_and!; [done| |done]. intros [= ->].
      eapply scrape_urls_no_key_error; [|exact Hscrape|done]. by rewrite Hsites.
    - split; [done|by intros ?]. }
  destruct (process_products (LLMProcessor_new 4 None).2 products []).1
    as [e2|records] eqn:Hrecords.
  { split_and!; [| |done].
    - intros e [= <-]. split_and!; [done|done|]. intros [= ->].
      apply process_sites_value_error in Hrecords. done.
    - split; [done|by intros ?]. }
  split_and!; [done|split; [done|by intros ?]|].
  intros report [= <-]. cbn [m_urls m_products].
  exists number, max_urls, count, site_name.
  assert (truthy site_name = true) as Htruthy
    by (by destruct Hcases as [[-> _]|[-> _]]).
  unfold scrape_urls in Hscrape.
  destruct (slice_to_length_le urls count) as [Hle Hcount].
  destruct (slice_to urls count) as [|url rest] eqn:Hslice.
  { injection Hscrape as _ _ <-. split_and!; try done; simpl; lia. }
  rewrite Hsites in Hscrape. destruct Hreg as [info Hinfo]. rewrite Hinfo in Hscrape.
  destruct (urlparse_netloc (site_base_url info)); [|done].
  destruct (makedirs_ok _); [|done].
  destruct (scrape_loop site_name ("output/" +:+ site_name) 0 (url :: rest) [])
    as [evs' r] eqn:Hl.
  injection Hscrape as _ _ ->.
  apply scrape_loop_result in Hl as (new & -> & Hurls & Hok & _ & _).
  rewrite app_nil_l.
  assert (length new ≤ length (url :: rest))%nat as Hnew.
  { rewrite <- (length_map p_url), Hurls. apply List.filter_length_le. }
  split_and!; try done.
  - lia.
  - intros H0. specialize (Hcount H0). lia.
  - eapply Forall_impl; [exact Hok|]. intros p Hp. by apply scraped_site_of.
Qed.

(** A shop whose seed page lists products and whose other pages can all
    be fetched. *)
Module Tour.

Definition world : Collaborators :=
  {| urlparse_netloc := Web.netloc;
     urljoin := Web.join;
     soup_hrefs := Web.hrefs;
     requests_get := λ url _,
       if String.eqb url Web.seed then Some "seed" else Some "page" |}.

End Tour.

Lemma main_keeps_to_the_numbers_witness :
  main (world:=Tour.world) (pages:=Shop.pages) (llm:=Lab.llm) (files:=Disk.files)
    (Some 3) None None [] = Some (inl IndexError) ∧
  ∃ report,
    main (world:=Tour.world) (pages:=Shop.pages) (llm:=Lab.llm) (files:=Disk.files)
      (Some 1) (Some 2) (Some 1) Web.seed_only = Some (inr report) ∧
    Z.of_nat (length (m_urls report)) ≤ Z.max 0 2 ∧
    Z.of_nat (length (m_products report)) ≤ 1 ∧
    Forall (λ p, site_of p = "vaperanger") (m_products report).
Proof.
  split.
  - apply (proj1 (proj2 (main_keeps_to_the_numbers (world:=Tour.world)
             (pages:=Shop.pages) (llm:=Lab.llm) (files:=Disk.files)
             (Some 3) None None []))).
    exists 3. split; [reflexivity|lia].
  - destruct (main (world:=Tour.world) (pages:=Shop.pages) (llm:=Lab.llm)
                (files:=Disk.files) (Some 1) (Some 2) (Some 1) Web.seed_only)
      as [[e|report]|] eqn:Hmain;
      [vm_compute in Hmain; discriminate Hmain| |vm_compute in Hmain; discriminate Hmain].
    exists report. split; [reflexivity|].
    destruct (proj2 (proj2 (main_keeps_to_the_numbers (world:=Tour.world)
                (pages:=Shop.pages) (llm:=Lab.llm) (files:=Disk.files)
                (Some 1) (Some 2) (Some 1) Web.seed_only)) report Hmain)
      as (number & max_urls & count & site_name & Hn & Hm & Hc & Hs & _ & _ &
          Hlen & _ & _ & Hcount & Hsite).
    injection Hn as <-. injection Hm as <-. injection Hc as <-.
    vm_compute in Hs. injection Hs as <-.
    split; [exact Hlen|]. split; [apply Hcount; lia|exact Hsite].
Defined.
